(** * x264 audio stage: the lavf decode cache and the LAME encoder adapter

    A shallow embedding of [filters/audio/source_lavf.c] and
    [audio/encoders/enc_mp3lame.c], with the properties of the sliding
    decode cache (eviction, range queries, recursive splitting) and of the
    pull-based encoder adapter (running loop, skip, flush).

    Conventions.
    - C integers are [Z] with the wrap-around of their type written out:
      [s64] for [int64_t] and [intptr_t] (LP64), [u64] for [uint64_t],
      [s32] for [int], [u8] for [uint8_t].
    - Memory blocks are [list Z] (one element per byte).
    - The external collaborators (libavformat's demuxer, libavcodec's
      decoder, the upstream filter chain and LAME) are oracles carried in
      the state: what they will answer is data, how the code reacts to the
      answers is the embedded program.
    - The function-local [static] variables of the C file live in one
      record [statics] that is shared by every handle of the process. *)

From Stdlib Require Import ZArith List Bool Lia.
Import ListNotations.
Open Scope Z_scope.

(** ** Machine integers *)

Module CInt.

Definition u64 (x : Z) : Z := x mod 2 ^ 64.
Definition s64 (x : Z) : Z := (x + 2 ^ 63) mod 2 ^ 64 - 2 ^ 63.
Definition s32 (x : Z) : Z := (x + 2 ^ 31) mod 2 ^ 32 - 2 ^ 31.
Definition u8 (x : Z) : Z := x mod 2 ^ 8.

Definition INT64_MAX : Z := 2 ^ 63 - 1.

End CInt.
Import CInt.

(** ** Memory blocks *)

Module Mem.

(** [memcpy (dst + off, src, n)]: the block [dst] with [n] bytes of [src]
    written at offset [off]. *)
Definition memcpy_at (dst : list Z) (off : Z) (src : list Z) (n : Z) : list Z :=
  firstn (Z.to_nat off) dst
    ++ firstn (Z.to_nat n) src
    ++ skipn (Z.to_nat (off + n)) dst.

(** [memmove (dst, dst + d, n)]: the first [n] bytes are replaced by the
    [n] bytes that start at offset [d]; the rest of the block stays. *)
Definition memmove_down (dst : list Z) (d n : Z) : list Z :=
  firstn (Z.to_nat n) (skipn (Z.to_nat d) dst) ++ skipn (Z.to_nat n) dst.

(** The [n] bytes of [blk] that start at offset [off]. *)
Definition slice (blk : list Z) (off n : Z) : list Z :=
  firstn (Z.to_nat n) (skipn (Z.to_nat off) blk).

Definition zlen (l : list Z) : Z := Z.of_nat (length l).

End Mem.
Import Mem.

(** ** Packets *)

Module Pkt.

(** The fields of [audio_packet_t] that the two files touch.  [data] holds
    the [size] bytes in use. *)
Record audio_packet_t : Type := mkPacket {
  data : list Z;
  size : Z;
  dts : Z;
  samplecount : Z;
  flags : Z
}.

(** [calloc( 1, sizeof( audio_packet_t ) )] *)
Definition calloc : audio_packet_t := mkPacket [] 0 0 0 0.

(** Modelled from the spec: the value of the macro [AUDIO_FLAG_EOF] of
    [filters/audio/internal.h], which is not among the sources; the spec
    speaks of one end-of-stream flag, here the lowest bit. *)
Definition AUDIO_FLAG_EOF : Z := 1.

Definition has_eof (p : audio_packet_t) : bool :=
  negb (Z.land (flags p) AUDIO_FLAG_EOF =? 0).

Definition set_flags (p : audio_packet_t) (f : Z) : audio_packet_t :=
  mkPacket (data p) (size p) (dts p) (samplecount p) f.

End Pkt.

(** ** Outcomes of a call *)

Inductive outcome (A : Type) : Type :=
| Ret (a : A)            (* the call returns [a] *)
| AssertFail             (* an [assert] of the source fails *)
| Undefined              (* a block operation leaves its block *)
| NoFuel.                (* the recursion does not come back *)
Arguments Ret {A} a.
Arguments AssertFail {A}.
Arguments Undefined {A}.
Arguments NoFuel {A}.

(** ** The decode cache: [filters/audio/source_lavf.c] *)

Module Lavf.

(** *** External collaborators *)

(** One call of [avcodec_decode_audio3] on the bytes left of a compressed
    packet: a broken frame ([len < 0]), or [len] input bytes consumed and
    the PCM bytes [out] written ([datalen] is their number). *)
Inductive decode_step : Type :=
| Broken
| Decoded (consumed : Z) (out : list Z).

(** A compressed packet as [av_read_frame] delivers it.  [steps] is what
    the decoder will answer on the successive calls made on this packet. *)
Record AVPacket : Type := mkAVPacket {
  stream_index : Z;
  size : Z;
  steps : list decode_step
}.

(** One answer of [av_read_frame]: a packet, or a read error.  The end of
    the list is [AVERROR_EOF]. *)
Inductive read_event : Type :=
| Frame (p : AVPacket)
| ReadError.

(** *** Function-local statics *)

(** [pkt_temp], [pkt] and [desync_warn] of [low_decode_audio], and
    [errored] of [fill_buffer_until].  [pkt_temp.data] is represented by
    the decoder answers still to come for the current packet. *)
Record statics : Type := mkStatics {
  pkt_temp_size : Z;
  pkt_temp_steps : list decode_step;
  pkt : bool;                      (* [pkt != NULL] *)
  desync_warn : Z;
  warnings : nat;                  (* desync warnings logged so far *)
  errored : bool
}.

Definition statics_init : statics :=
  mkStatics 0 [] false 0 0 false.

(** *** The handle *)

Record lavf_source_t : Type := mkLavf {
  lavf : list read_event;          (* what the demuxer has still to deliver *)
  track : Z;
  buffer : list Z;
  bufsize : Z;
  surplus : Z;
  len : Z;
  bytepos : Z;
  samplesize : Z                   (* [info->samplesize] *)
}.

(** The process as one handle sees it. *)
Record machine : Type := mkMachine {
  st : statics;
  hnd : lavf_source_t
}.

Definition set_lavf (h : lavf_source_t) (l : list read_event) : lavf_source_t :=
  mkLavf l (track h) (buffer h) (bufsize h) (surplus h) (len h) (bytepos h)
         (samplesize h).

(** *** [next_packet] *)

(** Reads until a packet of the selected track arrives; [None] on a read
    error or at the end of the file. *)
Fixpoint next_packet (trk : Z) (l : list read_event)
  : list read_event * option AVPacket :=
  match l with
  | [] => ([], None)
  | ReadError :: rest => (rest, None)
  | Frame p :: rest =>
      if stream_index p =? trk then (rest, Some p) else next_packet trk rest
  end.

(** *** [low_decode_audio] *)

(** With the decoder answers of this model ([datalen >= 0]) the [while]
    loop of the source runs its body at most once: it either breaks on a
    broken frame or returns [datalen].  A packet whose answers are used up
    while bytes remain is answered as broken. *)
Definition low_decode_audio (m : machine) : machine * Z * list Z :=
  let s := st m in
  let h := hnd m in
  let refill (s : statics) :=
    let '(rest, p) := next_packet (track h) (lavf h) in
    match p with
    | None =>
        (mkMachine (mkStatics (pkt_temp_size s) (pkt_temp_steps s) false
                              (desync_warn s) (warnings s) (errored s))
                   (set_lavf h rest), -1, [])
    | Some p =>
        (mkMachine (mkStatics (size p) (steps p) true
                              (desync_warn s) (warnings s) (errored s))
                   (set_lavf h rest), 0, [])
    end in
  if pkt s && (0 <? pkt_temp_size s) then
    match pkt_temp_steps s with
    | Decoded consumed out :: more =>
        if consumed <? 0 then
          refill (mkStatics 0 more (pkt s) (u8 (desync_warn s + 1))
                            (if desync_warn s =? 0 then S (warnings s)
                             else warnings s)
                            (errored s))
        else
          (mkMachine (mkStatics (s32 (pkt_temp_size s - consumed)) more (pkt s)
                                (desync_warn s) (warnings s) (errored s)) h,
           zlen out, out)
    | Broken :: more =>
        refill (mkStatics 0 more (pkt s) (u8 (desync_warn s + 1))
                          (if desync_warn s =? 0 then S (warnings s)
                           else warnings s)
                          (errored s))
    | [] =>
        refill (mkStatics 0 [] (pkt s) (u8 (desync_warn s + 1))
                          (if desync_warn s =? 0 then S (warnings s)
                           else warnings s)
                          (errored s))
    end
  else refill s.

(** *** [decode_next_frame] *)

(** Decoder answers and demuxer events still to come: each call of
    [low_decode_audio] that returns [0] uses up at least one of them. *)
Fixpoint events_work (l : list read_event) : nat :=
  match l with
  | [] => 0
  | ReadError :: rest => S (events_work rest)
  | Frame p :: rest => S (length (steps p) + events_work rest)
  end.

Definition work (m : machine) : nat :=
  (length (pkt_temp_steps (st m)) + events_work (lavf (hnd m)))%nat.

(** The [while( ( len = low_decode_audio(...) ) == 0 )] loop.  [None] only
    when the fuel runs out. *)
Fixpoint decode_loop (fuel : nat) (m : machine)
  : option (machine * option (list Z)) :=
  match fuel with
  | O => None
  | S f =>
      let '(m', n, out) := low_decode_audio m in
      if n =? 0 then decode_loop f m'
      else if n <? 0 then Some (m', None)
      else Some (m', Some out)
  end.

(** The decoded unit ([dst->data] with [dst->size] bytes), or [None] for
    [NULL].  The fuel [S (work m)] always suffices
    (see [decode_loop_enough]), so the last branch is never taken. *)
Definition decode_next_frame (m : machine) : machine * option (list Z) :=
  match decode_loop (S (work m)) m with
  | Some r => r
  | None => (m, None)
  end.

(** *** [buffer_next_frame] *)

Definition set_cache (h : lavf_source_t) (b : list Z) (l p : Z) : lavf_source_t :=
  mkLavf (lavf h) (track h) b (bufsize h) (surplus h) l p (samplesize h).

(** Returns [true] for [1] and [false] for [0].  The block operations are
    those of the source; they stay inside the buffer whenever
    [0 <= len <= bufsize] and the unit is at most half the buffer
    (see [buffer_next_frame_in_bounds]). *)
Definition buffer_next_frame (m : machine) : machine * bool :=
  let '(m1, dec) := decode_next_frame m in
  match dec with
  | None => (m1, false)
  | Some data =>
      let h := hnd m1 in
      let d := zlen data in
      let h1 :=
        if bufsize h <? s64 (len h + d) then
          set_cache h (memmove_down (buffer h) d (bufsize h - d))
                    (s64 (len h - d)) (u64 (bytepos h + d))
        else h in
      let h2 :=
        set_cache h1 (memcpy_at (buffer h1) (len h1) data d)
                  (s64 (len h1 + d)) (bytepos h1) in
      (mkMachine (st m1) h2, true)
  end.

(** *** [not_in_cache] *)

(** [-1] before the window, [0] inside, [1] after.  The comparisons mix
    [int64_t] with [uint64_t] and are therefore unsigned. *)
Definition not_in_cache (h : lavf_source_t) (sample : Z) : Z :=
  let samplebyte := s64 (sample * samplesize h) in
  if u64 samplebyte <? bytepos h then -1
  else if u64 samplebyte <? u64 (bytepos h + u64 (len h)) then 0
  else 1.

(** *** [fill_buffer_until] *)

Definition set_errored (m : machine) : machine :=
  let s := st m in
  mkMachine (mkStatics (pkt_temp_size s) (pkt_temp_steps s) (pkt s)
                       (desync_warn s) (warnings s) true)
            (hnd m).

(** The [while( ( ret = not_in_cache(...) ) > 0 )] loop; yields the last
    [ret].  [None] only when the fuel runs out, which the fuel that
    [fill_buffer_until] gives never does (see [fill_loop_total]). *)
Fixpoint fill_loop (fuel : nat) (m : machine) (lastsample : Z)
  : option (machine * Z) :=
  match fuel with
  | O => None
  | S f =>
      let ret := not_in_cache (hnd m) lastsample in
      if 0 <? ret then
        let '(m', ok) := buffer_next_frame m in
        if ok then fill_loop f m' lastsample
        else Some (set_errored m', ret)
      else Some (m, ret)
  end.

Definition fill_buffer_until (m : machine) (lastsample : Z)
  : machine * outcome Z :=
  if errored (st m) then (m, Ret (-1))
  else if not_in_cache (hnd m) lastsample <? 0 then (m, Ret (-1))
  else
    match fill_loop (S (work m)) m lastsample with
    | None => (m, NoFuel)
    | Some (m', ret) =>
        if 0 <=? ret
        then (m', Ret (s64 (u64 (bytepos (hnd m') + u64 (len (hnd m'))))))
        else (m', AssertFail)
    end.

(** *** [get_samples] *)

Import Pkt.

Definition bind_fill {A : Type} (r : machine * outcome Z)
    (k : machine -> Z -> machine * outcome A) : machine * outcome A :=
  match r with
  | (m, Ret v) => k m v
  | (m, AssertFail) => (m, AssertFail)
  | (m, Undefined) => (m, Undefined)
  | (m, NoFuel) => (m, NoFuel)
  end.

(** [Ret None] is the [NULL] result.  The recursion of the source is on
    fuel; [get_samples] below supplies [last_sample - first_sample], which
    is enough for every handle whose sizes are sane
    (see [get_samples_rec_fuel]). *)
Fixpoint get_samples_rec (fuel : nat) (m : machine) (first_sample last_sample : Z)
  : machine * outcome (option audio_packet_t) :=
  if negb ((0 <=? first_sample) && (first_sample <? last_sample))
  then (m, AssertFail)
  else
  match fuel with
  | O => (m, NoFuel)
  | S f =>
    bind_fill (fill_buffer_until m first_sample) (fun m0 avail =>
    if avail <? 0 then (m0, Ret None)
    else
      let h := hnd m0 in
      let size0 := s64 ((last_sample - first_sample) * samplesize h) in
      if bufsize h <? s64 (size0 + surplus h) then
        let pivot :=
          s64 (first_sample
               + Z.quot (s64 (bufsize h - s64 (surplus h * 2))) (samplesize h)) in
        let expected_size := s64 ((pivot - first_sample) * samplesize h) in
        match get_samples_rec f m0 first_sample pivot with
        | (m1, Ret None) => (m1, Ret None)
        | (m1, Ret (Some prev)) =>
            if size prev <? expected_size then
              (m1, Ret (Some (set_flags prev (Z.lor (flags prev) AUDIO_FLAG_EOF))))
            else if negb (size prev =? expected_size) then (m1, AssertFail)
            else
              match get_samples_rec f m1 pivot last_sample with
              | (m2, Ret None) => (m2, Ret None)
              | (m2, Ret (Some next)) =>
                  (m2, Ret (Some
                     (mkPacket (slice (data prev) 0 (size prev)
                                  ++ slice (data next) 0 (size next))
                               (s64 (size prev + size next)) 0 0 0)))
              | (m2, other) => (m2, other)
              end
        | (m1, other) => (m1, other)
        end
      else
        let lastreq := s64 (last_sample * samplesize h) in
        bind_fill (fill_buffer_until m0 last_sample) (fun m1 lastavail =>
        if lastavail <? 0 then (m1, Ret None)
        else
          let h1 := hnd m1 in
          let start :=
            s64 (u64 (s64 (first_sample * samplesize h1) - bytepos h1)) in
          let '(size1, flags1) :=
            if lastavail <? lastreq
            then (s64 (u64 (lastavail - bytepos h1 - start)), AUDIO_FLAG_EOF)
            else (size0, 0) in
          if negb (s64 (start + size1) <=? bufsize h1) then (m1, AssertFail)
          else if (start <? 0) || (size1 <? 0) then (m1, Undefined)
          else
            (m1, Ret (Some (mkPacket (slice (buffer h1) start size1)
                                     size1 0 0 flags1)))))
  end.

Definition get_samples (m : machine) (first_sample last_sample : Z)
  : machine * outcome (option audio_packet_t) :=
  get_samples_rec (Z.to_nat (last_sample - first_sample)) m
                  first_sample last_sample.

(** *** [init] *)

(** The value of libavcodec's [AVCODEC_MAX_AUDIO_FRAME_SIZE] (1 second of
    48 kHz 32-bit audio), which the source takes from
    [libavcodec/avcodec.h]. *)
Definition AVCODEC_MAX_AUDIO_FRAME_SIZE : Z := 192000.

Definition DEFAULT_BUFSIZE : Z := AVCODEC_MAX_AUDIO_FRAME_SIZE * 2.

(** What [av_find_stream_info] reports for one stream of the file, as far
    as [init] reads it. *)
Record stream_info : Type := mkStream {
  is_audio : bool;                 (* [codec_type == CODEC_TYPE_AUDIO] *)
  channels : Z;
  bits_per_sample : Z;             (* [av_get_bits_per_sample_format] *)
  frame_size : Z
}.

(** The track: the requested one when [track >= 0] (it must exist and be
    audio), otherwise the first audio stream; [None] for [TRACK_NONE]. *)
Fixpoint first_audio (streams : list stream_info) (i : Z) : option Z :=
  match streams with
  | [] => None
  | s :: rest => if is_audio s then Some i else first_audio rest (i + 1)
  end.

Definition select_track (streams : list stream_info) (trk : Z) : option Z :=
  if 0 <=? trk then
    match nth_error streams (Z.to_nat trk) with
    | Some s => if is_audio s then Some trk else None
    | None => None
    end
  else first_audio streams 0.

(** [init] from the point where the file is open: track selection, the
    format, the buffer and its priming with one decoded unit.  The
    decoder is taken to open.  [Ret None] is the [-1] result; the block
    [av_malloc] returns is given zeros. *)
Definition init (s : statics) (streams : list stream_info)
    (events : list read_event) (trk : Z)
  : statics * outcome (option lavf_source_t) :=
  match select_track streams trk with
  | None => (s, Ret None)
  | Some tid =>
      match nth_error streams (Z.to_nat tid) with
      | None => (s, Ret None)
      | Some ctx =>
          let chansize := Z.quot (bits_per_sample ctx) 8 in
          let ssize := s32 (chansize * channels ctx) in
          let framesize := s32 (frame_size ctx * ssize) in
          let sur := Z.quot (s32 (framesize * 3)) 2 in
          if negb (s64 (sur * 2) <? DEFAULT_BUFSIZE) then (s, AssertFail)
          else
            let h := mkLavf events tid
                            (repeat 0 (Z.to_nat DEFAULT_BUFSIZE))
                            DEFAULT_BUFSIZE sur 0 0 ssize in
            let '(m, ok) := buffer_next_frame (mkMachine s h) in
            if ok then (st m, Ret (Some (hnd m))) else (st m, Ret None)
      end
  end.

(** *** Well-formed handles and the decoded stream *)

(** PCM bytes the decoder can still produce, an upper bound. *)
Fixpoint steps_bytes (l : list decode_step) : Z :=
  match l with
  | [] => 0
  | Broken :: more => steps_bytes more
  | Decoded _ out :: more => zlen out + steps_bytes more
  end.

Fixpoint events_bytes (l : list read_event) : Z :=
  match l with
  | [] => 0
  | ReadError :: rest => events_bytes rest
  | Frame p :: rest => steps_bytes (steps p) + events_bytes rest
  end.

Definition pending (m : machine) : Z :=
  steps_bytes (pkt_temp_steps (st m)) + events_bytes (lavf (hnd m)).

(** The decoder writes into a block of [AVCODEC_MAX_AUDIO_FRAME_SIZE]
    bytes and the buffer holds two of them ([DEFAULT_BUFSIZE]): a decoded
    unit is at most half the buffer. *)
Definition step_ok (cap : Z) (d : decode_step) : Prop :=
  match d with
  | Broken => True
  | Decoded _ out => 2 * zlen out <= cap
  end.

Definition event_ok (cap : Z) (e : read_event) : Prop :=
  match e with
  | ReadError => True
  | Frame p => Forall (step_ok cap) (steps p)
  end.

Record wf (m : machine) : Prop := mkWf {
  wf_samplesize : 0 < samplesize (hnd m);
  wf_surplus : 0 <= surplus (hnd m);
  wf_room : samplesize (hnd m) <= bufsize (hnd m) - 2 * surplus (hnd m);
  wf_len : 0 <= len (hnd m) <= bufsize (hnd m);
  wf_buffer : zlen (buffer (hnd m)) = bufsize (hnd m);
  wf_bytepos : 0 <= bytepos (hnd m);
  wf_small : bytepos (hnd m) + len (hnd m) + pending m + bufsize (hnd m) < 2 ^ 62;
  wf_steps : Forall (step_ok (bufsize (hnd m))) (pkt_temp_steps (st m));
  wf_events : Forall (event_ok (bufsize (hnd m))) (lavf (hnd m))
}.

(** [remaining m R]: the units that [decode_next_frame] delivers from [m]
    until it first answers [NULL], laid end to end, are [R]. *)
Inductive remaining : machine -> list Z -> Prop :=
| remaining_end m m' :
    decode_next_frame m = (m', None) -> remaining m []
| remaining_unit m m' u R :
    decode_next_frame m = (m', Some u) -> remaining m' R ->
    remaining m (u ++ R).

(** [coherent T m]: against the decoded stream [T], the cache of [m] holds
    the bytes [bytepos, bytepos + len) of [T], everything before
    [bytepos + len] has been decoded and the rest is still to come (or,
    once [errored] is set, nothing is). *)
Definition coherent (T : list Z) (m : machine) : Prop :=
  exists P R,
    T = P ++ R /\
    zlen P = bytepos (hnd m) + len (hnd m) /\
    slice (buffer (hnd m)) 0 (len (hnd m)) = skipn (Z.to_nat (bytepos (hnd m))) P /\
    (if errored (st m) then R = [] else remaining m R).

End Lavf.

(** ** The decode cache: notions used to state its properties *)

Module LavfSpec.

Import Lavf Pkt.

(** Everything except the decoder's own position is left alone by a
    decoding call, and what is still to come only shrinks. *)
Record advances (m m' : machine) : Prop := mkAdv {
  adv_track : track (hnd m') = track (hnd m);
  adv_buffer : buffer (hnd m') = buffer (hnd m);
  adv_bufsize : bufsize (hnd m') = bufsize (hnd m);
  adv_surplus : surplus (hnd m') = surplus (hnd m);
  adv_len : len (hnd m') = len (hnd m);
  adv_bytepos : bytepos (hnd m') = bytepos (hnd m);
  adv_samplesize : samplesize (hnd m') = samplesize (hnd m);
  adv_errored : errored (st m') = errored (st m);
  adv_work : (work m' <= work m)%nat;
  adv_pending : pending m' <= pending m;
  adv_steps : forall cap,
      Forall (step_ok cap) (pkt_temp_steps (st m)) ->
      Forall (event_ok cap) (lavf (hnd m)) ->
      Forall (step_ok cap) (pkt_temp_steps (st m'))
      /\ Forall (event_ok cap) (lavf (hnd m'))
}.

(** What a decoded unit [r] tells about the step from [m] to [m']. *)
Definition unit_spec (m m' : machine) (r : option (list Z)) : Prop :=
  match r with
  | None => True
  | Some u =>
      0 < zlen u /\ (work m' < work m)%nat
      /\ pending m' + zlen u <= pending m
      /\ forall cap, Forall (step_ok cap) (pkt_temp_steps (st m)) ->
                     Forall (event_ok cap) (lavf (hnd m)) ->
                     2 * zlen u <= cap
  end.

(** [m] with another cache and another [errored]: the decoder's side of
    the state is kept. *)
Definition retarget (m : machine) (e : bool) (b : list Z) (l p : Z) : machine :=
  mkMachine
    (mkStatics (pkt_temp_size (st m)) (pkt_temp_steps (st m)) (pkt (st m))
               (desync_warn (st m)) (warnings (st m)) e)
    (set_cache (hnd m) b l p).

(** What a successful step does to the window, with [d] the size of the
    decoded unit [u]. *)
Record step_spec (m m' : machine) (u : list Z) : Prop := mkStep {
  step_unit : 0 < zlen u /\ 2 * zlen u <= bufsize (hnd m);
  step_target :
    m' = retarget m' (errored (st m)) (buffer (hnd m')) (len (hnd m'))
                  (bytepos (hnd m'));
  step_fixed :
    track (hnd m') = track (hnd m) /\ bufsize (hnd m') = bufsize (hnd m)
    /\ surplus (hnd m') = surplus (hnd m)
    /\ samplesize (hnd m') = samplesize (hnd m)
    /\ errored (st m') = errored (st m);
  step_window :
    if bufsize (hnd m) <? len (hnd m) + zlen u
    then bytepos (hnd m') = bytepos (hnd m) + zlen u
         /\ len (hnd m') = len (hnd m)
    else bytepos (hnd m') = bytepos (hnd m)
         /\ len (hnd m') = len (hnd m) + zlen u;
  step_bytes :
    slice (buffer (hnd m')) 0 (len (hnd m'))
    = skipn (Z.to_nat (bytepos (hnd m') - bytepos (hnd m)))
            (slice (buffer (hnd m)) 0 (len (hnd m)) ++ u);
  step_work : (work m' < work m)%nat;
  step_wf : wf m'
}.

(** [reach m m']: [m'] is a later state of the handle of [m]. *)
Record reach (m m' : machine) : Prop := mkReach {
  reach_wf : wf m';
  reach_bufsize : bufsize (hnd m') = bufsize (hnd m);
  reach_surplus : surplus (hnd m') = surplus (hnd m);
  reach_samplesize : samplesize (hnd m') = samplesize (hnd m);
  reach_bytepos : bytepos (hnd m) <= bytepos (hnd m');
  reach_end : bytepos (hnd m) + len (hnd m) <= bytepos (hnd m') + len (hnd m');
  reach_work : (work m' <= work m)%nat;
  reach_sticky : errored (st m) = true -> errored (st m') = true;
  reach_coherent : forall T, coherent T m -> coherent T m'
}.

(** The two branches of [get_samples_rec], named so that lemmas can
    speak of them ([get_samples_rec_unfold] folds the body into them).
    First the branch that copies out of the buffer, entered from [m0]
    with [size0] bytes requested. *)
Definition direct_branch (m0 : machine) (first_sample last_sample size0 : Z)
  : machine * outcome (option audio_packet_t) :=
  let lastreq := s64 (last_sample * samplesize (hnd m0)) in
  bind_fill (fill_buffer_until m0 last_sample) (fun m1 lastavail =>
  if lastavail <? 0 then (m1, Ret None)
  else
    let h1 := hnd m1 in
    let start :=
      s64 (u64 (s64 (first_sample * samplesize h1) - bytepos h1)) in
    let '(size1, flags1) :=
      if lastavail <? lastreq
      then (s64 (u64 (lastavail - bytepos h1 - start)), AUDIO_FLAG_EOF)
      else (size0, 0) in
    if negb (s64 (start + size1) <=? bufsize h1) then (m1, AssertFail)
    else if (start <? 0) || (size1 <? 0) then (m1, Undefined)
    else
      (m1, Ret (Some (mkPacket (slice (buffer h1) start size1)
                               size1 0 0 flags1)))).

(** The branch that splits at [pivot], the halves fetched by [rec]. *)
Definition split_branch
    (rec : machine -> Z -> Z -> machine * outcome (option audio_packet_t))
    (m0 : machine) (first_sample last_sample pivot expected_size : Z)
  : machine * outcome (option audio_packet_t) :=
  match rec m0 first_sample pivot with
  | (m1, Ret None) => (m1, Ret None)
  | (m1, Ret (Some prev)) =>
      if size prev <? expected_size then
        (m1, Ret (Some (set_flags prev (Z.lor (flags prev) AUDIO_FLAG_EOF))))
      else if negb (size prev =? expected_size) then (m1, AssertFail)
      else
        match rec m1 pivot last_sample with
        | (m2, Ret None) => (m2, Ret None)
        | (m2, Ret (Some next)) =>
            (m2, Ret (Some
               (mkPacket (slice (data prev) 0 (size prev)
                            ++ slice (data next) 0 (size next))
                         (s64 (size prev + size next)) 0 0 0)))
        | (m2, other) => (m2, other)
        end
  | (m1, other) => (m1, other)
  end.

(** The pivot of [get_samples], as the source computes it. *)
Definition pivot_of (h : lavf_source_t) (first_sample : Z) : Z :=
  s64 (first_sample
       + Z.quot (s64 (bufsize h - s64 (surplus h * 2))) (samplesize h)).

(** [served T ss a b p]: the packet [p] carries the bytes of the decoded
    stream [T] that the samples [a, b) address, cut at the end of [T]. *)
Record served (T : list Z) (ss a b : Z) (p : audio_packet_t) : Prop := mkServed {
  served_start : a * ss < zlen T;
  served_size : size p = Z.min (b * ss) (zlen T) - a * ss;
  served_data : data p = slice T (a * ss) (size p)
}.

(** A call comes back with [NULL], with a packet that is right, or runs
    into a read before the buffer; it neither trips an assertion nor
    fails to come back. *)
Definition result_ok (T : list Z) (ss a b : Z)
    (r : outcome (option audio_packet_t)) : Prop :=
  match r with
  | Ret (Some p) => served T ss a b p
  | Ret None => True
  | Undefined => True
  | AssertFail => False
  | NoFuel => False
  end.

(** [rec1] and [rec2] agree on every range shorter than [bound], and
    what they return is right. *)
Definition good_rec (T : list Z)
    (rec1 rec2 : machine -> Z -> Z -> machine * outcome (option audio_packet_t))
    (bound : Z) : Prop :=
  forall m a b,
    wf m -> coherent T m -> 0 <= a < b ->
    b * samplesize (hnd m) < 2 ^ 62 -> b - a < bound ->
    exists m' r,
      rec1 m a b = (m', r) /\ rec2 m a b = (m', r)
      /\ reach m m' /\ result_ok T (samplesize (hnd m)) a b r.

Record keeps (m m' : machine) : Prop := mkKeeps {
  keeps_wf : wf m';
  keeps_bufsize : bufsize (hnd m') = bufsize (hnd m);
  keeps_bytepos : bytepos (hnd m) <= bytepos (hnd m')
}.

(** The bytes resident in the cache, oldest first. *)
Definition window (m : machine) : list Z :=
  slice (buffer (hnd m)) 0 (len (hnd m)).

(** A handle served a sequence of range requests, one after the other. *)
Fixpoint run_requests (m : machine) (reqs : list (Z * Z)) : machine :=
  match reqs with
  | [] => m
  | (a, b) :: rest => run_requests (fst (get_samples m a b)) rest
  end.

End LavfSpec.

(** ** The encoder adapter: [audio/encoders/enc_mp3lame.c] *)

Module Lame.

Import Pkt.

(** The pointer [h->in]: [NULL], a packet the adapter holds, or the
    address of a packet that has been released already. *)
Inductive held : Type :=
| HNull
| HLive (p : audio_packet_t)
| HFreed (p : audio_packet_t).

Section Adapter.

(** The upstream filter chain and the LAME instance, with the calls the
    adapter makes on them: [x264_af_get_samples],
    [lame_encode_buffer_float] (input packet and capacity of the output
    block, giving the returned count and the bytes written) and
    [lame_encode_flush]. *)
Variable chain : Type.
Variable af_get_samples : chain -> Z -> Z -> chain * option audio_packet_t.
Variable lame_t : Type.
Variable lame_encode_buffer_float :
  lame_t -> audio_packet_t -> Z -> lame_t * Z * list Z.
Variable lame_encode_flush : lame_t -> Z -> lame_t * Z * list Z.

Record enc_lame_t : Type := mkEnc {
  framelen : Z;                    (* [info.framelen] *)
  filter_chain : chain;
  packet_count : Z;
  finishing : Z;
  lame : lame_t;
  last_sample : Z;
  bufsize : Z;
  in_ : held
}.

Definition set_in (h : enc_lame_t) (i : held) : enc_lame_t :=
  mkEnc (framelen h) (filter_chain h) (packet_count h) (finishing h) (lame h)
        (last_sample h) (bufsize h) i.

Definition set_finishing (h : enc_lame_t) (f : Z) : enc_lame_t :=
  mkEnc (framelen h) (filter_chain h) (packet_count h) f (lame h)
        (last_sample h) (bufsize h) (in_ h).

Definition set_out (out : audio_packet_t) (d : list Z) (sz ts : Z)
  : audio_packet_t :=
  mkPacket d sz ts (samplecount out) (flags out).

(** One round of the loop body after the end-of-stream test: with the
    held packet released ([h] comes with [h->in] released already, the
    pointer keeping its value), pull the window
    [last_sample, last_sample + framelen) and encode it. *)
Definition pull_and_encode (h : enc_lame_t) (out : audio_packet_t)
  : enc_lame_t * option audio_packet_t :=
  let '(c, got) :=
    af_get_samples (filter_chain h) (last_sample h)
                   (s64 (last_sample h + framelen h)) in
  match got with
  | None =>
      (mkEnc (framelen h) c (packet_count h) (finishing h) (lame h)
             (last_sample h) (bufsize h) HNull, None)
  | Some p =>
      let '(l, n, bytes) := lame_encode_buffer_float (lame h) p (bufsize h) in
      (mkEnc (framelen h) c (packet_count h) (finishing h) l
             (s64 (last_sample h + samplecount p)) (bufsize h) (HLive p),
       Some (set_out out bytes n (last_sample h)))
  end.

(** The [while( !out->size )] loop; [out] is the packet being filled. *)
Fixpoint encode_loop (fuel : nat) (h : enc_lame_t) (out : audio_packet_t)
  : enc_lame_t * outcome (option audio_packet_t) :=
  if negb (size out =? 0) then (h, Ret (Some out))
  else
  match fuel with
  | O => (h, NoFuel)
  | S f =>
      match in_ h with
      | HFreed _ => (h, Undefined)
      | HLive p =>
          if has_eof p then
            (set_in (set_finishing h 1) (HFreed p), Ret None)
          else
            match pull_and_encode (set_in h (HFreed p)) out with
            | (h', None) => (h', Ret None)
            | (h', Some out') => encode_loop f h' out'
            end
      | HNull =>
          match pull_and_encode h out with
          | (h', None) => (h', Ret None)
          | (h', Some out') => encode_loop f h' out'
          end
      end
  end.

(** [fuel] bounds the number of rounds of the loop. *)
Definition get_next_packet (fuel : nat) (h : enc_lame_t)
  : enc_lame_t * outcome (option audio_packet_t) :=
  if negb (finishing h =? 0) then (h, Ret None)
  else encode_loop fuel h calloc.

Definition skip_samples (h : enc_lame_t) (count : Z) : enc_lame_t :=
  mkEnc (framelen h) (filter_chain h) (packet_count h) (finishing h) (lame h)
        (s64 (u64 (u64 (last_sample h) + u64 count))) (bufsize h) (in_ h).

(** [finish] reads [h->in->samplecount]: the result is [Undefined] unless
    the adapter holds a packet. *)
Definition finish (h : enc_lame_t)
  : enc_lame_t * outcome (option audio_packet_t) :=
  match in_ h with
  | HLive p =>
      let fin := s32 (finishing h + 1) in
      let ts := s64 (last_sample h + s64 (samplecount p * fin)) in
      let '(l, n, bytes) := lame_encode_flush (lame h) (bufsize h) in
      let h' := mkEnc (framelen h) (filter_chain h) (packet_count h) fin l
                      (last_sample h) (bufsize h) (in_ h) in
      if n =? 0 then (h', Ret None)
      else (h', Ret (Some (mkPacket bytes n ts 0 0)))
  | _ => (h, Undefined)
  end.

(** *** The running loop as the specification words it *)

(** The adapter may start a round: the held packet, if any, is live and
    not flagged end-of-stream. *)
Definition may_pull (h : enc_lame_t) : Prop :=
  match in_ h with
  | HNull => True
  | HLive q => has_eof q = false
  | HFreed _ => False
  end.

(** The adapter after it has pulled [p] from upstream (left in state
    [c]) and the encoder (left in state [l]) has taken it: [last_sample]
    has moved on by the samples of [p], and [p] is held. *)
Definition pulled (h : enc_lame_t) (c : chain) (p : audio_packet_t)
    (l : lame_t) : enc_lame_t :=
  mkEnc (framelen h) c (packet_count h) (finishing h) l
        (s64 (last_sample h + samplecount p)) (bufsize h) (HLive p).

(** [silent_pulls h n h']: [n] rounds in a row, each pulling the window
    [last_sample, last_sample + framelen) and each encoded to zero
    bytes, lead from [h] to [h']. *)
Inductive silent_pulls : enc_lame_t -> nat -> enc_lame_t -> Prop :=
| silent_none h : silent_pulls h 0 h
| silent_more h c p l bytes n h' :
    may_pull h ->
    af_get_samples (filter_chain h) (last_sample h)
                   (s64 (last_sample h + framelen h)) = (c, Some p) ->
    lame_encode_buffer_float (lame h) p (bufsize h) = (l, 0, bytes) ->
    silent_pulls (pulled h c p l) n h' ->
    silent_pulls h (S n) h'.

(** [last_round h h' r]: the round that ends the call, from [h], leaving
    [h'] and returning [r]: upstream had signalled the end of the stream,
    or the pull fails, or the pull is encoded to a non-zero count. *)
Inductive last_round : enc_lame_t -> enc_lame_t -> option audio_packet_t -> Prop :=
| round_eof h q :
    in_ h = HLive q -> has_eof q = true ->
    last_round h (set_in (set_finishing h 1) (HFreed q)) None
| round_fail h c :
    may_pull h ->
    af_get_samples (filter_chain h) (last_sample h)
                   (s64 (last_sample h + framelen h)) = (c, None) ->
    last_round h
      (mkEnc (framelen h) c (packet_count h) (finishing h) (lame h)
             (last_sample h) (bufsize h) HNull)
      None
| round_out h c p l n bytes :
    may_pull h ->
    af_get_samples (filter_chain h) (last_sample h)
                   (s64 (last_sample h + framelen h)) = (c, Some p) ->
    lame_encode_buffer_float (lame h) p (bufsize h) = (l, n, bytes) ->
    n <> 0 ->
    last_round h (pulled h c p l)
               (Some (mkPacket bytes n (last_sample h) 0 0)).

End Adapter.

Arguments mkEnc {chain lame_t}.
Arguments framelen {chain lame_t}.
Arguments filter_chain {chain lame_t}.
Arguments packet_count {chain lame_t}.
Arguments finishing {chain lame_t}.
Arguments lame {chain lame_t}.
Arguments last_sample {chain lame_t}.
Arguments bufsize {chain lame_t}.
Arguments in_ {chain lame_t}.
Arguments set_in {chain lame_t}.
Arguments set_finishing {chain lame_t}.
Arguments pull_and_encode {chain} af_get_samples {lame_t}.
Arguments encode_loop {chain} af_get_samples {lame_t}.
Arguments get_next_packet {chain} af_get_samples {lame_t}.
Arguments skip_samples {chain lame_t}.
Arguments finish {chain lame_t}.
Arguments may_pull {chain lame_t}.
Arguments pulled {chain lame_t}.
Arguments silent_pulls {chain} af_get_samples {lame_t}.
Arguments last_round {chain} af_get_samples {lame_t}.

End Lame.

(** ** The encoder adapter: notions used to state its properties *)

Module LameSpec.

Import Pkt.

(** The packet being filled carries nothing from one round to the next
    while its size is 0. *)
Definition blank (out : audio_packet_t) : Prop :=
  size out = 0 /\ samplecount out = 0 /\ flags out = 0.

End LameSpec.

(** ** Small concrete handles *)

Module Demo.

Import Lavf.

(** [n] compressed packets of track 0, each decoding in one call to [w]
    bytes; the decoded stream counts up from [k]. *)
Fixpoint demo_frames (n w : nat) (k : Z) : list read_event :=
  match n with
  | O => []
  | S n' =>
      Frame (mkAVPacket 0 4
               [Decoded 4 (map (fun i => k + Z.of_nat i) (seq 0 w))])
        :: demo_frames n' w (k + Z.of_nat w)
  end.

(** A fresh handle with a 16-byte buffer and a surplus of 3 on such a
    stream, the sample frame being [ss] bytes. *)
Definition demo (ss : Z) (n w : nat) : machine :=
  mkMachine statics_init
            (mkLavf (demo_frames n w 0) 0 (repeat 0 16%nat) 16 3 0 0 ss).

(** The same handle once the buffer is full (bytes 0..15 resident), and
    once the window has moved on by one unit (bytes 2..17 resident). *)
Definition demo_full : machine := fst (fill_buffer_until (demo 1 10 2) 15).
Definition demo_moved : machine := fst (fill_buffer_until (demo 1 10 2) 17).

(** Handles as [init] makes them: one stereo 16-bit track with frames
    of 1152 samples, each compressed packet decoding to one frame (4608
    bytes). *)
Definition real_streams : list stream_info := [mkStream true 2 16 1152].

Definition real_open (s : statics) (n : nat)
  : statics * outcome (option lavf_source_t) :=
  init s real_streams (demo_frames n 4608 0) (-1).

(** The handle [init] makes for a 7-channel 16-bit track (14-byte sample
    frames). *)
Definition seven_channels : option lavf_source_t :=
  match init statics_init [mkStream true 7 16 1152]
             (demo_frames 2 (Z.to_nat 16128) 0) (-1) with
  | (_, Ret (Some h)) => Some h
  | _ => None
  end.

(** Two sources opened in one process: A on a file of 3 frames, then B
    on a file of 10 frames. *)
Definition two_handles : option (statics * lavf_source_t * lavf_source_t) :=
  match real_open statics_init 3 with
  | (s1, Ret (Some hA)) =>
      match real_open s1 10 with
      | (s2, Ret (Some hB)) => Some (s2, hA, hB)
      | _ => None
      end
  | _ => None
  end.

(** An adapter for the encoder: upstream always delivers the whole
    window and counts the pulls; the encoder swallows its first input
    and emits three bytes for every later one; the flush emits two. *)
Definition demo_upstream (c a b : Z) : Z * option Pkt.audio_packet_t :=
  (c + 1, Some (Pkt.mkPacket [] 0 0 (b - a) 0)).

Definition demo_encode (l : Z) (p : Pkt.audio_packet_t) (cap : Z)
  : Z * Z * list Z :=
  if l =? 0 then (l + 1, 0, []) else (l + 1, 3, [7; 7; 7]).

Definition demo_flush (l : Z) (cap : Z) : Z * Z * list Z := (l, 2, [9; 9]).

Definition demo_adapter : Lame.enc_lame_t Z Z :=
  Lame.mkEnc 1152 0 0 0 0 0 8640 Lame.HNull.

End Demo.

(** ** The decode cache: further notions *)

Module LavfMoreSpec.

Import Lavf Pkt LavfSpec.

(** The bytes that [n] successive calls of [decode_next_frame] deliver
    from [m], up to the first [NULL]. *)
Fixpoint stream_of (n : nat) (m : machine) : list Z :=
  match n with
  | O => []
  | S k =>
      match decode_next_frame m with
      | (m', Some u) => u ++ stream_of k m'
      | (_, None) => []
      end
  end.

(** Everything the decoder will still deliver from [m]. *)
Definition decoded_stream (m : machine) : list Z := stream_of (S (work m)) m.

(** A request the assertions of [get_samples] accept and whose byte
    offsets stay clear of the 64-bit limits. *)
Definition valid_request (m : machine) (r : Z * Z) : Prop :=
  0 <= fst r < snd r /\ snd r * samplesize (hnd m) < 2 ^ 62.

(** The packet of the direct copy, read off the state [m1] that the
    second [fill_buffer_until] leaves. *)
Definition direct_packet (m1 : machine) (a b : Z) : audio_packet_t :=
  let ss := samplesize (hnd m1) in
  let avail := bytepos (hnd m1) + len (hnd m1) in
  let sz := if avail <? b * ss then avail - a * ss else (b - a) * ss in
  mkPacket (slice (buffer (hnd m1)) (a * ss - bytepos (hnd m1)) sz) sz 0 0
           (if avail <? b * ss then AUDIO_FLAG_EOF else 0).

(** A packet of another track than [trk]. *)
Definition other_track (trk : Z) (e : read_event) : Prop :=
  match e with
  | Frame q => stream_index q <> trk
  | ReadError => False
  end.

(** The PCM blocks the decoder may deliver: the successful answers
    still to come for the current packet and for the packets of the
    selected track. *)
Fixpoint good_outs (l : list decode_step) : list (list Z) :=
  match l with
  | [] => []
  | Broken :: more => good_outs more
  | Decoded c out :: more =>
      if c <? 0 then good_outs more else out :: good_outs more
  end.

Fixpoint track_outs (trk : Z) (l : list read_event) : list (list Z) :=
  match l with
  | [] => []
  | ReadError :: rest => track_outs trk rest
  | Frame p :: rest =>
      (if stream_index p =? trk then good_outs (steps p) else [])
        ++ track_outs trk rest
  end.

Definition answers (m : machine) : list (list Z) :=
  good_outs (pkt_temp_steps (st m)) ++ track_outs (track (hnd m)) (lavf (hnd m)).

(** The demuxer stopped at [l'], coming from [l], on a read error or at
    the end of the file. *)
Definition stopped (l l' : list read_event) : Prop :=
  exists pre, (l = pre /\ l' = []) \/ l = pre ++ ReadError :: l'.

(** What one call of [low_decode_audio] does, from [m] to [m'] with the
    result [n] and the bytes [out]. *)
Record low_step (m m' : machine) (n : Z) (out : list Z) : Prop := mkLowStep {
  low_track : track (hnd m') = track (hnd m);
  low_suffix : exists pre, lavf (hnd m) = pre ++ lavf (hnd m');
  low_answers : incl (answers m') (answers m);
  low_unit : 0 < n -> In out (answers m) /\ n = zlen out;
  low_null : n < 0 -> pkt (st m') = false /\ stopped (lavf (hnd m)) (lavf (hnd m'))
}.

(** The file as [init] finds it: the decoded stream of the events
    [events] for the track and geometry of the handle [h], before
    anything is buffered. *)
Definition source_stream (s : statics) (events : list read_event)
    (h : lavf_source_t) : list Z :=
  decoded_stream
    (mkMachine s (mkLavf events (track h) [] (bufsize h) (surplus h) 0 0
                         (samplesize h))).

(** A stream format that leaves room in the buffer of [init]: the sample
    frame has at least one byte, [frame_size] is not negative, and one
    sample frame fits beside twice the surplus
    ([framesize * 3 / 2]). *)
Definition format_fits (ctx : stream_info) : Prop :=
  let ssize := Z.quot (bits_per_sample ctx) 8 * channels ctx in
  0 < ssize /\ 0 <= frame_size ctx
  /\ ssize + 2 * Z.quot (frame_size ctx * ssize * 3) 2 <= DEFAULT_BUFSIZE.

End LavfMoreSpec.

Module LavfBrokenSpec.

Import Lavf.

(** A decoder answer list whose next answer is a broken frame (answers
    used up while bytes remain count as broken, as in
    [low_decode_audio]). *)
Definition head_broken (l : list decode_step) : Prop :=
  match l with
  | Decoded c _ :: _ => c < 0
  | _ => True
  end.

(** The next call of [low_decode_audio] enters its loop and meets a
    broken frame. *)
Definition broken_head (s : statics) : Prop :=
  pkt s = true /\ 0 < pkt_temp_size s /\ head_broken (pkt_temp_steps s).

(** A packet of track [trk] whose first frame is broken. *)
Definition broken_packet (trk : Z) (p : AVPacket) : Prop :=
  stream_index p = trk /\ 0 < size p /\ head_broken (steps p).

(** What a broken frame does to the statics: the rest of the packet is
    dropped ([pkt_temp.size = 0]) and the warning counter ticks, a
    warning being logged when it was [0]. *)
Definition drop_packet (s : statics) : statics :=
  mkStatics 0 (tl (pkt_temp_steps s)) (pkt s) (u8 (desync_warn s + 1))
            (if desync_warn s =? 0 then S (warnings s) else warnings s)
            (errored s).

(** The statics once the packet [p] has been read. *)
Definition load_packet (s : statics) (p : AVPacket) : statics :=
  mkStatics (size p) (steps p) true (desync_warn s) (warnings s) (errored s).

(** The statics after the packets [ps] have been read and dropped one
    after the other. *)
Definition after_broken (s : statics) (ps : list AVPacket) : statics :=
  fold_left (fun s p => drop_packet (load_packet s p)) ps s.

(** One broken frame on the pair ([desync_warn], warnings logged):
    [if( !desync_warn++ )] on a [uint8_t]. *)
Definition tick (c : Z * nat) : Z * nat :=
  (u8 (fst c + 1), if fst c =? 0 then S (snd c) else snd c).

End LavfBrokenSpec.

(** ** The encoder adapter: [init] *)

Module LameInit.

Import Pkt Lame.

(** The fields of [audio_info_t] that [init] reads or writes. *)
Record audio_info_t : Type := mkInfo {
  channels : Z;
  samplerate : Z;
  info_framelen : Z;
  framesize : Z;
  chansize : Z;
  samplesize : Z;
  timebase : Z * Z;
  extradata_size : Z
}.

Inductive vbr_mode : Type := vbr_off | vbr_default.

Section Init.

(** The numbers of the option string ([x264_otof] gives a [float]) are
    kept abstract: [six] is the default [6.0] and [to_int] the C
    conversion [(int)]. *)
Variable num : Type.
Variable six : num.
Variable to_int : num -> Z.

(** What the setters of LAME have been told by the time
    [lame_init_params] is called. *)
Record lame_settings : Type := mkSettings {
  scale : Z;
  in_samplerate : Z;
  num_channels : Z;
  quality : Z;
  VBR : vbr_mode;
  brate : option Z;
  VBR_quality : option num
}.

(** LAME itself: the instance that [lame_init_params] leaves for given
    settings, and the two getters [init] calls on it. *)
Variable chain : Type.
Variable lame_t : Type.
Variable lame_init_params : lame_settings -> lame_t.
Variable lame_get_framesize : lame_t -> Z.
Variable lame_get_out_samplerate : lame_t -> Z.

(** [x264_otof( str, def )] and [x264_otoi( str, def )] on an option that
    was looked up already. *)
Definition otof (o : option num) (def : num) : num :=
  match o with Some v => v | None => def end.

Definition otoi (o : option Z) (def : Z) : Z :=
  match o with Some v => v | None => def end.

(** [init], with the options [bitrate], [vbr] and [quality] looked up.
    The chain is [None] for a null pointer, which the first [assert]
    stops; [chain_info] is the [info] of the chain.  [Ret None] is the
    result [0]; otherwise the adapter and its own [info].  The integer
    fields of [info] are taken to be [int]. *)
Definition init (filter_chain : option chain) (chain_info : audio_info_t)
    (cbr vbr : option num) (opt_quality : option Z)
  : outcome (option (enc_lame_t chain lame_t * audio_info_t)) :=
  match filter_chain with
  | None => AssertFail
  | Some filter_chain =>
  if 2 <? channels chain_info then Ret None
  else
    let brval := otof cbr (otof vbr six) in
    let q := otoi opt_quality 0 in
    match cbr, vbr with
    | Some _, Some _ => Ret None
    | _, _ =>
        let settings :=
          match cbr with
          | Some _ =>
              mkSettings 32768 (samplerate chain_info) (channels chain_info)
                         q vbr_off (Some (to_int brval)) None
          | None =>
              mkSettings 32768 (samplerate chain_info) (channels chain_info)
                         q vbr_default None (Some brval)
          end in
        let l := lame_init_params settings in
        let fl := lame_get_framesize l in
        let info :=
          mkInfo (channels chain_info)
                 (lame_get_out_samplerate l)
                 fl
                 (s32 (fl * 2))
                 2
                 (s32 (2 * channels chain_info))
                 (1, samplerate chain_info)
                 0 in
        Ret (Some (mkEnc fl filter_chain 0 0 l 0
                         (u64 (s32 (Z.quot (s32 (125 * fl)) 100 + 7200)))
                         HNull,
                   info))
    end
  end.

End Init.

Arguments init {num} six to_int {chain lame_t}.
Arguments mkSettings {num}.
Arguments otof {num}.
Arguments scale {num}.
Arguments in_samplerate {num}.
Arguments num_channels {num}.
Arguments quality {num}.
Arguments VBR {num}.
Arguments brate {num}.
Arguments VBR_quality {num}.

End LameInit.

(** ** Further concrete handles *)

Module DemoMore.

Import Lavf Demo.

(** The handle of [demo] with a 32-byte buffer. *)
Definition demo_wide (ss : Z) (n w : nat) : machine :=
  mkMachine statics_init
            (mkLavf (demo_frames n w 0) 0 (repeat 0 32%nat) 32 3 0 0 ss).

(** A fresh handle on track 0 of the demuxer events [l], with one-byte
    sample frames, a 16-byte buffer and a surplus of 3. *)
Definition on_events (l : list read_event) : machine :=
  mkMachine statics_init (mkLavf l 0 (repeat 0 16%nat) 16 3 0 0 1).

(** Packets of two tracks interleaved. *)
Definition two_tracks : list read_event :=
  [Frame (mkAVPacket 1 4 [Decoded 4 [9]]);
   Frame (mkAVPacket 0 4 [Decoded 4 [1; 2]]);
   Frame (mkAVPacket 1 4 [Decoded 4 [8]])].

(** A packet with a broken frame, followed by a good one; and the same
    with a read error in between. *)
Definition broken_packet_0 : AVPacket := mkAVPacket 0 4 [Broken].

Definition broken_then_good : list read_event :=
  [Frame broken_packet_0; Frame (mkAVPacket 0 4 [Decoded 4 [1; 2]])].

Definition broken_then_error : list read_event :=
  [Frame broken_packet_0; ReadError;
   Frame (mkAVPacket 0 4 [Decoded 4 [1; 2]])].

(** An upstream chain for the encoder adapter whose packets carry the
    end-of-stream flag. *)
Definition ending_upstream (c a b : Z) : Z * option Pkt.audio_packet_t :=
  (c + 1, Some (Pkt.mkPacket [] 0 0 (b - a) Pkt.AUDIO_FLAG_EOF)).

(** The encoder opened at 128 kbps on a stereo chain at 44100 Hz, with a
    LAME that is its settings, frames of 1152 samples and the input rate
    as output rate. *)
Definition demo_open
  : outcome (option (Lame.enc_lame_t Z (LameInit.lame_settings Z)
                     * LameInit.audio_info_t)) :=
  LameInit.init 6 (fun x => x) (fun s => s) (fun _ => 1152)
                (fun s => LameInit.in_samplerate s) (Some 0)
                (LameInit.mkInfo 2 44100 0 0 0 0 (0, 0) 0)
                (Some 128) None None.

End DemoMore.

(** * Properties *)

Arguments Z.mul : simpl never.
Arguments Z.add : simpl never.
Arguments Z.sub : simpl never.
Arguments Z.pow : simpl never.
Arguments Z.quot : simpl never.
Arguments Z.to_nat : simpl never.
Arguments Z.of_nat : simpl never.

(** ** Machine integers *)

Module CIntFacts.

Lemma u64_small x : 0 <= x < 2 ^ 64 -> u64 x = x.
Proof. intros H. unfold u64. now apply Z.mod_small. Qed.

Lemma s64_small x : - 2 ^ 63 <= x < 2 ^ 63 -> s64 x = x.
Proof.
  intros H. unfold s64. rewrite Z.mod_small; lia.
Qed.

Lemma s32_small x : - 2 ^ 31 <= x < 2 ^ 31 -> s32 x = x.
Proof.
  intros H. unfold s32. rewrite Z.mod_small; lia.
Qed.

Lemma u64_range x : 0 <= u64 x < 2 ^ 64.
Proof. unfold u64. apply Z.mod_pos_bound. lia. Qed.

Lemma s64_range x : - 2 ^ 63 <= s64 x < 2 ^ 63.
Proof.
  unfold s64. pose proof (Z.mod_pos_bound (x + 2 ^ 63) (2 ^ 64)). lia.
Qed.

Lemma s64_u64 x : - 2 ^ 63 <= x < 2 ^ 63 -> s64 (u64 x) = x.
Proof.
  intros H. unfold s64, u64.
  rewrite Zplus_mod_idemp_l. rewrite Z.mod_small; lia.
Qed.

Lemma s64_u64_sum a b : s64 (u64 (u64 a + u64 b)) = s64 (a + b).
Proof.
  unfold s64, u64.
  rewrite <- Zplus_mod. rewrite Zplus_mod_idemp_l. reflexivity.
Qed.

End CIntFacts.
Import CIntFacts.

(** ** Memory blocks *)

Module MemFacts.

Lemma zlen_nonneg l : 0 <= zlen l.
Proof. unfold zlen. lia. Qed.

Lemma zlen_app l1 l2 : zlen (l1 ++ l2) = zlen l1 + zlen l2.
Proof. unfold zlen. rewrite length_app. lia. Qed.

Lemma zlen_firstn n l : 0 <= n <= zlen l -> zlen (firstn (Z.to_nat n) l) = n.
Proof. unfold zlen. intros H. rewrite length_firstn. lia. Qed.

Lemma zlen_skipn n l : 0 <= n <= zlen l -> zlen (skipn (Z.to_nat n) l) = zlen l - n.
Proof. unfold zlen. intros H. rewrite length_skipn. lia. Qed.

Lemma zlen_slice blk off n :
  0 <= off -> 0 <= n -> off + n <= zlen blk -> zlen (slice blk off n) = n.
Proof.
  intros Ho Hn Hb. unfold slice. apply zlen_firstn.
  rewrite zlen_skipn; lia.
Qed.

Lemma zlen_memcpy_at dst off u :
  0 <= off -> off + zlen u <= zlen dst ->
  zlen (memcpy_at dst off u (zlen u)) = zlen dst.
Proof.
  intros Ho Hb. pose proof (zlen_nonneg u). unfold memcpy_at.
  rewrite !zlen_app, zlen_firstn, zlen_firstn, zlen_skipn; lia.
Qed.

Lemma slice_memcpy_at dst off u :
  0 <= off -> off + zlen u <= zlen dst ->
  slice (memcpy_at dst off u (zlen u)) 0 (off + zlen u) = slice dst 0 off ++ u.
Proof.
  intros Ho Hb. pose proof (zlen_nonneg u) as Hu.
  unfold slice, memcpy_at. simpl.
  assert (Hl : length (firstn (Z.to_nat off) dst) = Z.to_nat off).
  { rewrite length_firstn. unfold zlen in *. lia. }
  rewrite firstn_app, Hl.
  rewrite firstn_all2 by lia.
  f_equal.
  replace (Z.to_nat (off + zlen u) - Z.to_nat off)%nat with (length u)
    by (unfold zlen; lia).
  rewrite firstn_app.
  replace (Z.to_nat (zlen u)) with (length u) by (unfold zlen; lia).
  rewrite firstn_all, firstn_all, Nat.sub_diag.
  simpl. apply app_nil_r.
Qed.

Lemma zlen_memmove_down dst d :
  0 <= d <= zlen dst -> zlen (memmove_down dst d (zlen dst - d)) = zlen dst.
Proof.
  intros Hd. unfold memmove_down.
  rewrite zlen_app, zlen_firstn, zlen_skipn; try lia.
  rewrite zlen_skipn; lia.
Qed.

Lemma slice_memmove_down dst d k :
  0 <= d -> 0 <= k <= zlen dst - d ->
  slice (memmove_down dst d (zlen dst - d)) 0 k = slice dst d k.
Proof.
  intros Hd Hk. unfold slice, memmove_down. simpl.
  rewrite firstn_app.
  assert (Hl : length (firstn (Z.to_nat (zlen dst - d)) (skipn (Z.to_nat d) dst))
               = Z.to_nat (zlen dst - d)).
  { rewrite length_firstn, length_skipn. unfold zlen in *. lia. }
  rewrite Hl.
  replace (Z.to_nat k - Z.to_nat (zlen dst - d))%nat with 0%nat by lia.
  simpl. rewrite app_nil_r, firstn_firstn.
  f_equal. lia.
Qed.

Lemma slice_shift dst d l :
  0 <= d <= l ->
  slice dst d (l - d) = skipn (Z.to_nat d) (slice dst 0 l).
Proof.
  intros H. unfold slice. simpl. rewrite skipn_firstn_comm.
  f_equal. lia.
Qed.

Lemma slice_slice blk l off n :
  0 <= off -> 0 <= n -> off + n <= l ->
  slice (slice blk 0 l) off n = slice blk off n.
Proof.
  intros Ho Hn Hl. unfold slice. simpl.
  rewrite skipn_firstn_comm, firstn_firstn. f_equal. lia.
Qed.

Lemma slice_skipn blk a off n :
  0 <= a -> 0 <= off ->
  slice (skipn (Z.to_nat a) blk) off n = slice blk (a + off) n.
Proof.
  intros Ha Ho. unfold slice. rewrite skipn_skipn. do 2 f_equal. lia.
Qed.

Lemma slice_app_l P R off n :
  0 <= off -> 0 <= n -> off + n <= zlen P ->
  slice (P ++ R) off n = slice P off n.
Proof.
  intros Ho Hn Hl. unfold slice.
  rewrite skipn_app, firstn_app.
  replace (Z.to_nat n - length (skipn (Z.to_nat off) P))%nat with 0%nat.
  2:{ rewrite length_skipn. unfold zlen in *. lia. }
  simpl. apply app_nil_r.
Qed.

Lemma slice_full blk : slice blk 0 (zlen blk) = blk.
Proof.
  unfold slice, zlen. simpl. rewrite Nat2Z.id. apply firstn_all.
Qed.

Lemma firstn_plus (n k : nat) :
  forall l : list Z, firstn n l ++ firstn k (skipn n l) = firstn (n + k) l.
Proof.
  induction n as [|n IH]; intros l; [reflexivity|].
  destruct l as [|x l]; simpl.
  - now rewrite firstn_nil.
  - now rewrite IH.
Qed.

Lemma slice_join blk a n k :
  0 <= a -> 0 <= n -> 0 <= k ->
  slice blk a n ++ slice blk (a + n) k = slice blk a (n + k).
Proof.
  intros Ha Hn Hk. unfold slice.
  replace (Z.to_nat (a + n)) with (Z.to_nat n + Z.to_nat a)%nat by lia.
  rewrite <- skipn_skipn.
  replace (Z.to_nat (n + k)) with (Z.to_nat n + Z.to_nat k)%nat by lia.
  generalize (skipn (Z.to_nat a) blk) as l. intros l.
  apply firstn_plus.
Qed.

End MemFacts.
Import MemFacts.

(** ** The decode cache *)

Module LavfFacts.

Import Lavf LavfSpec.

(** *** The decoder only moves forward *)

Lemma steps_bytes_nonneg l : 0 <= steps_bytes l.
Proof.
  induction l as [|[|c out] l IH]; simpl; try lia.
  pose proof (zlen_nonneg out). lia.
Qed.

Lemma events_bytes_nonneg l : 0 <= events_bytes l.
Proof.
  induction l as [|[p|] l IH]; simpl; try lia.
  pose proof (steps_bytes_nonneg (steps p)). lia.
Qed.

Lemma next_packet_spec trk l rest r :
  next_packet trk l = (rest, r) ->
  (events_work rest
   + match r with Some p => S (length (steps p)) | None => 0 end
   <= events_work l)%nat
  /\ events_bytes rest
     + match r with Some p => steps_bytes (steps p) | None => 0 end
     <= events_bytes l
  /\ (forall cap, Forall (event_ok cap) l ->
        Forall (event_ok cap) rest
        /\ match r with Some p => Forall (step_ok cap) (steps p) | None => True end).
Proof.
  revert rest r. induction l as [|[p|] l IH]; simpl; intros rest r H.
  - inversion H; subst. simpl. repeat split; auto; lia.
  - destruct (stream_index p =? trk).
    + inversion H; subst. repeat split; try lia;
        inversion H0; subst; auto.
    + destruct (IH _ _ H) as (Hw & Hb & Hc).
      pose proof (steps_bytes_nonneg (steps p)).
      repeat split; try lia; inversion H1; subst; apply Hc; auto.
  - inversion H; subst. pose proof (events_bytes_nonneg rest).
    repeat split; auto; try lia. inversion H1; auto.
Qed.

Lemma advances_refl m : advances m m.
Proof. constructor; auto; lia. Qed.

Lemma advances_trans m1 m2 m3 :
  advances m1 m2 -> advances m2 m3 -> advances m1 m3.
Proof.
  intros [] []. constructor; try congruence; try lia.
  intros cap H1 H2. destruct (adv_steps0 cap H1 H2). auto.
Qed.

Ltac refill_case :=
  match goal with
  | |- context [next_packet ?t ?l] =>
      let E := fresh "E" in
      let rest := fresh "rest" in
      let r := fresh "r" in
      destruct (next_packet t l) as [rest r] eqn:E;
      apply next_packet_spec in E;
      destruct E as (?Hw & ?Hb & ?Hc);
      destruct r as [?p|]
  end.

Ltac adv_tac :=
  constructor; unfold work, pending; simpl in *;
  try reflexivity; try lia;
  try (intros cap H1 H2;
       repeat match goal with
              | Hc : forall c, Forall (event_ok c) _ -> _ |- _ =>
                  specialize (Hc cap H2)
              end;
       try (inversion H1; subst); tauto).

Ltac refill_tac :=
  refill_case;
  (let H := fresh "H" in intros H; inversion H; subst; clear H);
  simpl in *;
  (split; [adv_tac|]);
  first [left; split; [reflexivity|lia] | right; left; reflexivity].

Lemma low_decode_audio_spec m m' n out :
  low_decode_audio m = (m', n, out) ->
  advances m m'
  /\ ((n = 0 /\ (work m' < work m)%nat)
      \/ n = -1
      \/ (0 < n /\ n = zlen out /\ (work m' < work m)%nat
          /\ pending m' + zlen out <= pending m
          /\ forall cap, Forall (step_ok cap) (pkt_temp_steps (st m)) ->
                         2 * zlen out <= cap)).
Proof.
  destruct m as [[tsz tst pk dw wn er] [lv trk buf bsz sur ln bp ss]].
  unfold low_decode_audio, work, pending. simpl.
  destruct (pk && (0 <? tsz)).
  - destruct tst as [|[|c o] more].
    + refill_tac.
    + pose proof (steps_bytes_nonneg more) as Hm. refill_tac.
    + pose proof (zlen_nonneg o) as Ho.
      pose proof (steps_bytes_nonneg more) as Hm.
      destruct (c <? 0).
      * refill_tac.
      * intros H; inversion H; subst; clear H; simpl in *.
        split; [adv_tac|].
        destruct (Z.eq_dec (zlen out) 0) as [E0|E0].
        { left. split; [assumption|lia]. }
        { right. right. repeat split; try lia.
          intros cap H1. inversion H1; subst. simpl in *. lia. }
  - pose proof (steps_bytes_nonneg tst) as Hm. refill_tac.
Qed.

Lemma decode_loop_enough fuel :
  forall m, (work m < fuel)%nat ->
  exists m' r, decode_loop fuel m = Some (m', r)
               /\ advances m m' /\ unit_spec m m' r.
Proof.
  induction fuel as [|f IH]; intros m Hf; [lia|].
  simpl. destruct (low_decode_audio m) as [[m1 n] out] eqn:E.
  apply low_decode_audio_spec in E. destruct E as (Ha & Hn).
  destruct Hn as [(-> & Hw) | [-> | (Hpos & -> & Hw & Hp & Hc)]].
  - simpl. destruct (IH m1 ltac:(lia)) as (m' & r & E' & Ha' & Hu).
    exists m', r. split; [assumption|]. split.
    + eapply advances_trans; eassumption.
    + destruct r as [u|]; unfold unit_spec in *; auto.
      destruct Hu as (H0 & H1 & H2 & H3).
      pose proof (adv_pending _ _ Ha).
      split; [lia|]. split; [lia|]. split; [lia|].
      intros cap Hs He. destruct (adv_steps _ _ Ha cap Hs He).
      apply H3; assumption.
  - simpl. exists m1, None. split; [reflexivity|]. split; [assumption|exact I].
  - replace (zlen out =? 0) with false by (symmetry; apply Z.eqb_neq; lia).
    replace (zlen out <? 0) with false by (symmetry; apply Z.ltb_ge; lia).
    exists m1, (Some out). split; [reflexivity|]. split; [assumption|].
    unfold unit_spec. repeat split; try lia. intros cap Hs _. auto.
Qed.

Lemma decode_next_frame_spec m m' r :
  decode_next_frame m = (m', r) -> advances m m' /\ unit_spec m m' r.
Proof.
  unfold decode_next_frame.
  destruct (decode_loop_enough (S (work m)) m ltac:(lia)) as (m1 & r1 & E & Ha & Hu).
  rewrite E. intros H. inversion H; subst. auto.
Qed.

(** The fuel given to the loop is never used up. *)
Lemma decode_next_frame_total m :
  decode_loop (S (work m)) m <> None.
Proof.
  destruct (decode_loop_enough (S (work m)) m ltac:(lia)) as (m1 & r1 & E & _).
  congruence.
Qed.

(** *** The decoder does not look at the cache *)

Lemma work_retarget m e b l p : work (retarget m e b l p) = work m.
Proof. reflexivity. Qed.

Lemma low_decode_audio_retarget m e b l p :
  low_decode_audio (retarget m e b l p)
  = let '(m', n, out) := low_decode_audio m in (retarget m' e b l p, n, out).
Proof.
  destruct m as [[tsz tst pk dw wn er] [lv trk buf bsz sur ln bp ss]].
  unfold low_decode_audio, retarget. simpl.
  destruct (pk && (0 <? tsz)); [destruct tst as [|[|c o] more]|];
    try destruct (c <? 0);
    try (destruct (next_packet trk lv) as [rest [q|]]); reflexivity.
Qed.

Lemma decode_loop_retarget fuel e b l p :
  forall m,
  decode_loop fuel (retarget m e b l p)
  = match decode_loop fuel m with
    | Some (m', r) => Some (retarget m' e b l p, r)
    | None => None
    end.
Proof.
  induction fuel as [|f IH]; intros m; simpl; [reflexivity|].
  rewrite low_decode_audio_retarget.
  destruct (low_decode_audio m) as [[m1 n] out].
  destruct (n =? 0); [apply IH|].
  destruct (n <? 0); reflexivity.
Qed.

Lemma decode_next_frame_retarget m e b l p :
  decode_next_frame (retarget m e b l p)
  = let '(m', r) := decode_next_frame m in (retarget m' e b l p, r).
Proof.
  unfold decode_next_frame. rewrite work_retarget, decode_loop_retarget.
  destruct (decode_loop (S (work m)) m) as [[m1 r]|] eqn:E; [reflexivity|].
  exfalso. exact (decode_next_frame_total m E).
Qed.

Lemma remaining_retarget m R e b l p :
  remaining m R -> remaining (retarget m e b l p) R.
Proof.
  induction 1 as [m m' E | m m' u R E Hr IH].
  - eapply remaining_end. rewrite decode_next_frame_retarget, E. reflexivity.
  - eapply remaining_unit; [|exact IH].
    rewrite decode_next_frame_retarget, E. reflexivity.
Qed.

Lemma remaining_fun m R1 :
  remaining m R1 -> forall R2, remaining m R2 -> R1 = R2.
Proof.
  induction 1 as [m m' E | m m' u R E Hr IH]; intros R2 H2;
    inversion H2; subst; try congruence.
  assert (m'0 = m' /\ u0 = u) as [-> ->] by (split; congruence).
  f_equal. apply IH. assumption.
Qed.

(** *** One step of the cache *)

Lemma buffer_next_frame_fail m m' :
  buffer_next_frame m = (m', false) -> decode_next_frame m = (m', None).
Proof.
  unfold buffer_next_frame.
  destruct (decode_next_frame m) as [m1 [u|]]; intros H; inversion H.
  reflexivity.
Qed.

Lemma buffer_next_frame_ok m m' :
  wf m -> buffer_next_frame m = (m', true) ->
  exists m1 u,
    decode_next_frame m = (m1, Some u)
    /\ m' = retarget m1 (errored (st m)) (buffer (hnd m')) (len (hnd m'))
                     (bytepos (hnd m'))
    /\ step_spec m m' u.
Proof.
  intros Hwf. unfold buffer_next_frame.
  destruct (decode_next_frame m) as [m1 [u|]] eqn:E; intros H; inversion H.
  clear H. exists m1, u. split; [reflexivity|].
  apply decode_next_frame_spec in E. destruct E as (Ha & Hpos & Hw & Hp & Hc).
  destruct Hwf as [W1 W2 W3 W4 W5 W6 W7 W8 W9].
  specialize (Hc _ W8 W9).
  destruct (adv_steps _ _ Ha _ W8 W9) as [S1 S2].
  destruct Ha as [A1 A2 A3 A4 A5 A6 A7 A8 A9 A10 _].
  destruct m as [s h], m1 as [[tsz tst pk dw wn er] [lv trk buf bsz sur ln bp ss]].
  unfold pending in *. simpl in *. subst.
  pose proof (steps_bytes_nonneg tst) as B1.
  pose proof (events_bytes_nonneg lv) as B2.
  pose proof (steps_bytes_nonneg (pkt_temp_steps s)) as B3.
  pose proof (events_bytes_nonneg (lavf h)) as B4.
  rewrite (s64_small (len h + zlen u)) by lia.
  destruct (bufsize h <? len h + zlen u) eqn:Eb; pose proof Eb as Ev;
    [apply Z.ltb_lt in Ev | apply Z.ltb_ge in Ev];
    unfold set_cache, retarget; simpl.
  - rewrite (s64_small (len h - zlen u)) by lia.
    rewrite (s64_small (len h - zlen u + zlen u)) by lia.
    rewrite (u64_small (bytepos h + zlen u)) by lia.
    split; [reflexivity|].
    assert (Hm : zlen (memmove_down (buffer h) (zlen u) (bufsize h - zlen u))
                 = bufsize h).
    { rewrite <- W5 at 1. rewrite zlen_memmove_down; lia. }
    constructor; simpl; auto; try lia; try (rewrite Eb; lia).
    + replace (bytepos h + zlen u - bytepos h) with (zlen u) by lia.
      rewrite skipn_app.
      replace (Z.to_nat (zlen u) - length (slice (buffer h) 0 (len h)))%nat
        with 0%nat.
      2:{ pose proof (zlen_slice (buffer h) 0 (len h)) as Hs.
          unfold zlen in *. lia. }
      simpl. rewrite <- slice_shift by lia.
      rewrite <- (slice_memmove_down (buffer h) (zlen u) (len h - zlen u))
        by lia.
      rewrite W5.
      rewrite <- slice_memcpy_at by lia.
      reflexivity.
    + constructor; unfold pending; simpl; auto; try lia.
      rewrite zlen_memcpy_at; lia.
  - rewrite (s64_small (len h + zlen u)) by lia.
    split; [reflexivity|].
    constructor; simpl; auto; try lia; try (rewrite Eb; lia).
    + rewrite Z.sub_diag. simpl. apply slice_memcpy_at; lia.
    + constructor; unfold pending; simpl; auto; try lia.
      rewrite zlen_memcpy_at; lia.
Qed.

(** *** What every operation preserves *)

Lemma reach_refl m : wf m -> reach m m.
Proof. intros H. constructor; auto; lia. Qed.

Lemma reach_trans m1 m2 m3 : reach m1 m2 -> reach m2 m3 -> reach m1 m3.
Proof.
  intros [] []. constructor; auto; try congruence; lia.
Qed.

Lemma wf_set_errored m : wf m -> wf (set_errored m).
Proof. intros []. constructor; assumption. Qed.

Lemma skipn_skipn_app (P u : list Z) a b :
  0 <= a -> 0 <= b -> a <= zlen P ->
  skipn (Z.to_nat b) (skipn (Z.to_nat a) P ++ u)
  = skipn (Z.to_nat (a + b)) (P ++ u).
Proof.
  intros Ha Hb Hl.
  replace (Z.to_nat (a + b)) with (Z.to_nat b + Z.to_nat a)%nat by lia.
  rewrite <- skipn_skipn. f_equal.
  rewrite skipn_app.
  replace (Z.to_nat a - length P)%nat with 0%nat by (unfold zlen in *; lia).
  reflexivity.
Qed.

Lemma step_reach m m' :
  wf m -> errored (st m) = false -> buffer_next_frame m = (m', true) ->
  reach m m'.
Proof.
  intros Hwf He Hb.
  destruct (buffer_next_frame_ok _ _ Hwf Hb) as (m1 & u & Ed & Ht & Hs).
  destruct Hs as [[U1 U2] _ (F1 & F2 & F3 & F4 & F5) Hwin Hbytes Hwork Hwf'].
  assert (Hpos : bytepos (hnd m) <= bytepos (hnd m')
                 /\ bytepos (hnd m') + len (hnd m')
                    = bytepos (hnd m) + len (hnd m) + zlen u).
  { destruct (bufsize (hnd m) <? len (hnd m) + zlen u); lia. }
  constructor; auto; try lia; try congruence.
  intros T (P & R & HT & HP & Hsl & HR).
  rewrite He in HR. inversion HR as [m0 m2 E0 | m0 m2 u0 R' E0 Hr']; subst;
    rewrite Ed in E0; inversion E0; subst u0 m2; clear E0.
  exists (P ++ u), R'. rewrite F5, He.
  split; [now rewrite app_assoc|].
  split; [rewrite zlen_app; lia|].
  split.
  - rewrite Hbytes, Hsl.
    pose proof (wf_bytepos _ Hwf). pose proof (wf_len _ Hwf).
    rewrite skipn_skipn_app by lia.
    do 2 f_equal. lia.
  - rewrite Ht. apply remaining_retarget. assumption.
Qed.

Lemma stop_reach m m' :
  wf m -> errored (st m) = false -> buffer_next_frame m = (m', false) ->
  reach m (set_errored m').
Proof.
  intros Hwf He Hb. apply buffer_next_frame_fail in Hb.
  pose proof Hb as Hd.
  apply decode_next_frame_spec in Hb. destruct Hb as ([] & _).
  destruct Hwf as [W1 W2 W3 W4 W5 W6 W7 W8 W9].
  destruct (adv_steps0 _ W8 W9) as [S1 S2].
  constructor; simpl; auto; try lia; try congruence.
  - constructor; simpl; try congruence; try lia.
    unfold pending in *. simpl. lia.
  - intros T (P & R & HT & HP & Hsl & HR).
    rewrite He in HR.
    inversion HR as [m0 m2 E0 | m0 m2 u0 R' E0 Hr']; subst; [|congruence].
    exists P, []. simpl. rewrite adv_buffer0, adv_len0, adv_bytepos0. auto.
Qed.

(** *** [not_in_cache] and [fill_buffer_until] *)

Lemma not_in_cache_eq m x :
  wf m -> 0 <= x * samplesize (hnd m) < 2 ^ 62 ->
  not_in_cache (hnd m) x
  = if x * samplesize (hnd m) <? bytepos (hnd m) then -1
    else if x * samplesize (hnd m) <? bytepos (hnd m) + len (hnd m) then 0
    else 1.
Proof.
  intros [W1 W2 W3 W4 W5 W6 W7 W8 W9] Hx. unfold not_in_cache.
  pose proof (steps_bytes_nonneg (pkt_temp_steps (st m))).
  pose proof (events_bytes_nonneg (lavf (hnd m))).
  unfold pending in W7.
  rewrite (s64_small (x * samplesize (hnd m))) by lia.
  rewrite (u64_small (x * samplesize (hnd m))) by lia.
  rewrite (u64_small (len (hnd m))) by lia.
  rewrite (u64_small (bytepos (hnd m) + len (hnd m))) by lia.
  reflexivity.
Qed.

(** The loop ends, with the sample in the window ([ret = 0]) or with the
    decoder exhausted before it ([ret = 1], [errored] set). *)
Lemma fill_loop_spec x fuel :
  forall m,
  wf m -> errored (st m) = false ->
  0 <= x * samplesize (hnd m) < 2 ^ 62 ->
  bytepos (hnd m) <= x * samplesize (hnd m) ->
  (work m < fuel)%nat ->
  exists m' ret,
    fill_loop fuel m x = Some (m', ret)
    /\ reach m m'
    /\ bytepos (hnd m') <= x * samplesize (hnd m)
    /\ ((ret = 0 /\ errored (st m') = false
         /\ x * samplesize (hnd m) < bytepos (hnd m') + len (hnd m'))
        \/ (ret = 1 /\ errored (st m') = true
            /\ bytepos (hnd m') + len (hnd m') <= x * samplesize (hnd m))).
Proof.
  induction fuel as [|f IH]; intros m Hwf He Hx Hb Hf; [lia|].
  simpl. rewrite (not_in_cache_eq _ _ Hwf Hx).
  destruct (x * samplesize (hnd m) <? bytepos (hnd m)) eqn:E1;
    [apply Z.ltb_lt in E1; lia|].
  destruct (x * samplesize (hnd m) <? bytepos (hnd m) + len (hnd m)) eqn:E2.
  - apply Z.ltb_lt in E2. simpl. exists m, 0.
    split; [reflexivity|]. split; [apply reach_refl; assumption|].
    split; [assumption|]. left. auto.
  - apply Z.ltb_ge in E2. simpl.
    destruct (buffer_next_frame m) as [m1 [|]] eqn:Eb.
    + pose proof (step_reach _ _ Hwf He Eb) as Hr.
      destruct (buffer_next_frame_ok _ _ Hwf Eb) as (m0 & u & _ & _ & Hs).
      destruct Hs as [[U1 U2] _ (F1 & F2 & F3 & F4 & F5) Hwin _ Hwork Hwf'].
      assert (Hb' : bytepos (hnd m1) <= x * samplesize (hnd m)).
      { pose proof (wf_len _ Hwf).
        destruct (bufsize (hnd m) <? len (hnd m) + zlen u) eqn:Ev;
          [apply Z.ltb_lt in Ev|]; lia. }
      destruct (IH m1) as (m' & ret & El & Hr' & Hb'' & Hret);
        try rewrite F4; try assumption; try congruence; try lia.
      exists m', ret. rewrite F4 in *.
      split; [assumption|]. split; [eapply reach_trans; eassumption|].
      split; assumption.
    + pose proof (stop_reach _ _ Hwf He Eb) as Hr.
      apply buffer_next_frame_fail in Eb.
      apply decode_next_frame_spec in Eb. destruct Eb as ([] & _).
      exists (set_errored m1), 1. simpl.
      split; [reflexivity|]. split; [assumption|].
      split; [lia|]. right. repeat split; lia.
Qed.

(** The three ways [fill_buffer_until] comes back: refused ([-1], state
    untouched), sample resident, or decoder exhausted. *)
Lemma fill_buffer_until_spec m x :
  wf m -> 0 <= x * samplesize (hnd m) < 2 ^ 62 ->
  exists m' v,
    fill_buffer_until m x = (m', Ret v)
    /\ reach m m'
    /\ ((v = -1 /\ m' = m
         /\ (errored (st m) = true \/ x * samplesize (hnd m) < bytepos (hnd m)))
        \/ (v = bytepos (hnd m') + len (hnd m')
            /\ errored (st m) = false
            /\ bytepos (hnd m') <= x * samplesize (hnd m)
            /\ ((errored (st m') = false
                 /\ x * samplesize (hnd m) < bytepos (hnd m') + len (hnd m'))
                \/ (errored (st m') = true
                    /\ bytepos (hnd m') + len (hnd m')
                       <= x * samplesize (hnd m))))).
Proof.
  intros Hwf Hx. unfold fill_buffer_until.
  destruct (errored (st m)) eqn:He.
  { exists m, (-1). split; [reflexivity|]. split; [apply reach_refl; auto|].
    left. auto. }
  rewrite (not_in_cache_eq _ _ Hwf Hx).
  destruct (x * samplesize (hnd m) <? bytepos (hnd m)) eqn:E1.
  { apply Z.ltb_lt in E1. simpl. exists m, (-1).
    split; [reflexivity|]. split; [apply reach_refl; auto|]. left. auto. }
  apply Z.ltb_ge in E1.
  replace ((if x * samplesize (hnd m) <? bytepos (hnd m) + len (hnd m)
            then 0 else 1) <? 0) with false
    by (destruct (x * samplesize (hnd m) <? bytepos (hnd m) + len (hnd m));
        reflexivity).
  destruct (fill_loop_spec x (S (work m)) m Hwf He Hx E1 ltac:(lia))
    as (m' & ret & El & Hr & Hb & Hret).
  rewrite El.
  pose proof (reach_wf _ _ Hr) as [W1 W2 W3 W4 W5 W6 W7 W8 W9].
  pose proof (steps_bytes_nonneg (pkt_temp_steps (st m'))).
  pose proof (events_bytes_nonneg (lavf (hnd m'))).
  unfold pending in W7.
  rewrite (u64_small (len (hnd m'))) by lia.
  rewrite (u64_small (bytepos (hnd m') + len (hnd m'))) by lia.
  rewrite (s64_small (bytepos (hnd m') + len (hnd m'))) by lia.
  exists m', (bytepos (hnd m') + len (hnd m')).
  destruct Hret as [(-> & He' & Hin) | (-> & He' & Hout)]; simpl;
    (split; [reflexivity|]); (split; [assumption|]); right;
    (split; [reflexivity|]); (split; [reflexivity|]); (split; [assumption|]);
    [left | right]; split; assumption.
Qed.

(** *** The two branches of [get_samples] *)

Import Pkt.

Lemma get_samples_rec_unfold f m first_sample last_sample :
  get_samples_rec (S f) m first_sample last_sample
  = if negb ((0 <=? first_sample) && (first_sample <? last_sample))
    then (m, AssertFail)
    else
      bind_fill (fill_buffer_until m first_sample) (fun m0 avail =>
      if avail <? 0 then (m0, Ret None)
      else
        let h := hnd m0 in
        let size0 := s64 ((last_sample - first_sample) * samplesize h) in
        if bufsize h <? s64 (size0 + surplus h) then
          split_branch (get_samples_rec f) m0 first_sample last_sample
            (pivot_of h first_sample)
            (s64 ((pivot_of h first_sample - first_sample) * samplesize h))
        else direct_branch m0 first_sample last_sample size0).
Proof. reflexivity. Qed.

Lemma served_zlen T ss a b p :
  0 <= a * ss -> a * ss < b * ss -> served T ss a b p ->
  zlen (data p) = size p.
Proof.
  intros Ha Hb [H1 H2 H3]. rewrite H3. apply zlen_slice; lia.
Qed.

Lemma cache_read T m start n :
  wf m -> coherent T m ->
  0 <= start -> 0 <= n -> start + n <= len (hnd m) ->
  slice (buffer (hnd m)) start n = slice T (bytepos (hnd m) + start) n.
Proof.
  intros Hwf (P & R & -> & HP & Hsl & _) Hs Hn Hl.
  pose proof (wf_bytepos _ Hwf).
  rewrite <- (slice_slice _ (len (hnd m))) by lia.
  rewrite Hsl, slice_skipn by lia.
  symmetry. apply slice_app_l; lia.
Qed.

Lemma coherent_zlen T m :
  coherent T m -> bytepos (hnd m) + len (hnd m) <= zlen T.
Proof.
  intros (P & R & -> & HP & _). rewrite zlen_app.
  pose proof (zlen_nonneg R). lia.
Qed.

Lemma coherent_errored T m :
  coherent T m -> errored (st m) = true ->
  zlen T = bytepos (hnd m) + len (hnd m).
Proof.
  intros (P & R & -> & HP & _ & HR) He. rewrite He in HR. subst R.
  rewrite app_nil_r. assumption.
Qed.

Lemma direct_branch_spec T m0 a b :
  wf m0 -> coherent T m0 ->
  0 <= a < b -> b * samplesize (hnd m0) < 2 ^ 62 ->
  (b - a) * samplesize (hnd m0) + surplus (hnd m0) <= bufsize (hnd m0) ->
  (errored (st m0) = true
   \/ bytepos (hnd m0) <= a * samplesize (hnd m0)
      < bytepos (hnd m0) + len (hnd m0)) ->
  exists m1 r,
    direct_branch m0 a b ((b - a) * samplesize (hnd m0)) = (m1, r)
    /\ reach m0 m1
    /\ result_ok T (samplesize (hnd m0)) a b r.
Proof.
  intros Hwf Hco Hab Hb Hfit Hwin.
  pose proof (wf_samplesize _ Hwf) as Hss.
  assert (Hbpos : 0 <= b * samplesize (hnd m0) < 2 ^ 62) by nia.
  destruct (fill_buffer_until_spec m0 b Hwf Hbpos)
    as (m1 & v & E & Hr & Hcase).
  unfold direct_branch. rewrite E. simpl.
  destruct Hcase as [(-> & -> & _) | (-> & He0 & Hbp & Hcase)].
  { exists m0, (Ret None). simpl. auto. }
  pose proof (reach_wf _ _ Hr) as Hwf1.
  pose proof (reach_coherent _ _ Hr T Hco) as Hco1.
  pose proof (coherent_zlen _ _ Hco1) as HT.
  destruct Hwin as [Hwin|Hwin]; [congruence|].
  pose proof (reach_end _ _ Hr) as Hend.
  pose proof (reach_bytepos _ _ Hr) as Hbp1.
  pose proof (reach_bufsize _ _ Hr) as Hbs.
  rewrite (reach_samplesize _ _ Hr).
  destruct Hwf1 as [W1 W2 W3 W4 W5 W6 W7 W8 W9].
  pose proof (steps_bytes_nonneg (pkt_temp_steps (st m1))).
  pose proof (events_bytes_nonneg (lavf (hnd m1))).
  unfold pending in W7.
  set (ss := samplesize (hnd m0)) in *.
  set (bp := bytepos (hnd m1)) in *.
  set (ln := len (hnd m1)) in *.
  assert (Ha : 0 <= a * ss < b * ss) by nia.
  replace (bp + ln <? 0) with false by (symmetry; apply Z.ltb_ge; lia).
  rewrite (s64_small (a * ss)) by lia.
  rewrite (s64_u64 (a * ss - bp)) by lia.
  rewrite (s64_small (b * ss)) by lia.
  assert (Hread : forall n, 0 <= a * ss - bp -> 0 <= n ->
            a * ss - bp + n <= ln ->
            slice (buffer (hnd m1)) (a * ss - bp) n = slice T (a * ss) n).
  { intros n H1 H2 H3.
    rewrite (cache_read T m1) by (try assumption; try constructor; auto; lia).
    f_equal. fold bp. lia. }
  exists m1.
  destruct (bp + ln <? b * ss) eqn:Elt;
    [apply Z.ltb_lt in Elt | apply Z.ltb_ge in Elt].
  - (* the decoder ran dry before the last sample *)
    destruct Hcase as [(_ & Hin) | (He1 & _)]; [lia|].
    pose proof (coherent_errored _ _ Hco1 He1) as HTe. fold bp ln in HTe.
    replace (bp + ln - bp - (a * ss - bp)) with (bp + ln - a * ss) by lia.
    rewrite (s64_u64 (bp + ln - a * ss)) by lia.
    rewrite (s64_small (a * ss - bp + (bp + ln - a * ss))) by lia.
    replace (a * ss - bp + (bp + ln - a * ss) <=? bufsize (hnd m1)) with true
      by (symmetry; apply Z.leb_le; lia).
    replace (bp + ln - a * ss <? 0) with false
      by (symmetry; apply Z.ltb_ge; lia).
    simpl. rewrite orb_false_r.
    destruct (a * ss - bp <? 0) eqn:Es;
      [apply Z.ltb_lt in Es | apply Z.ltb_ge in Es].
    + eexists. split; [reflexivity|]. split; [assumption|exact I].
    + eexists. split; [reflexivity|]. split; [assumption|].
      simpl. constructor; simpl; try lia.
      apply Hread; lia.
  - (* the last sample is there *)
    assert (HTb : b * ss <= zlen T).
    { destruct Hcase as [(_ & Hin) | (He1 & Hout)]; [lia|].
      pose proof (coherent_errored _ _ Hco1 He1) as HTe. fold bp ln in HTe.
      lia. }
    rewrite (s64_small (a * ss - bp + (b - a) * ss)) by lia.
    replace (a * ss - bp + (b - a) * ss <=? bufsize (hnd m1)) with true
      by (symmetry; apply Z.leb_le; lia).
    replace ((b - a) * ss <? 0) with false
      by (symmetry; apply Z.ltb_ge; lia).
    simpl. rewrite orb_false_r.
    destruct (a * ss - bp <? 0) eqn:Es;
      [apply Z.ltb_lt in Es | apply Z.ltb_ge in Es].
    + eexists. split; [reflexivity|]. split; [assumption|exact I].
    + eexists. split; [reflexivity|]. split; [assumption|].
      simpl. constructor; simpl; try lia.
      apply Hread; lia.
Qed.

(** Where the pivot falls for a request that does not fit. *)
Lemma pivot_bounds m a b :
  wf m -> 0 <= a < b -> b * samplesize (hnd m) < 2 ^ 62 ->
  bufsize (hnd m) < (b - a) * samplesize (hnd m) + surplus (hnd m) ->
  let q := Z.quot (bufsize (hnd m) - 2 * surplus (hnd m)) (samplesize (hnd m)) in
  pivot_of (hnd m) a = a + q
  /\ 1 <= q < b - a
  /\ q * samplesize (hnd m) <= bufsize (hnd m) - 2 * surplus (hnd m)
     < q * samplesize (hnd m) + samplesize (hnd m).
Proof.
  intros [W1 W2 W3 W4 W5 W6 W7 W8 W9] Hab Hb Hsplit q.
  pose proof (steps_bytes_nonneg (pkt_temp_steps (st m))).
  pose proof (events_bytes_nonneg (lavf (hnd m))).
  unfold pending in W7.
  set (ss := samplesize (hnd m)) in *.
  set (room := bufsize (hnd m) - 2 * surplus (hnd m)) in *.
  assert (Hq : q = room / ss) by (apply Z.quot_div_nonneg; lia).
  assert (Hle : ss * (room / ss) <= room) by (apply Z.mul_div_le; lia).
  assert (Hlt : room < ss * Z.succ (room / ss))
    by (apply Z.mul_succ_div_gt; lia).
  assert (Hq1 : 0 < room / ss) by (apply Z.div_str_pos; lia).
  assert (Hq2 : q < b - a) by nia.
  unfold pivot_of.
  rewrite (s64_small (surplus (hnd m) * 2)) by lia.
  rewrite (s64_small (bufsize (hnd m) - surplus (hnd m) * 2)) by lia.
  replace (bufsize (hnd m) - surplus (hnd m) * 2) with room
    by (unfold room; lia).
  fold ss. fold q.
  rewrite (s64_small (a + q)) by nia.
  split; [reflexivity|]. split; [lia|]. nia.
Qed.

Lemma split_branch_spec T rec1 rec2 m0 a b :
  good_rec T rec1 rec2 (b - a) ->
  wf m0 -> coherent T m0 ->
  0 <= a < b -> b * samplesize (hnd m0) < 2 ^ 62 ->
  bufsize (hnd m0) < (b - a) * samplesize (hnd m0) + surplus (hnd m0) ->
  let pivot := pivot_of (hnd m0) a in
  let expected := s64 ((pivot - a) * samplesize (hnd m0)) in
  exists m' r,
    split_branch rec1 m0 a b pivot expected = (m', r)
    /\ split_branch rec2 m0 a b pivot expected = (m', r)
    /\ reach m0 m'
    /\ result_ok T (samplesize (hnd m0)) a b r.
Proof.
  intros Hrec Hwf Hco Hab Hb Hsplit pivot expected.
  destruct (pivot_bounds m0 a b Hwf Hab Hb Hsplit) as (Hp & Hq & Hroom).
  fold pivot in Hp.
  set (ss := samplesize (hnd m0)) in *.
  set (q := Z.quot (bufsize (hnd m0) - 2 * surplus (hnd m0)) ss) in *.
  pose proof (wf_samplesize _ Hwf) as Hss. fold ss in Hss.
  assert (He : expected = q * ss).
  { unfold expected. rewrite Hp.
    replace (a + q - a) with q by lia. apply s64_small. nia. }
  assert (Hps : pivot * ss = a * ss + q * ss) by (rewrite Hp; lia).
  assert (Hpb : pivot * ss < b * ss) by nia.
  assert (Hqs : 0 < q * ss) by nia.
  destruct (Hrec m0 a pivot Hwf Hco) as (m1 & r1 & E1 & E1' & Hr1 & Hok1);
    [lia | fold ss; nia | lia |].
  unfold split_branch. rewrite E1, E1'. fold ss in Hok1.
  destruct r1 as [[prev|] | | |]; simpl in Hok1; try contradiction.
  2:{ exists m1, (Ret None). simpl. auto. }
  2:{ exists m1, Undefined. simpl. auto. }
  destruct Hok1 as [P1 P2 P3].
  rewrite He.
  destruct (size prev <? q * ss) eqn:Elt;
    [apply Z.ltb_lt in Elt | apply Z.ltb_ge in Elt].
  - eexists _, _. split; [reflexivity|]. split; [reflexivity|].
    split; [assumption|]. simpl.
    constructor; simpl; try assumption. lia.
  - assert (Hsz : size prev = q * ss) by lia.
    replace (size prev =? q * ss) with true by (symmetry; apply Z.eqb_eq; lia).
    simpl.
    pose proof (reach_wf _ _ Hr1) as Hwf1.
    pose proof (reach_coherent _ _ Hr1 T Hco) as Hco1.
    pose proof (reach_samplesize _ _ Hr1) as Hss1. fold ss in Hss1.
    destruct (Hrec m1 pivot b Hwf1 Hco1) as (m2 & r2 & E2 & E2' & Hr2 & Hok2);
      [lia | rewrite Hss1; lia | lia |].
    rewrite E2, E2'. rewrite Hss1 in Hok2.
    assert (Hr : reach m0 m2) by (eapply reach_trans; eassumption).
    destruct r2 as [[next|] | | |]; simpl in Hok2; try contradiction.
    2:{ exists m2, (Ret None). simpl. auto. }
    2:{ exists m2, Undefined. simpl. auto. }
    destruct Hok2 as [N1 N2 N3].
    eexists _, _. split; [reflexivity|]. split; [reflexivity|].
    split; [assumption|]. simpl.
    assert (Hzp : zlen (data prev) = size prev)
      by (rewrite P3; apply zlen_slice; lia).
    assert (Hzn : zlen (data next) = size next)
      by (rewrite N3; apply zlen_slice; lia).
    rewrite (s64_small (size prev + size next)) by lia.
    assert (Hfp : slice (data prev) 0 (size prev) = data prev)
      by (rewrite <- Hzp; apply slice_full).
    assert (Hfn : slice (data next) 0 (size next) = data next)
      by (rewrite <- Hzn; apply slice_full).
    constructor; simpl; try lia.
    rewrite Hfp, Hfn, P3, N3, Hsz, Hps.
    apply slice_join; lia.
Qed.

(** *** [get_samples] serves the decoded stream *)

Lemma get_samples_rec_good T fuel :
  good_rec T (get_samples_rec fuel) (get_samples_rec (S fuel))
           (Z.of_nat fuel + 1).
Proof.
  induction fuel as [|f IH]; intros m a b Hwf Hco Hab Hb Hfuel; [lia|].
  rewrite !get_samples_rec_unfold.
  replace ((0 <=? a) && (a <? b)) with true
    by (symmetry; apply andb_true_iff; split;
        [apply Z.leb_le | apply Z.ltb_lt]; lia).
  simpl negb. cbv iota.
  pose proof (wf_samplesize _ Hwf) as Hss.
  assert (Ha : 0 <= a * samplesize (hnd m) < 2 ^ 62) by nia.
  destruct (fill_buffer_until_spec m a Hwf Ha) as (m0 & v & E & Hr & Hcase).
  rewrite E. unfold bind_fill at 1 2.
  destruct Hcase as [(-> & -> & _) | (-> & He0 & Hbp & Hcase)].
  { exists m, (Ret None). simpl. auto. }
  pose proof (reach_wf _ _ Hr) as Hwf0.
  pose proof (reach_coherent _ _ Hr T Hco) as Hco0.
  pose proof (reach_samplesize _ _ Hr) as Hss0.
  pose proof (wf_len _ Hwf0) as Hlen0.
  pose proof (wf_bytepos _ Hwf0) as Hbp0.
  replace (bytepos (hnd m0) + len (hnd m0) <? 0) with false
    by (symmetry; apply Z.ltb_ge; lia).
  cbv zeta.
  pose proof Hwf0 as Hwf0'.
  destruct Hwf0' as [W1 W2 W3 W4 W5 W6 W7 W8 W9].
  pose proof (steps_bytes_nonneg (pkt_temp_steps (st m0))).
  pose proof (events_bytes_nonneg (lavf (hnd m0))).
  unfold pending in W7.
  rewrite Hss0 in *.
  rewrite (s64_small ((b - a) * samplesize (hnd m))) by nia.
  rewrite (s64_small ((b - a) * samplesize (hnd m) + surplus (hnd m0))) by nia.
  destruct (bufsize (hnd m0)
            <? (b - a) * samplesize (hnd m) + surplus (hnd m0)) eqn:Esp;
    [apply Z.ltb_lt in Esp | apply Z.ltb_ge in Esp].
  - assert (Hrec : good_rec T (get_samples_rec f) (get_samples_rec (S f)) (b - a)).
    { intros m' a' b' H1 H2 H3 H4 H5. apply IH; auto. lia. }
    destruct (split_branch_spec T _ _ m0 a b Hrec Hwf0 Hco0 Hab)
      as (m' & r & E1 & E2 & Hr' & Hok); rewrite ?Hss0; try assumption.
    rewrite Hss0 in *.
    exists m', r. split; [exact E1|]. split; [exact E2|].
    split; [eapply reach_trans; eassumption | assumption].
  - destruct (direct_branch_spec T m0 a b Hwf0 Hco0 Hab)
      as (m' & r & E1 & Hr' & Hok); rewrite ?Hss0; try assumption.
    { destruct Hcase as [(He & Hin) | (He & _)]; [right; lia | left; assumption]. }
    rewrite Hss0 in *.
    exists m', r. split; [exact E1|]. split; [exact E1|].
    split; [eapply reach_trans; eassumption | assumption].
Qed.

Lemma get_samples_rec_fuel T m a b :
  wf m -> coherent T m -> 0 <= a < b -> b * samplesize (hnd m) < 2 ^ 62 ->
  forall k,
    get_samples_rec (Z.to_nat (b - a) + k) m a b = get_samples m a b.
Proof.
  intros Hwf Hco Hab Hb k. unfold get_samples.
  induction k as [|k IH]; [now rewrite Nat.add_0_r|].
  rewrite <- IH.
  destruct (get_samples_rec_good T (Z.to_nat (b - a) + k) m a b)
    as (m' & r & E1 & E2 & _); try assumption; try lia.
  rewrite Nat.add_succ_r. congruence.
Qed.

Lemma get_samples_spec T m a b :
  wf m -> coherent T m -> 0 <= a < b -> b * samplesize (hnd m) < 2 ^ 62 ->
  exists m' r,
    get_samples m a b = (m', r)
    /\ reach m m' /\ result_ok T (samplesize (hnd m)) a b r.
Proof.
  intros Hwf Hco Hab Hb.
  destruct (get_samples_rec_good T (Z.to_nat (b - a)) m a b)
    as (m' & r & E1 & _ & Hr & Hok); try assumption; try lia.
  exists m', r. auto.
Qed.

(** *** Every handle has a decoded stream *)

Lemma remaining_exists_aux n :
  forall m, (work m < n)%nat -> exists R, remaining m R.
Proof.
  induction n as [|n IH]; intros m Hn; [lia|].
  destruct (decode_next_frame m) as [m' [u|]] eqn:E.
  - pose proof (decode_next_frame_spec _ _ _ E) as (_ & _ & Hw & _).
    destruct (IH m' ltac:(lia)) as (R & HR).
    exists (u ++ R). eapply remaining_unit; eassumption.
  - exists []. eapply remaining_end; eassumption.
Qed.

Lemma remaining_exists m : exists R, remaining m R.
Proof. apply (remaining_exists_aux (S (work m))). lia. Qed.

Lemma coherent_exists m : wf m -> exists T, coherent T m.
Proof.
  intros Hwf.
  pose proof (wf_bytepos _ Hwf) as Hb. pose proof (wf_len _ Hwf) as Hl.
  pose proof (wf_buffer _ Hwf) as Hz.
  set (P := repeat 0 (Z.to_nat (bytepos (hnd m)))
            ++ slice (buffer (hnd m)) 0 (len (hnd m))).
  assert (HP : zlen P = bytepos (hnd m) + len (hnd m)).
  { unfold P. rewrite zlen_app, zlen_slice by lia.
    unfold zlen. rewrite repeat_length. lia. }
  assert (Hs : slice (buffer (hnd m)) 0 (len (hnd m))
               = skipn (Z.to_nat (bytepos (hnd m))) P).
  { unfold P. rewrite skipn_app, repeat_length, Nat.sub_diag.
    rewrite skipn_all2 by (rewrite repeat_length; lia). reflexivity. }
  destruct (errored (st m)) eqn:He.
  - exists P, P, []. rewrite He, app_nil_r. auto.
  - destruct (remaining_exists m) as (R & HR).
    exists (P ++ R), P, R. rewrite He. auto.
Qed.

(** *** The window never moves back *)

Lemma keeps_refl m : wf m -> keeps m m.
Proof. intros H. constructor; auto; lia. Qed.

Lemma keeps_trans m1 m2 m3 : keeps m1 m2 -> keeps m2 m3 -> keeps m1 m3.
Proof. intros [] []. constructor; auto; try congruence; lia. Qed.

Lemma advances_wf m m' : wf m -> advances m m' -> wf m'.
Proof.
  intros [W1 W2 W3 W4 W5 W6 W7 W8 W9] [].
  destruct (adv_steps0 _ W8 W9) as [S1 S2].
  constructor;
    rewrite ?adv_buffer0, ?adv_bufsize0, ?adv_samplesize0, ?adv_surplus0,
            ?adv_len0, ?adv_bytepos0;
    try assumption; lia.
Qed.

Lemma buffer_next_frame_fixed m m' ok :
  buffer_next_frame m = (m', ok) ->
  samplesize (hnd m') = samplesize (hnd m)
  /\ surplus (hnd m') = surplus (hnd m)
  /\ (work m' <= work m)%nat
  /\ (ok = true -> (work m' < work m)%nat).
Proof.
  unfold buffer_next_frame.
  destruct (decode_next_frame m) as [m1 r] eqn:E.
  apply decode_next_frame_spec in E. destruct E as ([] & Hu).
  destruct r as [u|]; intros H; inversion H; subst; clear H.
  - destruct Hu as (_ & Hw & _).
    unfold work in *.
    destruct (bufsize (hnd m1) <? s64 (len (hnd m1) + zlen u)); simpl;
      repeat split; try assumption; try lia.
  - repeat split; try assumption. discriminate.
Qed.

(** The block operations of [buffer_next_frame] stay inside the buffer. *)
Lemma buffer_next_frame_in_bounds m m1 u :
  wf m -> decode_next_frame m = (m1, Some u) ->
  let d := zlen u in
  0 < d <= bufsize (hnd m)
  /\ (bufsize (hnd m) < len (hnd m) + d ->
      0 <= len (hnd m) - d /\ len (hnd m) - d + d <= bufsize (hnd m))
  /\ (len (hnd m) + d <= bufsize (hnd m) -> 0 <= len (hnd m)).
Proof.
  intros Hwf E d. apply decode_next_frame_spec in E.
  destruct E as (_ & Hpos & _ & _ & Hc).
  specialize (Hc _ (wf_steps _ Hwf) (wf_events _ Hwf)). fold d in Hpos, Hc.
  pose proof (wf_len _ Hwf). lia.
Qed.

Lemma buffer_next_frame_keeps m m' ok :
  wf m -> buffer_next_frame m = (m', ok) -> keeps m m'.
Proof.
  intros Hwf Hb. destruct ok.
  - destruct (buffer_next_frame_ok _ _ Hwf Hb) as (m1 & u & _ & _ & Hs).
    destruct Hs as [[U1 U2] _ (F1 & F2 & _) Hwin _ _ Hwf'].
    constructor; auto.
    destruct (bufsize (hnd m) <? len (hnd m) + zlen u); lia.
  - apply buffer_next_frame_fail in Hb.
    apply decode_next_frame_spec in Hb. destruct Hb as (Ha & _).
    pose proof (advances_wf _ _ Hwf Ha).
    destruct Ha. constructor; auto; lia.
Qed.

(** [init] hands out well-formed handles: the decoder writes at most
    [AVCODEC_MAX_AUDIO_FRAME_SIZE] bytes per unit, and the buffer is
    twice that. *)
Lemma init_wf s streams events trk s' h :
  init s streams events trk = (s', Ret (Some h)) ->
  Forall (step_ok DEFAULT_BUFSIZE) (pkt_temp_steps s) ->
  Forall (event_ok DEFAULT_BUFSIZE) events ->
  steps_bytes (pkt_temp_steps s) + events_bytes events < 2 ^ 61 ->
  0 < samplesize h -> 0 <= surplus h ->
  samplesize h <= DEFAULT_BUFSIZE - 2 * surplus h ->
  wf (mkMachine s' h).
Proof.
  unfold init.
  assert (Hbig : DEFAULT_BUFSIZE = 384000) by reflexivity.
  remember DEFAULT_BUFSIZE as cap eqn:Hcap. clear Hcap.
  remember (repeat 0 (Z.to_nat cap)) as buf eqn:Hbuf.
  assert (Hzb : zlen buf = cap).
  { rewrite Hbuf. unfold zlen. rewrite repeat_length. lia. }
  clear Hbuf.
  intros H Hs He Hp.
  destruct (select_track streams trk) as [tid|]; [|discriminate].
  destruct (nth_error streams (Z.to_nat tid)) as [ctx|]; [|discriminate].
  match type of H with (if negb ?c then _ else _) = _ => destruct c end;
    [|discriminate].
  cbv beta iota zeta delta [negb] in H.
  match type of H with
  | context [buffer_next_frame ?m] =>
      remember m as m0 eqn:Hm0;
      destruct (buffer_next_frame m0) as [m1 ok] eqn:Eb
  end.
  destruct ok; [|discriminate]. inversion H; subst s' h. clear H.
  intros Hss Hsur Hroom.
  destruct (buffer_next_frame_fixed _ _ _ Eb) as (F1 & F2 & _).
  assert (Hwf0 : wf m0).
  { rewrite F1 in Hss, Hroom. rewrite F2 in Hsur, Hroom.
    rewrite Hm0 in Hss, Hsur, Hroom |- *.
    constructor;
      cbn [hnd st samplesize surplus bufsize len bytepos buffer lavf].
    - exact Hss.
    - exact Hsur.
    - exact Hroom.
    - lia.
    - exact Hzb.
    - lia.
    - unfold pending.
      cbn [hnd st samplesize surplus bufsize len bytepos buffer lavf]. lia.
    - exact Hs.
    - exact He. }
  destruct m1 as [s1 h1].
  exact (keeps_wf _ _ (buffer_next_frame_keeps _ _ _ Hwf0 Eb)).
Qed.

Lemma fill_loop_keeps x fuel :
  forall m m' ret,
    wf m -> fill_loop fuel m x = Some (m', ret) -> keeps m m'.
Proof.
  induction fuel as [|f IH]; intros m m' ret Hwf H; simpl in H; [discriminate|].
  destruct (0 <? not_in_cache (hnd m) x).
  - destruct (buffer_next_frame m) as [m1 ok] eqn:Eb.
    pose proof (buffer_next_frame_keeps _ _ _ Hwf Eb) as Hk.
    destruct ok.
    + eapply keeps_trans; [exact Hk|]. eapply IH; [apply Hk | exact H].
    + inversion H; subst. destruct Hk.
      constructor; simpl; auto. apply wf_set_errored. assumption.
  - inversion H; subst. apply keeps_refl. assumption.
Qed.

(** The fuel [fill_buffer_until] gives its loop is never used up: every
    round that goes on has decoded a unit. *)
Lemma fill_loop_total x fuel :
  forall m, (work m < fuel)%nat -> fill_loop fuel m x <> None.
Proof.
  induction fuel as [|f IH]; intros m Hf; [lia|].
  simpl. destruct (0 <? not_in_cache (hnd m) x); [|discriminate].
  destruct (buffer_next_frame m) as [m1 ok] eqn:Eb.
  destruct (buffer_next_frame_fixed _ _ _ Eb) as (_ & _ & _ & Hw).
  destruct ok; [|discriminate].
  apply IH. specialize (Hw eq_refl). lia.
Qed.

Lemma fill_buffer_until_keeps m x m' r :
  wf m -> fill_buffer_until m x = (m', r) -> keeps m m'.
Proof.
  intros Hwf. unfold fill_buffer_until.
  destruct (errored (st m)).
  { intros H; inversion H; subst. apply keeps_refl; assumption. }
  destruct (not_in_cache (hnd m) x <? 0).
  { intros H; inversion H; subst. apply keeps_refl; assumption. }
  destruct (fill_loop (S (work m)) m x) as [[m1 ret]|] eqn:El.
  - pose proof (fill_loop_keeps _ _ _ _ _ Hwf El) as Hk.
    destruct (0 <=? ret); intros H; inversion H; subst; assumption.
  - intros H; inversion H; subst. apply keeps_refl; assumption.
Qed.

Lemma direct_branch_keeps m0 a b sz m' r :
  wf m0 -> direct_branch m0 a b sz = (m', r) -> keeps m0 m'.
Proof.
  intros Hwf. unfold direct_branch.
  destruct (fill_buffer_until m0 b) as [m1 o] eqn:E.
  pose proof (fill_buffer_until_keeps _ _ _ _ Hwf E) as Hk.
  destruct o as [v| | |]; simpl;
    try (intros H; inversion H; subst; assumption).
  destruct (v <? 0); [intros H; inversion H; subst; assumption|].
  destruct (v <? s64 (b * samplesize (hnd m0)));
    match goal with
    | |- context [negb ?c] => destruct c
    end; simpl;
    try match goal with
        | |- context [(?x <? 0) || (?y <? 0)] =>
            destruct ((x <? 0) || (y <? 0))
        end;
    intros H; inversion H; subst; assumption.
Qed.

Lemma get_samples_rec_keeps fuel :
  forall m a b m' r,
    wf m -> get_samples_rec fuel m a b = (m', r) -> keeps m m'.
Proof.
  induction fuel as [|f IH]; intros m a b m' r Hwf.
  - simpl. destruct (negb ((0 <=? a) && (a <? b)));
      intros H; inversion H; subst; apply keeps_refl; assumption.
  - rewrite get_samples_rec_unfold.
    destruct (negb ((0 <=? a) && (a <? b))).
    { intros H; inversion H; subst; apply keeps_refl; assumption. }
    destruct (fill_buffer_until m a) as [m0 o] eqn:E.
    pose proof (fill_buffer_until_keeps _ _ _ _ Hwf E) as Hk.
    destruct o as [v| | |]; simpl;
      try (intros H; inversion H; subst; assumption).
    destruct (v <? 0); [intros H; inversion H; subst; assumption|].
    match goal with |- context [if ?c then split_branch _ _ _ _ _ _ else _] =>
      destruct c end.
    + unfold split_branch.
      destruct (get_samples_rec f m0 a (pivot_of (hnd m0) a))
        as [m1 o1] eqn:E1.
      pose proof (IH _ _ _ _ _ (keeps_wf _ _ Hk) E1) as Hk1.
      assert (Hk01 : keeps m m1) by (eapply keeps_trans; eassumption).
      destruct o1 as [[prev|] | | |];
        try (intros H; inversion H; subst; assumption).
      destruct (size prev <? _);
        [intros H; inversion H; subst; assumption|].
      destruct (negb (size prev =? _));
        [intros H; inversion H; subst; assumption|].
      destruct (get_samples_rec f m1 (pivot_of (hnd m0) a) b)
        as [m2 o2] eqn:E2.
      pose proof (IH _ _ _ _ _ (keeps_wf _ _ Hk1) E2) as Hk2.
      assert (Hk02 : keeps m m2) by (eapply keeps_trans; eassumption).
      destruct o2 as [[next|] | | |];
        intros H; inversion H; subst; assumption.
    + intros H. apply direct_branch_keeps in H; [|apply Hk].
      eapply keeps_trans; eassumption.
Qed.

(** No path of [get_samples] writes the timestamp of the packet it
    allocates. *)
Lemma direct_branch_dts m0 a b sz m' p :
  direct_branch m0 a b sz = (m', Ret (Some p)) -> dts p = 0.
Proof.
  unfold direct_branch.
  destruct (fill_buffer_until m0 b) as [m1 [v| | |]]; simpl;
    try discriminate.
  destruct (v <? 0); [discriminate|].
  destruct (v <? s64 (b * samplesize (hnd m0)));
    match goal with
    | |- context [negb ?c] => destruct c
    end; simpl; try discriminate;
    match goal with
    | |- context [(?x <? 0) || (?y <? 0)] =>
        destruct ((x <? 0) || (y <? 0))
    end; try discriminate;
    intros H; inversion H; reflexivity.
Qed.

Lemma get_samples_rec_dts fuel :
  forall m a b m' p,
    get_samples_rec fuel m a b = (m', Ret (Some p)) -> dts p = 0.
Proof.
  induction fuel as [|f IH]; intros m a b m' p.
  - simpl. destruct (negb ((0 <=? a) && (a <? b))); discriminate.
  - rewrite get_samples_rec_unfold.
    destruct (negb ((0 <=? a) && (a <? b))); [discriminate|].
    destruct (fill_buffer_until m a) as [m0 [v| | |]]; simpl;
      try discriminate.
    destruct (v <? 0); [discriminate|].
    match goal with |- context [if ?c then split_branch _ _ _ _ _ _ else _] =>
      destruct c end.
    + unfold split_branch.
      destruct (get_samples_rec f m0 a (pivot_of (hnd m0) a))
        as [m1 [[prev|] | | |]] eqn:E1; try discriminate.
      apply IH in E1.
      destruct (size prev <? _).
      { intros H; inversion H; subst. simpl. assumption. }
      destruct (negb (size prev =? _)); [discriminate|].
      destruct (get_samples_rec f m1 (pivot_of (hnd m0) a) b)
        as [m2 [[next|] | | |]]; try discriminate.
      intros H; inversion H; reflexivity.
    + apply direct_branch_dts.
Qed.

End LavfFacts.

(** ** The decode cache: the specified properties *)

Module LavfClaims.

Import Lavf Pkt LavfSpec LavfFacts.

(** C1 (split correctness).  On one handle, when the
    request [a, c) and the requests [a, b) then [b, c) all come back with
    a packet, the payload of the first is the payload of [a, b) followed
    by the payload of [b, c), and so are the sizes; whether the ranges
    fit the buffer or are split makes no difference. *)
Theorem get_samples_split_correct m a b c m1 m2 m3 p_ab p_bc p_ac :
  wf m ->
  0 <= a < b -> b < c -> c * samplesize (hnd m) < 2 ^ 62 ->
  get_samples m a c = (m3, Ret (Some p_ac)) ->
  get_samples m a b = (m1, Ret (Some p_ab)) ->
  get_samples m1 b c = (m2, Ret (Some p_bc)) ->
  data p_ac = data p_ab ++ data p_bc
  /\ size p_ac = size p_ab + size p_bc.
Proof.
  intros Hwf Hab Hbc Hc Eac Eab Ebc.
  destruct (coherent_exists m Hwf) as (T & Hco).
  pose proof (wf_samplesize _ Hwf) as Hss.
  set (ss := samplesize (hnd m)) in *.
  assert (Hb : b * ss < 2 ^ 62) by nia.
  destruct (get_samples_spec T m a c Hwf Hco ltac:(lia) Hc)
    as (m3' & r3 & E3 & _ & Hok3).
  rewrite Eac in E3. inversion E3; subst m3' r3. clear E3.
  destruct (get_samples_spec T m a b Hwf Hco Hab Hb)
    as (m1' & r1 & E1 & Hr1 & Hok1).
  rewrite Eab in E1. inversion E1; subst m1' r1. clear E1.
  pose proof (reach_samplesize _ _ Hr1) as Hss1. fold ss in Hss1.
  destruct (get_samples_spec T m1 b c (reach_wf _ _ Hr1)
              (reach_coherent _ _ Hr1 T Hco) ltac:(lia)
              ltac:(rewrite Hss1; exact Hc))
    as (m2' & r2 & E2 & _ & Hok2).
  rewrite Ebc in E2. inversion E2; subst m2' r2. clear E2.
  rewrite Hss1 in Hok2. fold ss in Hok1, Hok3.
  simpl in Hok1, Hok2, Hok3.
  destruct Hok1 as [A1 A2 A3], Hok2 as [B1 B2 B3], Hok3 as [C1 C2 C3].
  assert (Habs : 0 <= a * ss < b * ss) by nia.
  assert (Hbcs : b * ss < c * ss) by nia.
  assert (Hsz : size p_ab = b * ss - a * ss) by lia.
  split; [|lia].
  rewrite A3, B3, C3.
  replace (b * ss) with (a * ss + size p_ab) by lia.
  rewrite slice_join by lia.
  f_equal. lia.
Qed.

(** The head of a call that has to split: after the first
    [fill_buffer_until], [get_samples] is the split at the pivot, the
    halves being calls of [get_samples] themselves. *)
Lemma get_samples_split_unfold m a b m0 v :
  wf m -> 0 <= a < b -> b * samplesize (hnd m) < 2 ^ 62 ->
  fill_buffer_until m a = (m0, Ret v) -> 0 <= v ->
  bufsize (hnd m) < (b - a) * samplesize (hnd m) + surplus (hnd m) ->
  let pivot :=
    a + Z.quot (bufsize (hnd m) - 2 * surplus (hnd m)) (samplesize (hnd m)) in
  wf m0
  /\ samplesize (hnd m0) = samplesize (hnd m)
  /\ pivot_of (hnd m0) a = pivot
  /\ (a < pivot < b
      /\ (pivot - a) * samplesize (hnd m)
         <= bufsize (hnd m) - 2 * surplus (hnd m)
         < (pivot - a) * samplesize (hnd m) + samplesize (hnd m))
  /\ get_samples m a b
     = split_branch get_samples m0 a b pivot
                    ((pivot - a) * samplesize (hnd m)).
Proof.
  intros Hwf Hab Hb E Hv Hsplit pivot.
  pose proof (wf_samplesize _ Hwf) as Hss.
  assert (Ha : 0 <= a * samplesize (hnd m) < 2 ^ 62) by nia.
  destruct (fill_buffer_until_spec m a Hwf Ha) as (m0' & v' & E' & Hr & _).
  rewrite E in E'. inversion E'; subst m0' v'. clear E'.
  pose proof (reach_wf _ _ Hr) as Hwf0.
  pose proof (reach_samplesize _ _ Hr) as Hss0.
  pose proof (reach_bufsize _ _ Hr) as Hbs0.
  pose proof (reach_surplus _ _ Hr) as Hsu0.
  destruct (pivot_bounds m0 a b Hwf0 Hab) as (Hp & Hq & Hroom);
    rewrite ?Hss0, ?Hbs0, ?Hsu0; try assumption.
  rewrite Hss0, Hbs0, Hsu0 in Hp, Hq, Hroom. fold pivot in Hp.
  set (ss := samplesize (hnd m)) in *.
  set (q := Z.quot (bufsize (hnd m) - 2 * surplus (hnd m)) ss) in *.
  assert (Hpq : pivot - a = q) by (unfold pivot; lia).
  split; [assumption|]. split; [reflexivity|]. split; [assumption|].
  split; [rewrite Hpq; lia|].
  destruct (coherent_exists m0 Hwf0) as (T & Hco0).
  pose proof Hwf0 as [W1 W2 W3 W4 W5 W6 W7 W8 W9].
  pose proof (steps_bytes_nonneg (pkt_temp_steps (st m0))).
  pose proof (events_bytes_nonneg (lavf (hnd m0))).
  unfold pending in W7.
  unfold get_samples at 1.
  replace (Z.to_nat (b - a)) with (S (Z.to_nat (b - a - 1))) by lia.
  rewrite get_samples_rec_unfold.
  replace ((0 <=? a) && (a <? b)) with true
    by (symmetry; apply andb_true_iff; split;
        [apply Z.leb_le | apply Z.ltb_lt]; lia).
  simpl negb. cbv iota. rewrite E. unfold bind_fill.
  replace (v <? 0) with false by (symmetry; apply Z.ltb_ge; lia).
  cbv zeta. rewrite Hp, Hss0, Hbs0, Hsu0. fold ss.
  rewrite (s64_small ((b - a) * ss)) by nia.
  rewrite (s64_small ((b - a) * ss + surplus (hnd m))) by nia.
  replace (bufsize (hnd m) <? (b - a) * ss + surplus (hnd m)) with true
    by (symmetry; apply Z.ltb_lt; lia).
  rewrite (s64_small ((pivot - a) * ss)) by nia.
  (* the halves do not depend on the fuel left *)
  assert (Hap : 0 <= a < pivot) by lia.
  assert (Hpb : pivot < b) by lia.
  assert (Hps : pivot * ss < b * ss) by (apply Z.mul_lt_mono_pos_r; lia).
  assert (Hps0 : pivot * samplesize (hnd m0) < 2 ^ 62)
    by (rewrite Hss0; lia).
  unfold split_branch.
  replace (Z.to_nat (b - a - 1))
    with (Z.to_nat (pivot - a) + Z.to_nat (b - pivot - 1))%nat by lia.
  rewrite (get_samples_rec_fuel T m0 a pivot Hwf0 Hco0 Hap Hps0).
  destruct (get_samples_spec T m0 a pivot Hwf0 Hco0 Hap Hps0)
    as (m1 & r1 & E1 & Hr1 & Hok1).
  rewrite E1.
  destruct r1 as [[prev|] | | |]; try reflexivity.
  destruct (size prev <? (pivot - a) * ss); [reflexivity|].
  destruct (negb (size prev =? (pivot - a) * ss)); [reflexivity|].
  replace (Z.to_nat (pivot - a) + Z.to_nat (b - pivot - 1))%nat
    with (Z.to_nat (b - pivot) + Z.to_nat (pivot - a - 1))%nat by lia.
  rewrite (get_samples_rec_fuel T m1 pivot b); try reflexivity.
  - apply (reach_wf _ _ Hr1).
  - apply (reach_coherent _ _ Hr1). assumption.
  - lia.
  - rewrite (reach_samplesize _ _ Hr1), Hss0. assumption.
Qed.

Lemma has_eof_set p :
  has_eof (set_flags p (Z.lor (flags p) AUDIO_FLAG_EOF)) = true.
Proof.
  unfold has_eof, set_flags, AUDIO_FLAG_EOF. simpl.
  apply negb_true_iff, Z.eqb_neq. intros H.
  assert (Hb : Z.testbit (Z.land (Z.lor (flags p) 1) 1) 0 = false)
    by (rewrite H; apply Z.bits_0).
  rewrite Z.land_spec, Z.lor_spec in Hb. simpl in Hb.
  rewrite orb_true_r in Hb. discriminate.
Qed.

(** C2, amended (split trigger and pivot).  A call whose byte span plus
    [surplus] exceeds the capacity splits at
    [pivot = first + (capacity - 2 * surplus) / samplesize] (integer
    division): the first half spans the largest whole number of sample
    frames that fits [capacity - 2 * surplus], and lies strictly inside
    the request.  When the fetch of [first, pivot) returns a full packet
    and the fetch of [pivot, last) returns a packet, the call returns
    their concatenation, its size the sum of theirs. *)
Theorem get_samples_split_pivot m a b m0 v :
  wf m -> 0 <= a < b -> b * samplesize (hnd m) < 2 ^ 62 ->
  fill_buffer_until m a = (m0, Ret v) -> 0 <= v ->
  bufsize (hnd m) < (b - a) * samplesize (hnd m) + surplus (hnd m) ->
  let pivot :=
    a + Z.quot (bufsize (hnd m) - 2 * surplus (hnd m)) (samplesize (hnd m)) in
  a < pivot < b
  /\ (pivot - a) * samplesize (hnd m)
     <= bufsize (hnd m) - 2 * surplus (hnd m)
     < (pivot - a) * samplesize (hnd m) + samplesize (hnd m)
  /\ forall m1 prev m2 next,
       get_samples m0 a pivot = (m1, Ret (Some prev)) ->
       size prev = (pivot - a) * samplesize (hnd m) ->
       get_samples m1 pivot b = (m2, Ret (Some next)) ->
       get_samples m a b
       = (m2, Ret (Some (mkPacket (data prev ++ data next)
                                  (size prev + size next) 0 0 0))).
Proof.
  intros Hwf Hab Hb E Hv Hsplit pivot.
  destruct (get_samples_split_unfold m a b m0 v Hwf Hab Hb E Hv Hsplit)
    as (Hwf0 & Hss0 & _ & (Hpiv & Hspan) & Hun).
  fold pivot in Hpiv, Hspan, Hun.
  split; [assumption|]. split; [assumption|].
  intros m1 prev m2 next E1 Hsz E2.
  pose proof (wf_samplesize _ Hwf) as Hss.
  set (ss := samplesize (hnd m)) in *.
  destruct (coherent_exists m0 Hwf0) as (T & Hco0).
  destruct (get_samples_spec T m0 a pivot Hwf0 Hco0)
    as (m1' & r1 & E1' & Hr1 & Hok1); rewrite ?Hss0; try nia.
  rewrite E1 in E1'. inversion E1'; subst m1' r1. clear E1'.
  pose proof (reach_samplesize _ _ Hr1) as Hss1. rewrite Hss0 in Hss1.
  destruct (get_samples_spec T m1 pivot b (reach_wf _ _ Hr1)
              (reach_coherent _ _ Hr1 T Hco0))
    as (m2' & r2 & E2' & Hr2 & Hok2); rewrite ?Hss1; try nia.
  rewrite E2 in E2'. inversion E2'; subst m2' r2. clear E2'.
  rewrite Hss0 in Hok1. rewrite Hss1 in Hok2. simpl in Hok1, Hok2.
  assert (Hzp : zlen (data prev) = size prev)
    by (eapply served_zlen; [| |exact Hok1]; nia).
  assert (Hzn : zlen (data next) = size next)
    by (eapply served_zlen; [| |exact Hok2]; nia).
  destruct Hok1 as [A1 A2 A3], Hok2 as [B1 B2 B3].
  rewrite Hun. unfold split_branch. rewrite E1.
  replace (size prev <? (pivot - a) * ss) with false
    by (symmetry; apply Z.ltb_ge; lia).
  replace (size prev =? (pivot - a) * ss) with true
    by (symmetry; apply Z.eqb_eq; lia).
  simpl negb. cbv iota. rewrite E2.
  rewrite <- Hzp at 1. rewrite <- Hzn at 1. rewrite !slice_full.
  rewrite s64_small; [reflexivity|].
  assert (b * ss < 2 ^ 62) by assumption.
  assert (0 <= a * ss) by nia.
  assert (a * ss < pivot * ss) by nia.
  assert (pivot * ss < b * ss) by nia.
  lia.
Qed.

(** C3 (end of stream during a split).  In a call that splits, when the
    fetch of the first half [first, pivot) returns a packet shorter than
    [(pivot - first) * samplesize], the call returns that very packet
    with the end-of-stream flag set, and the state it leaves is the one
    the first half left: the second half is not fetched. *)
Theorem get_samples_split_eof m a b m0 v m1 prev :
  wf m -> 0 <= a < b -> b * samplesize (hnd m) < 2 ^ 62 ->
  fill_buffer_until m a = (m0, Ret v) -> 0 <= v ->
  bufsize (hnd m) < (b - a) * samplesize (hnd m) + surplus (hnd m) ->
  let pivot :=
    a + Z.quot (bufsize (hnd m) - 2 * surplus (hnd m)) (samplesize (hnd m)) in
  get_samples m0 a pivot = (m1, Ret (Some prev)) ->
  size prev < (pivot - a) * samplesize (hnd m) ->
  exists p,
    get_samples m a b = (m1, Ret (Some p))
    /\ p = set_flags prev (Z.lor (flags prev) AUDIO_FLAG_EOF)
    /\ data p = data prev /\ size p = size prev
    /\ has_eof p = true.
Proof.
  intros Hwf Hab Hb E Hv Hsplit pivot E1 Hshort.
  destruct (get_samples_split_unfold m a b m0 v Hwf Hab Hb E Hv Hsplit)
    as (_ & _ & _ & _ & Hun).
  fold pivot in Hun.
  exists (set_flags prev (Z.lor (flags prev) AUDIO_FLAG_EOF)).
  split.
  - rewrite Hun. unfold split_branch. rewrite E1.
    replace (size prev <? (pivot - a) * samplesize (hnd m)) with true
      by (symmetry; apply Z.ltb_lt; lia).
    reflexivity.
  - split; [reflexivity|]. split; [reflexivity|]. split; [reflexivity|].
    apply has_eof_set.
Qed.

Lemma run_requests_keeps reqs :
  forall m, wf m -> keeps m (run_requests m reqs).
Proof.
  induction reqs as [|[a b] rest IH]; intros m Hwf; simpl.
  - apply keeps_refl. assumption.
  - destruct (get_samples m a b) as [m1 r] eqn:E. simpl.
    pose proof (get_samples_rec_keeps _ _ _ _ _ _ Hwf E) as Hk.
    eapply keeps_trans; [exact Hk|]. apply IH. apply Hk.
Qed.

(** C4 (sliding-window eviction).  [buffer_next_frame] succeeds exactly
    when the decoder delivers a unit [u].  When [u] does not fit behind
    the resident bytes, exactly [|u|] of the oldest bytes are dropped
    from the front, [bytepos] advances by [|u|], and [u] is appended;
    otherwise [u] is appended and [bytepos] stays.  When the decoder
    delivers nothing the call fails and the window is as it was.  Hence
    over any sequence of requests on a handle [bytepos] never decreases
    and [0 <= len <= bufsize]. *)
Theorem cache_sliding_window m :
  wf m ->
  (forall m1 r, decode_next_frame m = (m1, r) ->
     match r with
     | Some u =>
         exists m',
           buffer_next_frame m = (m', true)
           /\ if bufsize (hnd m) <? len (hnd m) + zlen u
              then bytepos (hnd m') = bytepos (hnd m) + zlen u
                   /\ len (hnd m') = len (hnd m)
                   /\ window m' = skipn (Z.to_nat (zlen u)) (window m) ++ u
              else bytepos (hnd m') = bytepos (hnd m)
                   /\ len (hnd m') = len (hnd m) + zlen u
                   /\ window m' = window m ++ u
     | None =>
         buffer_next_frame m = (m1, false)
         /\ bytepos (hnd m1) = bytepos (hnd m)
         /\ len (hnd m1) = len (hnd m)
         /\ window m1 = window m
     end)
  /\ (forall m', buffer_next_frame m = (m', true) ->
     exists m1 u,
       decode_next_frame m = (m1, Some u)
       /\ if bufsize (hnd m) <? len (hnd m) + zlen u
          then bytepos (hnd m') = bytepos (hnd m) + zlen u
               /\ len (hnd m') = len (hnd m)
               /\ window m' = skipn (Z.to_nat (zlen u)) (window m) ++ u
          else bytepos (hnd m') = bytepos (hnd m)
               /\ len (hnd m') = len (hnd m) + zlen u
               /\ window m' = window m ++ u)
  /\ (forall reqs,
        let m' := run_requests m reqs in
        bytepos (hnd m) <= bytepos (hnd m')
        /\ 0 <= len (hnd m') <= bufsize (hnd m')
        /\ bufsize (hnd m') = bufsize (hnd m)).
Proof.
  intros Hwf.
  assert (Hev : forall m', buffer_next_frame m = (m', true) ->
     exists m1 u,
       decode_next_frame m = (m1, Some u)
       /\ if bufsize (hnd m) <? len (hnd m) + zlen u
          then bytepos (hnd m') = bytepos (hnd m) + zlen u
               /\ len (hnd m') = len (hnd m)
               /\ window m' = skipn (Z.to_nat (zlen u)) (window m) ++ u
          else bytepos (hnd m') = bytepos (hnd m)
               /\ len (hnd m') = len (hnd m) + zlen u
               /\ window m' = window m ++ u).
  { intros m' Hb.
    destruct (buffer_next_frame_ok _ _ Hwf Hb) as (m1 & u & Ed & _ & Hs).
    exists m1, u. split; [assumption|].
    destruct Hs as [[U1 U2] _ _ Hwin Hbytes _ _].
    pose proof (wf_len _ Hwf) as Hl. pose proof (wf_buffer _ Hwf) as Hz.
    unfold window. rewrite Hbytes.
    destruct (bufsize (hnd m) <? len (hnd m) + zlen u) eqn:Ev;
      destruct Hwin as [-> ->]; (split; [reflexivity|]);
      (split; [reflexivity|]).
    + replace (bytepos (hnd m) + zlen u - bytepos (hnd m)) with (zlen u) by lia.
      apply Z.ltb_lt in Ev.
      rewrite skipn_app.
      replace (Z.to_nat (zlen u) - length (slice (buffer (hnd m)) 0 (len (hnd m))))%nat
        with 0%nat; [reflexivity|].
      pose proof (zlen_slice (buffer (hnd m)) 0 (len (hnd m))) as Hsl.
      unfold zlen in *. lia.
    + rewrite Z.sub_diag. reflexivity. }
  split; [|split; [exact Hev|]].
  - intros m1 r Ed. destruct r as [u|].
    + destruct (buffer_next_frame m) as [m' ok] eqn:Eb.
      assert (ok = true).
      { unfold buffer_next_frame in Eb. rewrite Ed in Eb.
        inversion Eb. reflexivity. }
      subst ok. exists m'. split; [reflexivity|].
      destruct (Hev m' eq_refl) as (m2 & u2 & Ed2 & H).
      rewrite Ed in Ed2. inversion Ed2; subst. exact H.
    + split.
      * unfold buffer_next_frame. rewrite Ed. reflexivity.
      * apply decode_next_frame_spec in Ed. destruct Ed as (Ha & _).
        destruct Ha. unfold window.
        repeat split; congruence.
  - intros reqs m'.
    destruct (run_requests_keeps reqs m Hwf) as [Hw Hbs Hbp]. fold m' in Hw, Hbs, Hbp.
    pose proof (wf_len _ Hw). auto.
Qed.

(** C5 (backward seek).  A request whose first sample lies before the
    window comes back with [NULL], never with a packet, and leaves the
    handle (buffer, [bytepos], [len]) exactly as it was. *)
Theorem get_samples_backward_seek m a b :
  wf m -> 0 <= a < b ->
  a * samplesize (hnd m) < bytepos (hnd m) ->
  get_samples m a b = (m, Ret None).
Proof.
  intros Hwf Hab Hback.
  pose proof (wf_samplesize _ Hwf) as Hss.
  pose proof Hwf as [W1 W2 W3 W4 W5 W6 W7 W8 W9].
  pose proof (steps_bytes_nonneg (pkt_temp_steps (st m))).
  pose proof (events_bytes_nonneg (lavf (hnd m))).
  unfold pending in W7.
  assert (Ha : 0 <= a * samplesize (hnd m) < 2 ^ 62) by nia.
  unfold get_samples.
  replace (Z.to_nat (b - a)) with (S (Z.to_nat (b - a - 1))) by lia.
  rewrite get_samples_rec_unfold.
  replace ((0 <=? a) && (a <? b)) with true
    by (symmetry; apply andb_true_iff; split;
        [apply Z.leb_le | apply Z.ltb_lt]; lia).
  simpl negb. cbv iota.
  destruct (fill_buffer_until_spec m a Hwf Ha) as (m0 & v & E & Hr & Hcase).
  rewrite E. unfold bind_fill.
  destruct Hcase as [(-> & -> & _) | (_ & _ & Hbp & _)].
  - reflexivity.
  - pose proof (reach_bytepos _ _ Hr). lia.
Qed.

(** C8, amended (timestamp).  Every packet that [get_samples] returns,
    from the direct copy or from a split, has the timestamp the
    allocation zeroed: [dts = 0], whatever [first_sample] was. *)
Theorem get_samples_timestamp m a b m' p :
  get_samples m a b = (m', Ret (Some p)) -> dts p = 0.
Proof. unfold get_samples. apply get_samples_rec_dts. Qed.

(** *** The properties at concrete handles *)

Import Demo.

Ltac closed_arith :=
  vm_compute; repeat split; first [reflexivity | discriminate].

Ltac closed_forall :=
  vm_compute;
  repeat first [ apply Forall_nil
               | apply Forall_cons
               | progress simpl
               | closed_arith ].

Ltac closed_wf :=
  constructor; first [closed_arith | closed_forall].

Lemma demo_wf_1_10_2 : wf (demo 1 10 2).
Proof. closed_wf. Qed.

(** C1 at a handle with a 16-byte buffer over a 20-byte stream: the
    request [0, 16) splits, [0, 2) and [2, 16) do not. *)
Lemma get_samples_split_correct_witness :
  exists m1 m2 m3 p_ab p_bc p_ac,
    get_samples (demo 1 10 2) 0 16 = (m3, Ret (Some p_ac))
    /\ get_samples (demo 1 10 2) 0 2 = (m1, Ret (Some p_ab))
    /\ get_samples m1 2 16 = (m2, Ret (Some p_bc))
    /\ (data p_ac = data p_ab ++ data p_bc
        /\ size p_ac = size p_ab + size p_bc).
Proof.
  eexists _, _, _, _, _, _.
  split; [vm_compute; reflexivity|].
  split; [vm_compute; reflexivity|].
  split; [vm_compute; reflexivity|].
  eapply (get_samples_split_correct (demo 1 10 2) 0 2 16).
  - exact demo_wf_1_10_2.
  - closed_arith.
  - closed_arith.
  - closed_arith.
  - vm_compute; reflexivity.
  - vm_compute; reflexivity.
  - vm_compute; reflexivity.
Defined.

Lemma demo_wf_4_10_4 : wf (demo 4 10 4).
Proof. closed_wf. Qed.

Lemma demo_wf_1_3_2 : wf (demo 1 3 2).
Proof. closed_wf. Qed.

(** C2 as stated fails.  With 4-byte sample frames, capacity 16 and
    surplus 3, the request [0, 5) (20 bytes) has to split.  The code
    splits at sample 2, a first half of 8 bytes; [capacity - 2 * surplus]
    is 10, which no pivot sample can give.  The same happens with the
    capacity [init] sets: for a 7-channel 16-bit track the first half of
    a split spans 335608 bytes, [capacity - 2 * surplus] being 335616. *)
Lemma get_samples_split_pivot_counterexample :
  let m := demo 4 10 4 in
  bufsize (hnd m) < (5 - 0) * samplesize (hnd m) + surplus (hnd m)
  /\ (exists m0 v m1 prev m2 next,
        fill_buffer_until m 0 = (m0, Ret v)
        /\ get_samples m0 0 2 = (m1, Ret (Some prev))
        /\ get_samples m1 2 5 = (m2, Ret (Some next))
        /\ get_samples m 0 5
           = (m2, Ret (Some (mkPacket (data prev ++ data next)
                                      (size prev + size next) 0 0 0)))
        /\ size prev = 8)
  /\ ~ (exists pivot,
          (pivot - 0) * samplesize (hnd m)
          = bufsize (hnd m) - 2 * surplus (hnd m))
  /\ match seven_channels with
     | Some h =>
         bufsize h = 384000 /\ surplus h = 24192 /\ samplesize h = 14
         /\ pivot_of h 0 = 23972
         /\ (23972 - 0) * samplesize h = 335608
         /\ bufsize h - 2 * surplus h = 335616
     | None => False
     end.
Proof.
  split; [closed_arith|]. split; [|split].
  - eexists _, _, _, _, _, _.
    split; [vm_compute; reflexivity|].
    split; [vm_compute; reflexivity|].
    split; [vm_compute; reflexivity|].
    split; vm_compute; reflexivity.
  - intros [pivot H]. simpl in H. lia.
  - vm_compute. repeat split; reflexivity.
Qed.

(** The amended C2 at the same request. *)
Lemma get_samples_split_pivot_witness :
  exists m0 v,
    fill_buffer_until (demo 4 10 4) 0 = (m0, Ret v)
    /\ (0 < 2 < 5
        /\ (2 - 0) * 4 <= 16 - 2 * 3 < (2 - 0) * 4 + 4
        /\ forall m1 prev m2 next,
             get_samples m0 0 2 = (m1, Ret (Some prev)) ->
             size prev = (2 - 0) * 4 ->
             get_samples m1 2 5 = (m2, Ret (Some next)) ->
             get_samples (demo 4 10 4) 0 5
             = (m2, Ret (Some (mkPacket (data prev ++ data next)
                                        (size prev + size next) 0 0 0)))).
Proof.
  eexists _, _.
  split; [vm_compute; reflexivity|].
  eapply (get_samples_split_pivot (demo 4 10 4) 0 5).
  - exact demo_wf_4_10_4.
  - closed_arith.
  - closed_arith.
  - vm_compute; reflexivity.
  - closed_arith.
  - closed_arith.
Defined.

(** C3 at a stream of 6 bytes: the first half [0, 10) of the request
    [0, 16) comes back with 6 bytes. *)
Lemma get_samples_split_eof_witness :
  exists m0 v m1 prev,
    fill_buffer_until (demo 1 3 2) 0 = (m0, Ret v)
    /\ get_samples m0 0 10 = (m1, Ret (Some prev))
    /\ size prev = 6
    /\ exists p,
         get_samples (demo 1 3 2) 0 16 = (m1, Ret (Some p))
         /\ p = set_flags prev (Z.lor (flags prev) AUDIO_FLAG_EOF)
         /\ data p = data prev /\ size p = size prev
         /\ has_eof p = true.
Proof.
  eexists _, _, _, _.
  split; [vm_compute; reflexivity|].
  split; [vm_compute; reflexivity|].
  split; [reflexivity|].
  eapply (get_samples_split_eof (demo 1 3 2) 0 16).
  - exact demo_wf_1_3_2.
  - closed_arith.
  - closed_arith.
  - vm_compute; reflexivity.
  - closed_arith.
  - closed_arith.
  - vm_compute; reflexivity.
  - closed_arith.
Defined.

Lemma demo_full_wf : wf demo_full.
Proof. closed_wf. Qed.

Lemma demo_moved_wf : wf demo_moved.
Proof. closed_wf. Qed.

(** C4 at a full buffer (bytes 0..15 resident): the decoder delivers
    the unit [16; 17], [buffer_next_frame] succeeds, the two oldest
    bytes are evicted and [bytepos] moves from 0 to 2. *)
Lemma cache_sliding_window_witness :
  snd (decode_next_frame demo_full) = Some [16; 17]
  /\ (exists m',
        buffer_next_frame demo_full = (m', true)
        /\ bytepos (hnd demo_full) = 0 /\ len (hnd demo_full) = 16
        /\ bytepos (hnd m') = 2 /\ len (hnd m') = 16
        /\ window m' = skipn 2 (window demo_full) ++ [16; 17])
  /\ (forall reqs,
        let m' := run_requests demo_full reqs in
        bytepos (hnd demo_full) <= bytepos (hnd m')
        /\ 0 <= len (hnd m') <= bufsize (hnd m')
        /\ bufsize (hnd m') = bufsize (hnd demo_full)).
Proof.
  destruct (cache_sliding_window demo_full demo_full_wf) as (H1 & _ & H3).
  assert (E : decode_next_frame demo_full
              = (fst (decode_next_frame demo_full), Some [16; 17]))
    by (vm_compute; reflexivity).
  destruct (H1 _ _ E) as (m' & Eb & Hif).
  assert (Hc : (bufsize (hnd demo_full) <? len (hnd demo_full) + zlen [16; 17])
               = true) by (vm_compute; reflexivity).
  rewrite Hc in Hif. destruct Hif as (Hp & Hl & Hw).
  split; [vm_compute; reflexivity|].
  split; [|exact H3].
  exists m'. split; [exact Eb|].
  split; [vm_compute; reflexivity|].
  split; [vm_compute; reflexivity|].
  split; [rewrite Hp; vm_compute; reflexivity|].
  split; [rewrite Hl; vm_compute; reflexivity|].
  exact Hw.
Defined.

(** C5 at a window that starts at byte 2: sample 1 is gone. *)
Lemma get_samples_backward_seek_witness :
  get_samples demo_moved 1 5 = (demo_moved, Ret None).
Proof.
  apply (get_samples_backward_seek demo_moved 1 5).
  - exact demo_moved_wf.
  - closed_arith.
  - closed_arith.
Defined.

(** C8 as stated fails: the request [3, 10) returns a packet whose
    timestamp is not 3. *)
Lemma get_samples_timestamp_counterexample :
  exists m' p,
    get_samples (demo 1 10 2) 3 10 = (m', Ret (Some p)) /\ dts p <> 3.
Proof.
  eexists _, _. split; [vm_compute; reflexivity|]. simpl. discriminate.
Qed.

(** The amended C8 at the same request. *)
Lemma get_samples_timestamp_witness :
  exists m' p,
    get_samples (demo 1 10 2) 3 10 = (m', Ret (Some p)) /\ dts p = 0.
Proof.
  eexists _, _. split; [vm_compute; reflexivity|].
  eapply (get_samples_timestamp (demo 1 10 2) 3 10).
  vm_compute; reflexivity.
Defined.

(** Once [errored] is set, a request is refused at once: nothing is
    decoded and the state stays as it is. *)
Lemma get_samples_errored m a b :
  errored (st m) = true -> 0 <= a < b ->
  get_samples m a b = (m, Ret None).
Proof.
  intros He Hab. unfold get_samples.
  replace (Z.to_nat (b - a)) with (S (Z.to_nat (b - a - 1))) by lia.
  rewrite get_samples_rec_unfold.
  replace ((0 <=? a) && (a <? b)) with true
    by (symmetry; apply andb_true_iff; split;
        [apply Z.leb_le | apply Z.ltb_lt]; lia).
  unfold fill_buffer_until. rewrite He. reflexivity.
Qed.

(** C6 (the flag is not per handle).  [errored] is a [static] of
    [fill_buffer_until], so all handles of the process share it.  Two
    sources are opened, A on 3 frames and B on 10.  B holds its first
    frame (samples 0..1151) and serves [0, 1152) when asked first.  But
    after the request [0, 5000) has taken A to the end of its stream, B
    refuses the same request, although nothing has failed on B. *)
Theorem errored_shared_between_handles :
  match two_handles with
  | Some (s, hA, hB) =>
      bytepos hB = 0 /\ len hB = 4608
      /\ match snd (get_samples (mkMachine s hB) 0 1152) with
         | Ret (Some p) => size p = 4608
         | _ => False
         end
      /\ match get_samples (mkMachine s hA) 0 5000 with
         | (mA, Ret (Some pA)) =>
             size pA = 13824 /\ has_eof pA = true
             /\ errored (st mA) = true
             /\ snd (get_samples mA 5000 5001) = Ret None
             /\ snd (get_samples (mkMachine (st mA) hB) 0 1152) = Ret None
         | _ => False
         end
  | None => False
  end.
Proof. vm_compute. repeat split; reflexivity. Qed.

End LavfClaims.

(** ** The encoder adapter *)

Module LameClaims.

Import Pkt Lame LameSpec.

Section AdapterFacts.

Variable chain : Type.
Variable af_get_samples : chain -> Z -> Z -> chain * option audio_packet_t.
Variable lame_t : Type.
Variable lame_encode_buffer_float :
  lame_t -> audio_packet_t -> Z -> lame_t * Z * list Z.
Variable lame_encode_flush : lame_t -> Z -> lame_t * Z * list Z.

Local Abbreviation enc := (enc_lame_t chain lame_t).
Local Abbreviation loop := (encode_loop af_get_samples lame_encode_buffer_float).
Local Abbreviation silent := (silent_pulls af_get_samples lame_encode_buffer_float).
Local Abbreviation final := (last_round af_get_samples lame_encode_buffer_float).

Lemma loop_done fuel (h : enc) out :
  size out <> 0 -> loop fuel h out = (h, Ret (Some out)).
Proof.
  intros H. destruct fuel; simpl;
    (replace (size out =? 0) with false by (symmetry; apply Z.eqb_neq; lia));
    reflexivity.
Qed.

Lemma loop_step fuel (h : enc) out :
  size out = 0 ->
  loop (S fuel) h out
  = match in_ h with
    | HFreed _ => (h, Undefined)
    | HLive p =>
        if has_eof p then
          (set_in (set_finishing h 1) (HFreed p), Ret None)
        else
          match pull_and_encode af_get_samples lame_encode_buffer_float
                                (set_in h (HFreed p)) out with
          | (h', None) => (h', Ret None)
          | (h', Some out') => loop fuel h' out'
          end
    | HNull =>
        match pull_and_encode af_get_samples lame_encode_buffer_float h out with
        | (h', None) => (h', Ret None)
        | (h', Some out') => loop fuel h' out'
        end
    end.
Proof.
  intros H. simpl. rewrite H. reflexivity.
Qed.

Lemma blank_set_out out bytes ts : blank out -> blank (set_out out bytes 0 ts).
Proof. intros (H1 & H2 & H3). repeat split; assumption. Qed.

Lemma set_out_blank out bytes n ts :
  blank out -> set_out out bytes n ts = mkPacket bytes n ts 0 0.
Proof. intros (H1 & H2 & H3). unfold set_out. now rewrite H2, H3. Qed.

(** One round from a state that may pull, as [loop] runs it. *)
Lemma loop_pull fuel (h : enc) out :
  blank out -> may_pull h ->
  loop (S fuel) h out
  = let '(c, got) :=
      af_get_samples (filter_chain h) (last_sample h)
                     (s64 (last_sample h + framelen h)) in
    match got with
    | None =>
        (mkEnc (framelen h) c (packet_count h) (finishing h) (lame h)
               (last_sample h) (bufsize h) HNull, Ret None)
    | Some p =>
        let '(l, n, bytes) := lame_encode_buffer_float (lame h) p (bufsize h) in
        loop fuel (pulled h c p l) (set_out out bytes n (last_sample h))
    end.
Proof.
  intros (Hs & _) Hm. rewrite (loop_step _ _ _ Hs).
  unfold may_pull in Hm. unfold pull_and_encode, pulled.
  destruct (in_ h) as [|q|q]; [| rewrite Hm | contradiction]; simpl;
    destruct (af_get_samples _ _ _) as [c [p|]]; try reflexivity;
    destruct (lame_encode_buffer_float _ _ _) as [[l n] bytes]; reflexivity.
Qed.

Lemma loop_sound fuel :
  forall (h : enc) out h' r,
    blank out -> loop fuel h out = (h', Ret r) ->
    exists n hn, (n < fuel)%nat /\ silent h n hn /\ final hn h' r.
Proof.
  induction fuel as [|f IH]; intros h out h' r Hb H.
  - simpl in H. destruct Hb as (Hs & _). rewrite Hs in H. discriminate.
  - assert (Hcase : may_pull h \/ ~ may_pull h).
    { unfold may_pull. destruct (in_ h) as [|q|q].
      - left. exact I.
      - destruct (has_eof q); [right; discriminate | left; reflexivity].
      - right. intros []. }
    destruct Hcase as [Hm | Hn].
    + rewrite (loop_pull _ _ _ Hb Hm) in H.
      destruct (af_get_samples _ _ _) as [c [p|]] eqn:Ea.
      * destruct (lame_encode_buffer_float _ _ _) as [[l n] bytes] eqn:Ee.
        destruct (Z.eq_dec n 0) as [-> | Hnz].
        -- apply IH in H; [|apply blank_set_out; assumption].
           destruct H as (k & hn & Hk & Hsil & Hfin).
           exists (S k), hn. split; [lia|]. split; [|assumption].
           eapply silent_more; eassumption.
        -- rewrite loop_done in H by (simpl; assumption).
           rewrite (set_out_blank _ _ _ _ Hb) in H.
           inversion H; subst h' r.
           exists 0%nat, h. split; [lia|]. split; [apply silent_none|].
           eapply round_out; eassumption.
      * inversion H; subst h' r.
        exists 0%nat, h. split; [lia|]. split; [apply silent_none|].
        apply round_fail; assumption.
    + destruct Hb as (Hs & _). rewrite (loop_step _ _ _ Hs) in H.
      unfold may_pull in Hn.
      destruct (in_ h) as [|q|q] eqn:Ei; [tauto| |discriminate].
      destruct (has_eof q) eqn:Eq; [|congruence].
      inversion H; subst h' r.
      exists 0%nat, h. split; [lia|]. split; [apply silent_none|].
      apply round_eof; assumption.
Qed.

Lemma loop_last fuel (h : enc) out h' r :
  blank out -> final h h' r -> loop (S fuel) h out = (h', Ret r).
Proof.
  intros Hb Hf. inversion Hf as [h0 q Ei Eq | h0 c Hm Ea | h0 c p l n bytes Hm Ea Ee Hn];
    subst.
  - destruct Hb as (Hs & _). rewrite (loop_step _ _ _ Hs), Ei, Eq. reflexivity.
  - rewrite (loop_pull _ _ _ Hb Hm), Ea. reflexivity.
  - rewrite (loop_pull _ _ _ Hb Hm), Ea, Ee.
    rewrite loop_done by (simpl; assumption).
    rewrite (set_out_blank _ _ _ _ Hb). reflexivity.
Qed.

Lemma loop_complete n (h hn : enc) :
  silent h n hn ->
  forall fuel out h' r,
    blank out -> (n < fuel)%nat -> final hn h' r ->
    loop fuel h out = (h', Ret r).
Proof.
  induction 1 as [h | h c p l bytes n h1 Hm Ea Ee Hsil IH];
    intros fuel out h' r Hb Hlt Hf;
    (destruct fuel as [|f]; [lia|]).
  - apply loop_last; assumption.
  - rewrite (loop_pull _ _ _ Hb Hm), Ea, Ee.
    apply IH; [apply blank_set_out; assumption | lia | assumption].
Qed.

(** C7 (running loop).  In the running state, [get_next_packet] returns
    exactly when some number of rounds, each pulling the window
    [last_sample, last_sample + framelen) and advancing [last_sample] by
    the samples it got and each encoded to zero bytes, is followed by a
    last round: end of stream seen on the held packet, a pull that
    fails, or a pull encoded to a non-zero count, which is returned.  A
    returned packet is never empty. *)
Theorem get_next_packet_running fuel (h : enc) h' r :
  finishing h = 0 ->
  (get_next_packet af_get_samples lame_encode_buffer_float fuel h = (h', Ret r)
   <-> exists n hn, (n < fuel)%nat /\ silent h n hn /\ final hn h' r)
  /\ (get_next_packet af_get_samples lame_encode_buffer_float fuel h = (h', Ret r) ->
      forall out, r = Some out -> size out <> 0).
Proof.
  intros Hfin.
  assert (Hb : blank calloc) by (repeat split; reflexivity).
  assert (Hg : get_next_packet af_get_samples lame_encode_buffer_float fuel h
               = loop fuel h calloc).
  { unfold get_next_packet. rewrite Hfin. reflexivity. }
  rewrite Hg.
  assert (Hiff : loop fuel h calloc = (h', Ret r)
                 <-> exists n hn, (n < fuel)%nat /\ silent h n hn /\ final hn h' r).
  { split.
    - apply loop_sound. assumption.
    - intros (n & hn & Hlt & Hsil & Hf).
      eapply loop_complete; eassumption. }
  split; [exact Hiff|].
  intros H out ->. apply Hiff in H.
  destruct H as (n & hn & _ & _ & Hf).
  inversion Hf; subst. simpl. assumption.
Qed.


(** C10 (frame effect of [skip_samples]), amended.  [skip_samples]
    changes nothing but [last_sample]: the upstream chain and the
    encoder are as they were, and so are [finishing], the capacity, the
    held packet and the packet count.  [last_sample] is increased by
    the count as long as the sum stays in the range of [int64_t]; past
    [INT64_MAX] it wraps, to the sum less [2 ^ 64]. *)
Theorem skip_samples_frame (h : enc) n :
  let h' := skip_samples h n in
  last_sample h' = s64 (last_sample h + n)
  /\ (- 2 ^ 63 <= last_sample h + n <= INT64_MAX ->
      last_sample h' = last_sample h + n)
  /\ (0 <= n < 2 ^ 64 -> - 2 ^ 63 <= last_sample h <= INT64_MAX ->
      INT64_MAX < last_sample h + n ->
      last_sample h' = last_sample h + n - 2 ^ 64)
  /\ framelen h' = framelen h
  /\ filter_chain h' = filter_chain h
  /\ packet_count h' = packet_count h
  /\ finishing h' = finishing h
  /\ lame h' = lame h
  /\ bufsize h' = bufsize h
  /\ in_ h' = in_ h.
Proof.
  intros h'. unfold h', skip_samples. simpl.
  rewrite s64_u64_sum. unfold INT64_MAX.
  split; [reflexivity|].
  split; [intros H; apply s64_small; lia|].
  split; [|repeat split].
  intros Hn Hl Hs. unfold s64.
  replace (last_sample h + n + 2 ^ 63)
    with (last_sample h + n - 2 ^ 63 + 1 * 2 ^ 64) by lia.
  rewrite Z.mod_add by lia. rewrite Z.mod_small; lia.
Qed.

End AdapterFacts.

(** *** The properties at a concrete adapter *)

Import Demo.

(** C7 from a fresh adapter: the first pull is encoded to nothing, the
    second to three bytes; [last_sample] ends at 2304. *)
Lemma get_next_packet_running_witness :
  let h' := mkEnc 1152 2 0 0 2 2304 8640 (HLive (mkPacket [] 0 0 1152 0)) in
  let r := Some (mkPacket [7; 7; 7] 3 1152 0 0) in
  get_next_packet demo_upstream demo_encode 3 demo_adapter = (h', Ret r)
  /\ (get_next_packet demo_upstream demo_encode 3 demo_adapter = (h', Ret r)
   <-> exists n hn,
         (n < 3)%nat
         /\ silent_pulls demo_upstream demo_encode demo_adapter n hn
         /\ last_round demo_upstream demo_encode hn h' r)
  /\ (get_next_packet demo_upstream demo_encode 3 demo_adapter = (h', Ret r) ->
      forall out, r = Some out -> size out <> 0).
Proof.
  split; [reflexivity|].
  apply (get_next_packet_running Z demo_upstream Z demo_encode 3 demo_adapter).
  reflexivity.
Defined.


(** C10 as stated fails: one sample skipped at [INT64_MAX] lands on
    [- 2 ^ 63], and the count [2 ^ 64 - 1] skipped at 5 lands on 4. *)
Lemma skip_samples_frame_counterexample :
  let h := mkEnc 1152 0 0 0 0 INT64_MAX 8640 HNull in
  let g := mkEnc 1152 0 0 0 0 5 8640 HNull in
  (last_sample (skip_samples h 1) = - 2 ^ 63
   /\ last_sample (skip_samples h 1) <> last_sample h + 1)
  /\ (last_sample (skip_samples g (2 ^ 64 - 1)) = 4
      /\ last_sample (skip_samples g (2 ^ 64 - 1))
         <> last_sample g + (2 ^ 64 - 1)).
Proof.
  vm_compute. repeat split; discriminate.
Qed.

(** The amended C10 at the fresh adapter, skipping 100 samples. *)
Lemma skip_samples_frame_witness :
  let h' := skip_samples demo_adapter 100 in
  last_sample h' = 100
  /\ last_sample h' = last_sample demo_adapter + 100
  /\ framelen h' = framelen demo_adapter
  /\ filter_chain h' = filter_chain demo_adapter
  /\ packet_count h' = packet_count demo_adapter
  /\ finishing h' = finishing demo_adapter
  /\ lame h' = lame demo_adapter
  /\ bufsize h' = bufsize demo_adapter
  /\ in_ h' = in_ demo_adapter.
Proof.
  destruct (skip_samples_frame Z Z demo_adapter 100)
    as (_ & H2 & _ & H4).
  split; [vm_compute; reflexivity|].
  split; [|exact H4].
  apply H2. vm_compute. split; discriminate.
Defined.

End LameClaims.

(** ** The decode cache: further properties *)

Module LavfMore.

Import Lavf Pkt LavfSpec LavfMoreSpec LavfFacts Demo.

(** *** The decoded stream of a handle *)

Lemma stream_of_remaining n :
  forall m, (work m < n)%nat -> remaining m (stream_of n m).
Proof.
  induction n as [|n IH]; intros m Hn; [lia|].
  simpl. destruct (decode_next_frame m) as [m' [u|]] eqn:E.
  - pose proof (decode_next_frame_spec _ _ _ E) as (_ & _ & Hw & _).
    eapply remaining_unit; [exact E|]. apply IH. lia.
  - eapply remaining_end. exact E.
Qed.

Lemma decoded_stream_remaining m : remaining m (decoded_stream m).
Proof. apply stream_of_remaining. lia. Qed.

(** A handle that has not buffered anything yet is coherent with its
    decoded stream. *)
Lemma fresh_coherent m :
  len (hnd m) = 0 -> bytepos (hnd m) = 0 -> errored (st m) = false ->
  coherent (decoded_stream m) m.
Proof.
  intros Hl Hb He. exists [], (decoded_stream m).
  rewrite Hl, Hb, He. repeat split.
  apply decoded_stream_remaining.
Qed.

End LavfMore.

Module LavfMoreA.

Import Lavf Pkt LavfSpec LavfMoreSpec LavfFacts LavfMore Demo DemoMore.

(** *** What a request returns *)

(** What a served request has read, in terms of the decoded stream. *)
Lemma get_samples_stream T m a b m' p :
  wf m -> coherent T m ->
  0 <= a < b -> b * samplesize (hnd m) < 2 ^ 62 ->
  get_samples m a b = (m', Ret (Some p)) ->
  a * samplesize (hnd m) < zlen T
  /\ size p = Z.min (b * samplesize (hnd m)) (zlen T) - a * samplesize (hnd m)
  /\ data p = slice T (a * samplesize (hnd m)) (size p)
  /\ zlen (data p) = size p
  /\ wf m' /\ coherent T m'.
Proof.
  intros Hwf Hco Hab Hb E.
  destruct (get_samples_spec T m a b Hwf Hco Hab Hb) as (m1 & r & E1 & Hr & Hok).
  rewrite E in E1. inversion E1; subst m1 r. clear E1. simpl in Hok.
  pose proof (wf_samplesize _ Hwf) as Hss.
  assert (Hz : zlen (data p) = size p)
    by (eapply served_zlen; [| |exact Hok]; nia).
  destruct Hok as [H1 H2 H3].
  split; [assumption|]. split; [assumption|]. split; [assumption|].
  split; [assumption|]. split.
  - apply (reach_wf _ _ Hr).
  - apply (reach_coherent _ _ Hr). assumption.
Qed.

(** X1.  A packet returned for the samples [a, b) carries exactly the
    bytes [a * ss, min (b * ss, |T|)) of the decoded stream [T], its size
    is their number, and the handle stays well formed and coherent with
    [T]. *)
Theorem get_samples_serves_stream T m a b m' p :
  wf m -> coherent T m ->
  0 <= a < b -> b * samplesize (hnd m) < 2 ^ 62 ->
  get_samples m a b = (m', Ret (Some p)) ->
  a * samplesize (hnd m) < zlen T
  /\ size p = Z.min (b * samplesize (hnd m)) (zlen T) - a * samplesize (hnd m)
  /\ data p = slice T (a * samplesize (hnd m)) (size p)
  /\ zlen (data p) = size p
  /\ wf m' /\ coherent T m'.
Proof. apply get_samples_stream. Qed.

(** X2.  On a well-formed handle a request that satisfies the entry
    assertion never trips an assertion of [get_samples] or
    [fill_buffer_until], and the recursion of the split always comes
    back. *)
Theorem get_samples_no_assert m a b :
  wf m -> 0 <= a < b -> b * samplesize (hnd m) < 2 ^ 62 ->
  snd (get_samples m a b) <> AssertFail
  /\ snd (get_samples m a b) <> NoFuel.
Proof.
  intros Hwf Hab Hb.
  destruct (coherent_exists m Hwf) as (T & Hco).
  destruct (get_samples_spec T m a b Hwf Hco Hab Hb) as (m1 & r & E1 & _ & Hok).
  rewrite E1. simpl.
  destruct r as [[q|]| | |]; simpl in Hok; try contradiction;
    split; discriminate.
Qed.


Lemma run_requests_reach T reqs :
  forall m, wf m -> coherent T m -> Forall (valid_request m) reqs ->
  reach m (run_requests m reqs).
Proof.
  induction reqs as [|[a b] rest IH]; intros m Hwf Hco Hv; simpl.
  - apply reach_refl. assumption.
  - inversion Hv as [|x l [Hab Hb] Hrest]; subst. simpl in Hab, Hb.
    destruct (get_samples_spec T m a b Hwf Hco Hab Hb) as (m1 & r & E & Hr & _).
    rewrite E. simpl.
    eapply reach_trans; [exact Hr|].
    apply IH.
    + apply (reach_wf _ _ Hr).
    + apply (reach_coherent _ _ Hr). assumption.
    + eapply Forall_impl; [|exact Hrest].
      intros [a' b'] [H1 H2]. split; [assumption|].
      rewrite (reach_samplesize _ _ Hr). assumption.
Qed.

(** X4.  Over any sequence of valid requests the cache stays a window on
    the decoded stream: the resident bytes are the bytes
    [bytepos, bytepos + len) of [T], and the end of the window never
    moves back. *)
Theorem cache_window_on_stream T m reqs :
  wf m -> coherent T m -> Forall (valid_request m) reqs ->
  let m' := run_requests m reqs in
  bytepos (hnd m') + len (hnd m') <= zlen T
  /\ window m' = slice T (bytepos (hnd m')) (len (hnd m'))
  /\ bytepos (hnd m) + len (hnd m) <= bytepos (hnd m') + len (hnd m').
Proof.
  intros Hwf Hco Hv m'.
  pose proof (run_requests_reach T reqs m Hwf Hco Hv) as Hr. fold m' in Hr.
  pose proof (reach_wf _ _ Hr) as Hwf'.
  pose proof (reach_coherent _ _ Hr T Hco) as Hco'.
  pose proof (wf_len _ Hwf') as Hl.
  split; [apply coherent_zlen; assumption|].
  split; [|apply (reach_end _ _ Hr)].
  unfold window.
  rewrite (cache_read T m' 0 (len (hnd m')) Hwf' Hco') by lia.
  f_equal. lia.
Qed.

(** *** The properties at concrete handles *)

(** X1 on the 20-byte stream of [demo 1 10 2]: the request [2, 7). *)
Lemma get_samples_serves_stream_witness :
  exists m' p,
    get_samples (demo 1 10 2) 2 7 = (m', Ret (Some p))
    /\ (2 * samplesize (hnd (demo 1 10 2))
        < zlen (decoded_stream (demo 1 10 2))
        /\ size p
           = Z.min (7 * samplesize (hnd (demo 1 10 2)))
                   (zlen (decoded_stream (demo 1 10 2)))
             - 2 * samplesize (hnd (demo 1 10 2))
        /\ data p
           = slice (decoded_stream (demo 1 10 2))
                   (2 * samplesize (hnd (demo 1 10 2))) (size p)
        /\ zlen (data p) = size p
        /\ wf m' /\ coherent (decoded_stream (demo 1 10 2)) m').
Proof.
  eexists _, _.
  split; [vm_compute; reflexivity|].
  eapply (get_samples_serves_stream (decoded_stream (demo 1 10 2))
            (demo 1 10 2) 2 7).
  - exact LavfClaims.demo_wf_1_10_2.
  - apply fresh_coherent; reflexivity.
  - lia.
  - vm_compute; reflexivity.
  - vm_compute; reflexivity.
Defined.

(** X2 for the request [0, 30), which runs past the end of the stream. *)
Lemma get_samples_no_assert_witness :
  snd (get_samples (demo 1 10 2) 0 30) <> AssertFail
  /\ snd (get_samples (demo 1 10 2) 0 30) <> NoFuel.
Proof.
  apply (get_samples_no_assert (demo 1 10 2) 0 30).
  - exact LavfClaims.demo_wf_1_10_2.
  - lia.
  - vm_compute; reflexivity.
Defined.

Lemma demo_wide_wf : wf (demo_wide 1 10 2).
Proof. LavfClaims.closed_wf. Qed.

Lemma demo_wide_stream :
  decoded_stream (demo_wide 1 10 2) = decoded_stream (demo 1 10 2).
Proof. vm_compute; reflexivity. Qed.


(** X4 over three requests, the last one behind the window. *)
Lemma cache_window_on_stream_witness :
  let m := demo 1 10 2 in
  let m' := run_requests m [(0, 4); (2, 19); (1, 3)] in
  bytepos (hnd m') + len (hnd m') <= zlen (decoded_stream m)
  /\ window m' = slice (decoded_stream m) (bytepos (hnd m')) (len (hnd m'))
  /\ bytepos (hnd m) + len (hnd m) <= bytepos (hnd m') + len (hnd m').
Proof.
  apply (cache_window_on_stream (decoded_stream (demo 1 10 2)) (demo 1 10 2)
           [(0, 4); (2, 19); (1, 3)]).
  - exact LavfClaims.demo_wf_1_10_2.
  - apply fresh_coherent; reflexivity.
  - repeat constructor; simpl; lia.
Defined.

End LavfMoreA.

Module LavfMoreB.

Import Lavf Pkt LavfSpec LavfMoreSpec LavfFacts LavfMore Demo.

(** *** The direct copy, step by step *)

(** A request that fits: after the first [fill_buffer_until],
    [get_samples] is the direct copy. *)
Lemma get_samples_direct_unfold m a b m0 v :
  wf m -> 0 <= a < b -> b * samplesize (hnd m) < 2 ^ 62 ->
  fill_buffer_until m a = (m0, Ret v) -> 0 <= v ->
  (b - a) * samplesize (hnd m) + surplus (hnd m) <= bufsize (hnd m) ->
  reach m m0
  /\ errored (st m) = false
  /\ bytepos (hnd m0) <= a * samplesize (hnd m)
  /\ ((errored (st m0) = false
       /\ a * samplesize (hnd m) < bytepos (hnd m0) + len (hnd m0))
      \/ errored (st m0) = true)
  /\ get_samples m a b
     = direct_branch m0 a b ((b - a) * samplesize (hnd m)).
Proof.
  intros Hwf Hab Hb E Hv Hfit.
  pose proof (wf_samplesize _ Hwf) as Hss.
  assert (Ha : 0 <= a * samplesize (hnd m) < 2 ^ 62) by nia.
  destruct (fill_buffer_until_spec m a Hwf Ha) as (m0' & v' & E' & Hr & Hcase).
  rewrite E in E'. inversion E'; subst m0' v'. clear E'.
  destruct Hcase as [(-> & _) | (_ & He & Hbp & Hcase)]; [lia|].
  split; [assumption|]. split; [assumption|]. split; [assumption|].
  split; [destruct Hcase as [(H1 & H2) | (H1 & _)]; [left; auto | right; auto]|].
  pose proof (reach_wf _ _ Hr) as Hwf0.
  pose proof (reach_samplesize _ _ Hr) as Hss0.
  pose proof (reach_bufsize _ _ Hr) as Hbs0.
  pose proof (reach_surplus _ _ Hr) as Hsu0.
  pose proof Hwf0 as [W1 W2 W3 W4 W5 W6 W7 W8 W9].
  pose proof (steps_bytes_nonneg (pkt_temp_steps (st m0))).
  pose proof (events_bytes_nonneg (lavf (hnd m0))).
  unfold pending in W7.
  unfold get_samples.
  replace (Z.to_nat (b - a)) with (S (Z.to_nat (b - a - 1))) by lia.
  rewrite get_samples_rec_unfold.
  replace ((0 <=? a) && (a <? b)) with true
    by (symmetry; apply andb_true_iff; split;
        [apply Z.leb_le | apply Z.ltb_lt]; lia).
  simpl negb. cbv iota. rewrite E. unfold bind_fill at 1.
  replace (v <? 0) with false by (symmetry; apply Z.ltb_ge; lia).
  cbv zeta. rewrite Hss0, Hbs0, Hsu0.
  set (ss := samplesize (hnd m)) in *.
  assert (Hsz : 0 <= (b - a) * ss < 2 ^ 62) by nia.
  rewrite (s64_small ((b - a) * ss)) by lia.
  rewrite (s64_small ((b - a) * ss + surplus (hnd m))) by lia.
  replace (bufsize (hnd m) <? (b - a) * ss + surplus (hnd m)) with false
    by (symmetry; apply Z.ltb_ge; lia).
  reflexivity.
Qed.

(** What the direct copy returns from a state where the first sample is
    resident. *)
Lemma direct_branch_eq m0 a b m1 v1 :
  wf m0 -> 0 <= a < b -> b * samplesize (hnd m0) < 2 ^ 62 ->
  (b - a) * samplesize (hnd m0) + surplus (hnd m0) <= bufsize (hnd m0) ->
  errored (st m0) = false ->
  bytepos (hnd m0) <= a * samplesize (hnd m0)
    < bytepos (hnd m0) + len (hnd m0) ->
  fill_buffer_until m0 b = (m1, Ret v1) ->
  reach m0 m1
  /\ v1 = bytepos (hnd m1) + len (hnd m1)
  /\ (v1 <= b * samplesize (hnd m0) -> errored (st m1) = true)
  /\ direct_branch m0 a b ((b - a) * samplesize (hnd m0))
     = (m1, if a * samplesize (hnd m0) <? bytepos (hnd m1) then Undefined
            else Ret (Some (direct_packet m1 a b))).
Proof.
  intros Hwf Hab Hb Hfit He0 Hwin E.
  pose proof (wf_samplesize _ Hwf) as Hss.
  assert (Hbpos : 0 <= b * samplesize (hnd m0) < 2 ^ 62) by nia.
  assert (Hab' : a * samplesize (hnd m0) < b * samplesize (hnd m0)) by nia.
  destruct (fill_buffer_until_spec m0 b Hwf Hbpos)
    as (m1' & v' & E' & Hr & Hcase).
  rewrite E in E'. inversion E'; subst m1' v'. clear E'.
  destruct Hcase as [(_ & _ & [Hc | Hc]) | (-> & _ & Hbp & Hcase)];
    [congruence | lia |].
  split; [assumption|]. split; [reflexivity|].
  split; [intros Hlt; destruct Hcase as [(_ & Hin) | (He1 & _)]; [lia | assumption]|].
  unfold direct_branch, direct_packet. rewrite E. simpl.
  pose proof (reach_wf _ _ Hr) as Hwf1.
  pose proof (reach_end _ _ Hr) as Hend.
  pose proof (reach_bytepos _ _ Hr) as Hbp1.
  pose proof (reach_bufsize _ _ Hr) as Hbs.
  rewrite (reach_samplesize _ _ Hr).
  destruct Hwf1 as [W1 W2 W3 W4 W5 W6 W7 W8 W9].
  pose proof (steps_bytes_nonneg (pkt_temp_steps (st m1))).
  pose proof (events_bytes_nonneg (lavf (hnd m1))).
  unfold pending in W7.
  set (ss := samplesize (hnd m0)) in *.
  set (bp := bytepos (hnd m1)) in *.
  set (ln := len (hnd m1)) in *.
  assert (Ha : 0 <= a * ss < b * ss) by nia.
  replace (bp + ln <? 0) with false by (symmetry; apply Z.ltb_ge; lia).
  rewrite (s64_small (a * ss)) by lia.
  rewrite (s64_u64 (a * ss - bp)) by lia.
  rewrite (s64_small (b * ss)) by lia.
  replace (a * ss - bp <? 0) with (a * ss <? bp)
    by (destruct (a * ss <? bp) eqn:Q;
        [apply Z.ltb_lt in Q; symmetry; apply Z.ltb_lt; lia
        |apply Z.ltb_ge in Q; symmetry; apply Z.ltb_ge; lia]).
  destruct (bp + ln <? b * ss) eqn:Elt;
    [apply Z.ltb_lt in Elt | apply Z.ltb_ge in Elt].
  - replace (bp + ln - bp - (a * ss - bp)) with (bp + ln - a * ss) by lia.
    rewrite (s64_u64 (bp + ln - a * ss)) by lia.
    rewrite (s64_small (a * ss - bp + (bp + ln - a * ss))) by lia.
    replace (a * ss - bp + (bp + ln - a * ss) <=? bufsize (hnd m1)) with true
      by (symmetry; apply Z.leb_le; lia).
    replace (bp + ln - a * ss <? 0) with false
      by (symmetry; apply Z.ltb_ge; lia).
    simpl. rewrite orb_false_r. destruct (a * ss <? bp); reflexivity.
  - assert (Hle : b * ss - bp <= bufsize (hnd m1)).
    { destruct Hcase as [(_ & Hin) | (_ & Hout)]; lia. }
    rewrite (s64_small (a * ss - bp + (b - a) * ss)) by lia.
    replace (a * ss - bp + (b - a) * ss <=? bufsize (hnd m1)) with true
      by (symmetry; apply Z.leb_le; lia).
    replace ((b - a) * ss <? 0) with false
      by (symmetry; apply Z.ltb_ge; lia).
    simpl. rewrite orb_false_r. destruct (a * ss <? bp); reflexivity.
Qed.

(** A request whose first [fill_buffer_until] is refused returns
    [NULL]. *)
Lemma get_samples_refused m a b m0 v :
  0 <= a < b -> fill_buffer_until m a = (m0, Ret v) -> v < 0 ->
  get_samples m a b = (m0, Ret None).
Proof.
  intros Hab E Hv. unfold get_samples.
  replace (Z.to_nat (b - a)) with (S (Z.to_nat (b - a - 1))) by lia.
  rewrite get_samples_rec_unfold.
  replace ((0 <=? a) && (a <? b)) with true
    by (symmetry; apply andb_true_iff; split;
        [apply Z.leb_le | apply Z.ltb_lt]; lia).
  simpl negb. cbv iota. rewrite E. unfold bind_fill.
  replace (v <? 0) with true by (symmetry; apply Z.ltb_lt; lia).
  reflexivity.
Qed.

(** The three ways a valid request on a well-formed handle goes on after
    its first [fill_buffer_until]. *)
Lemma get_samples_cases m a b :
  wf m -> 0 <= a < b -> b * samplesize (hnd m) < 2 ^ 62 ->
  exists m0 v,
    fill_buffer_until m a = (m0, Ret v) /\ reach m m0
    /\ ((v < 0 /\ get_samples m a b = (m0, Ret None))
        \/ (0 <= v
            /\ bufsize (hnd m) < (b - a) * samplesize (hnd m) + surplus (hnd m))
        \/ (0 <= v
            /\ (b - a) * samplesize (hnd m) + surplus (hnd m) <= bufsize (hnd m))).
Proof.
  intros Hwf Hab Hb.
  pose proof (wf_samplesize _ Hwf) as Hss.
  assert (Ha : 0 <= a * samplesize (hnd m) < 2 ^ 62) by nia.
  destruct (fill_buffer_until_spec m a Hwf Ha) as (m0 & v & E & Hr & Hcase).
  exists m0, v. split; [assumption|]. split; [assumption|].
  destruct Hcase as [(-> & _) | (-> & _ & Hbp & _)].
  - left. split; [lia|]. eapply get_samples_refused; [assumption|exact E|lia].
  - pose proof (wf_len _ (reach_wf _ _ Hr)).
    pose proof (wf_bytepos _ (reach_wf _ _ Hr)).
    destruct (Z_lt_le_dec (bufsize (hnd m))
                ((b - a) * samplesize (hnd m) + surplus (hnd m)));
      [right; left | right; right]; split; lia || assumption.
Qed.

End LavfMoreB.

Module LavfMoreC.

Import Lavf Pkt LavfSpec LavfMoreSpec LavfFacts LavfMore Demo DemoMore.
Import LavfClaims LavfMoreA LavfMoreB.

(** *** Requests that fit the buffer *)

(** X5.  A request that fits the buffer ([size + surplus <= capacity]) and
    whose first sample is resident after the first fill returns the
    direct copy out of the buffer, unless filling up to the last sample
    has moved the window past the first sample: then the copy starts
    before the buffer. *)
Theorem get_samples_direct m a b m0 v m1 v1 :
  wf m -> 0 <= a < b -> b * samplesize (hnd m) < 2 ^ 62 ->
  (b - a) * samplesize (hnd m) + surplus (hnd m) <= bufsize (hnd m) ->
  fill_buffer_until m a = (m0, Ret v) -> 0 <= v ->
  errored (st m0) = false ->
  fill_buffer_until m0 b = (m1, Ret v1) ->
  get_samples m a b
  = (m1, if a * samplesize (hnd m) <? bytepos (hnd m1) then Undefined
         else Ret (Some (direct_packet m1 a b))).
Proof.
  intros Hwf Hab Hb Hfit E Hv He0 E1.
  destruct (get_samples_direct_unfold m a b m0 v Hwf Hab Hb E Hv Hfit)
    as (Hr & He & Hbp & Hcase & Hun).
  destruct Hcase as [(_ & Hin) | Hc]; [|congruence].
  pose proof (reach_samplesize _ _ Hr) as Hss0.
  pose proof (reach_bufsize _ _ Hr) as Hbs0.
  pose proof (reach_surplus _ _ Hr) as Hsu0.
  destruct (direct_branch_eq m0 a b m1 v1 (reach_wf _ _ Hr) Hab)
    as (_ & _ & _ & Hd); rewrite ?Hss0, ?Hbs0, ?Hsu0; try assumption;
    try lia.
  rewrite Hun. rewrite Hss0 in Hd. exact Hd.
Qed.

(** *** The end of the stream *)

Lemma direct_branch_errored m0 a b sz :
  errored (st m0) = true -> direct_branch m0 a b sz = (m0, Ret None).
Proof.
  intros He. unfold direct_branch, fill_buffer_until. rewrite He. reflexivity.
Qed.

(** A served request that reaches the end of the decoded stream leaves
    [errored] set. *)
Lemma get_samples_end_errored T n :
  forall m a b m' p,
    (Z.to_nat (b - a) <= n)%nat ->
    wf m -> coherent T m ->
    0 <= a < b -> b * samplesize (hnd m) < 2 ^ 62 ->
    get_samples m a b = (m', Ret (Some p)) ->
    zlen T <= b * samplesize (hnd m) ->
    errored (st m') = true.
Proof.
  induction n as [|n IH]; intros m a b m' p Hn Hwf Hco Hab Hb E HT; [lia|].
  pose proof (wf_samplesize _ Hwf) as Hss.
  destruct (get_samples_cases m a b Hwf Hab Hb)
    as (m0 & v & Ef & Hr & [(_ & En) | [(Hv & Hsplit) | (Hv & Hfit)]]).
  - congruence.
  - destruct (get_samples_split_unfold m a b m0 v Hwf Hab Hb Ef Hv Hsplit)
      as (Hwf0 & Hss0 & _ & (Hpiv & Hspan) & Hun).
    set (pivot := a + Z.quot (bufsize (hnd m) - 2 * surplus (hnd m))
                            (samplesize (hnd m))) in *.
    set (ss := samplesize (hnd m)) in *.
    pose proof (reach_coherent _ _ Hr T Hco) as Hco0.
    assert (Hps : pivot * ss < b * ss) by (apply Z.mul_lt_mono_pos_r; lia).
    assert (Hap : a * ss < pivot * ss) by (apply Z.mul_lt_mono_pos_r; lia).
    rewrite Hun in E. unfold split_branch in E.
    destruct (get_samples m0 a pivot) as [m1 [[prev|]| | |]] eqn:E1;
      try discriminate.
    destruct (get_samples_stream T m0 a pivot m1 prev Hwf0 Hco0)
      as (P1 & P2 & _ & _ & Hwf1 & Hco1);
      rewrite ?Hss0; fold ss; try assumption; try lia.
    rewrite Hss0 in P1, P2. fold ss in P1, P2.
    destruct (size prev <? (pivot - a) * ss) eqn:Elt.
    + apply Z.ltb_lt in Elt. inversion E; subst m' p.
      apply (IH m0 a pivot m1 prev); rewrite ?Hss0; fold ss;
        try assumption; try lia.
    + destruct (negb (size prev =? (pivot - a) * ss)); [discriminate|].
      destruct (get_samples m1 pivot b) as [m2 [[next|]| | |]] eqn:E2;
        try discriminate.
      inversion E; subst m' p.
      assert (Hss1 : samplesize (hnd m1) = ss).
      { destruct (get_samples_spec T m0 a pivot Hwf0 Hco0) as (x & y & Ex & Hrx & _);
          rewrite ?Hss0; fold ss; try assumption; try lia.
        rewrite E1 in Ex. inversion Ex; subst x y.
        rewrite (reach_samplesize _ _ Hrx). assumption. }
      apply (IH m1 pivot b m2 next); rewrite ?Hss1;
        try assumption; try lia.
  - destruct (get_samples_direct_unfold m a b m0 v Hwf Hab Hb Ef Hv Hfit)
      as (_ & He & Hbp & Hcase & Hun).
    rewrite Hun in E.
    destruct Hcase as [(He0 & Hin) | He0];
      [|rewrite (direct_branch_errored _ _ _ _ He0) in E; discriminate].
    pose proof (reach_wf _ _ Hr) as Hwf0.
    pose proof (reach_coherent _ _ Hr T Hco) as Hco0.
    pose proof (reach_samplesize _ _ Hr) as Hss0.
    pose proof (reach_bufsize _ _ Hr) as Hbs0.
    pose proof (reach_surplus _ _ Hr) as Hsu0.
    assert (Hb0 : 0 <= b * samplesize (hnd m0) < 2 ^ 62) by (rewrite Hss0; nia).
    destruct (fill_buffer_until_spec m0 b Hwf0 Hb0) as (m1 & v1 & E1 & _ & _).
    destruct (direct_branch_eq m0 a b m1 v1 Hwf0 Hab)
      as (Hr1 & Hv1 & Herr & Hd); rewrite ?Hss0, ?Hbs0, ?Hsu0;
      try assumption; try lia.
    rewrite Hss0 in Hd, Herr. rewrite Hd in E.
    assert (m' = m1) by (destruct (_ <? _) in E; inversion E; reflexivity).
    subst m'. apply Herr.
    pose proof (coherent_zlen _ _ (reach_coherent _ _ Hr1 T Hco0)). lia.
Qed.

(** X6.  A request that reaches the end of the decoded stream, even one
    that is served in full because it ends exactly there, leaves the
    handle refusing every later request, also for bytes that are still
    resident. *)
Theorem end_of_stream_is_sticky T m a b m' p :
  wf m -> coherent T m ->
  0 <= a < b -> b * samplesize (hnd m) < 2 ^ 62 ->
  get_samples m a b = (m', Ret (Some p)) ->
  zlen T <= b * samplesize (hnd m) ->
  errored (st m') = true
  /\ forall a' b', 0 <= a' < b' -> get_samples m' a' b' = (m', Ret None).
Proof.
  intros Hwf Hco Hab Hb E HT.
  assert (He : errored (st m') = true).
  { eapply (get_samples_end_errored T (Z.to_nat (b - a))); eauto. }
  split; [assumption|].
  intros a' b' Hab'. apply get_samples_errored; assumption.
Qed.

Lemma has_eof_direct_packet m1 a b :
  has_eof (direct_packet m1 a b)
  = (bytepos (hnd m1) + len (hnd m1) <? b * samplesize (hnd m1)).
Proof.
  unfold direct_packet, has_eof. simpl.
  destruct (bytepos (hnd m1) + len (hnd m1) <? b * samplesize (hnd m1));
    reflexivity.
Qed.

(** X7.  The end-of-stream flag is only ever set on a packet that is
    shorter than the request; and for a request that fits the buffer it
    is set on every such packet. *)
Theorem eof_flag_means_short m a b m' p :
  wf m -> 0 <= a < b -> b * samplesize (hnd m) < 2 ^ 62 ->
  get_samples m a b = (m', Ret (Some p)) ->
  (has_eof p = true -> size p < (b - a) * samplesize (hnd m))
  /\ ((b - a) * samplesize (hnd m) + surplus (hnd m) <= bufsize (hnd m) ->
      size p < (b - a) * samplesize (hnd m) -> has_eof p = true).
Proof.
  intros Hwf Hab Hb E.
  pose proof (wf_samplesize _ Hwf) as Hss.
  destruct (get_samples_cases m a b Hwf Hab Hb)
    as (m0 & v & Ef & Hr & [(_ & En) | [(Hv & Hsplit) | (Hv & Hfit)]]).
  - congruence.
  - destruct (get_samples_split_unfold m a b m0 v Hwf Hab Hb Ef Hv Hsplit)
      as (Hwf0 & Hss0 & _ & (Hpiv & Hspan) & Hun).
    set (pivot := a + Z.quot (bufsize (hnd m) - 2 * surplus (hnd m))
                            (samplesize (hnd m))) in *.
    set (ss := samplesize (hnd m)) in *.
    assert (Hps : (pivot - a) * ss < (b - a) * ss)
      by (apply Z.mul_lt_mono_pos_r; lia).
    split; [|intros Hfit; lia].
    rewrite Hun in E. unfold split_branch in E.
    destruct (get_samples m0 a pivot) as [m1 [[prev|]| | |]] eqn:E1;
      try discriminate.
    destruct (size prev <? (pivot - a) * ss) eqn:Elt.
    + apply Z.ltb_lt in Elt. inversion E; subst m' p. simpl. lia.
    + destruct (negb (size prev =? (pivot - a) * ss)); [discriminate|].
      destruct (get_samples m1 pivot b) as [m2 [[next|]| | |]] eqn:E2;
        try discriminate.
      inversion E; subst m' p. unfold has_eof. simpl. discriminate.
  - destruct (get_samples_direct_unfold m a b m0 v Hwf Hab Hb Ef Hv Hfit)
      as (_ & He & Hbp & Hcase & Hun).
    rewrite Hun in E.
    destruct Hcase as [(He0 & Hin) | He0];
      [|rewrite (direct_branch_errored _ _ _ _ He0) in E; discriminate].
    pose proof (reach_wf _ _ Hr) as Hwf0.
    pose proof (reach_samplesize _ _ Hr) as Hss0.
    pose proof (reach_bufsize _ _ Hr) as Hbs0.
    pose proof (reach_surplus _ _ Hr) as Hsu0.
    assert (Hb0 : 0 <= b * samplesize (hnd m0) < 2 ^ 62) by (rewrite Hss0; nia).
    destruct (fill_buffer_until_spec m0 b Hwf0 Hb0) as (m1 & v1 & E1 & _ & _).
    destruct (direct_branch_eq m0 a b m1 v1 Hwf0 Hab)
      as (Hr1 & Hv1 & Herr & Hd); rewrite ?Hss0, ?Hbs0, ?Hsu0;
      try assumption; try lia.
    rewrite Hss0 in Hd. rewrite Hd in E.
    destruct (a * samplesize (hnd m) <? bytepos (hnd m1)); [discriminate|].
    inversion E; subst m' p. rewrite has_eof_direct_packet.
    pose proof (reach_samplesize _ _ Hr1) as Hss1. rewrite Hss0 in Hss1.
    unfold direct_packet. simpl. rewrite Hss1.
    destruct (bytepos (hnd m1) + len (hnd m1) <? b * samplesize (hnd m)) eqn:Q;
      [apply Z.ltb_lt in Q | apply Z.ltb_ge in Q]; split; intros; try lia;
      try reflexivity; try discriminate.
Qed.

(** *** The properties at concrete handles *)

Lemma demo_wf_1_6_5 : wf (demo 1 6 5).
Proof. LavfClaims.closed_wf. Qed.

(** X5 with decoded units of 5 bytes, longer than the surplus of 3: the
    request [4, 17) fits the 16-byte buffer, but buffering up to byte 17
    moves the window to byte 5, so the copy would start one byte before
    the buffer. *)
Lemma get_samples_direct_witness :
  exists m0 v m1 v1,
    fill_buffer_until (demo 1 6 5) 4 = (m0, Ret v)
    /\ fill_buffer_until m0 17 = (m1, Ret v1)
    /\ bytepos (hnd m1) = 5
    /\ get_samples (demo 1 6 5) 4 17
       = (m1, if 4 * samplesize (hnd (demo 1 6 5)) <? bytepos (hnd m1)
              then Undefined
              else Ret (Some (direct_packet m1 4 17))).
Proof.
  eexists _, _, _, _.
  split; [vm_compute; reflexivity|].
  split; [vm_compute; reflexivity|].
  split; [vm_compute; reflexivity|].
  eapply (get_samples_direct (demo 1 6 5) 4 17).
  - exact demo_wf_1_6_5.
  - lia.
  - vm_compute; reflexivity.
  - vm_compute; discriminate.
  - vm_compute; reflexivity.
  - vm_compute; discriminate.
  - vm_compute; reflexivity.
  - vm_compute; reflexivity.
Defined.

(** X6 on the 20-byte stream: the request [10, 20) is served in full,
    and nothing can be read afterwards. *)
Lemma end_of_stream_is_sticky_witness :
  exists m' p,
    get_samples (demo 1 10 2) 10 20 = (m', Ret (Some p))
    /\ size p = 10
    /\ (errored (st m') = true
        /\ forall a' b', 0 <= a' < b' ->
             get_samples m' a' b' = (m', Ret None)).
Proof.
  eexists _, _.
  split; [vm_compute; reflexivity|].
  split; [vm_compute; reflexivity|].
  eapply (end_of_stream_is_sticky (decoded_stream (demo 1 10 2))
            (demo 1 10 2) 10 20).
  - exact LavfClaims.demo_wf_1_10_2.
  - apply fresh_coherent; reflexivity.
  - lia.
  - vm_compute; reflexivity.
  - vm_compute; reflexivity.
  - vm_compute; discriminate.
Defined.

(** X7 on a 6-byte stream: the request [2, 10) comes back with 4 bytes
    and the flag. *)
Lemma eof_flag_means_short_witness :
  exists m' p,
    get_samples (demo 1 3 2) 2 10 = (m', Ret (Some p))
    /\ ((has_eof p = true ->
         size p < (10 - 2) * samplesize (hnd (demo 1 3 2)))
        /\ ((10 - 2) * samplesize (hnd (demo 1 3 2))
              + surplus (hnd (demo 1 3 2)) <= bufsize (hnd (demo 1 3 2)) ->
            size p < (10 - 2) * samplesize (hnd (demo 1 3 2)) ->
            has_eof p = true)).
Proof.
  eexists _, _.
  split; [vm_compute; reflexivity|].
  eapply (eof_flag_means_short (demo 1 3 2) 2 10).
  - exact LavfClaims.demo_wf_1_3_2.
  - lia.
  - vm_compute; reflexivity.
  - vm_compute; reflexivity.
Defined.

End LavfMoreC.

Module LavfMoreD.

Import Lavf Pkt LavfSpec LavfMoreSpec LavfFacts LavfMore Demo DemoMore.

(** *** The demuxer and the decoder *)

(** X8.  [next_packet] returns the first packet of the selected track
    and discards the packets of other tracks that come before it; it
    returns [NULL] when a read error or the end of the file comes first,
    the packets before that point being discarded as well. *)
Theorem next_packet_selects trk l rest r :
  next_packet trk l = (rest, r) ->
  exists skipped,
    Forall (other_track trk) skipped
    /\ match r with
       | Some p => stream_index p = trk /\ l = skipped ++ Frame p :: rest
       | None => (l = skipped /\ rest = [])
                 \/ l = skipped ++ ReadError :: rest
       end.
Proof.
  revert rest r. induction l as [|[p|] l IH]; simpl; intros rest r H.
  - inversion H; subst. exists []. split; [constructor|]. left. auto.
  - destruct (stream_index p =? trk) eqn:Et.
    + inversion H; subst. apply Z.eqb_eq in Et.
      exists []. split; [constructor|]. auto.
    + apply Z.eqb_neq in Et.
      destruct (IH _ _ H) as (sk & Hsk & Hr).
      exists (Frame p :: sk). split; [constructor; assumption|].
      destruct r as [q|].
      * destruct Hr as (Hq & ->). auto.
      * destruct Hr as [(-> & ->) | ->]; [left | right]; auto.
  - inversion H; subst. exists []. split; [constructor|]. right. reflexivity.
Qed.

Lemma next_packet_outs trk l rest r :
  next_packet trk l = (rest, r) ->
  incl (match r with Some p => good_outs (steps p) | None => [] end
        ++ track_outs trk rest)
       (track_outs trk l)
  /\ (exists pre, l = pre ++ rest)
  /\ (r = None -> stopped l rest).
Proof.
  revert rest r. induction l as [|[p|] l IH]; simpl; intros rest r H.
  - inversion H; subst. split; [apply incl_refl|].
    split; [exists []; reflexivity|]. intros _. exists []. left. auto.
  - destruct (stream_index p =? trk) eqn:Et.
    + inversion H; subst. split; [apply incl_refl|].
      split; [exists [Frame p]; reflexivity|]. discriminate.
    + destruct (IH _ _ H) as (Hi & (pre & Hp) & Hs).
      split; [exact Hi|]. split; [exists (Frame p :: pre); simpl; congruence|].
      intros Hn. destruct (Hs Hn) as (pre' & [(-> & ->) | ->]).
      * exists (Frame p :: pre'). left. auto.
      * exists (Frame p :: pre'). right. reflexivity.
  - inversion H; subst. split; [apply incl_refl|].
    split; [exists [ReadError]; reflexivity|].
    intros _. exists []. right. reflexivity.
Qed.

Lemma good_outs_tail d more : incl (good_outs more) (good_outs (d :: more)).
Proof.
  destruct d as [|c o]; simpl; [apply incl_refl|].
  destruct (c <? 0); [apply incl_refl | apply incl_tl, incl_refl].
Qed.

Ltac low_step_tac Hi Hpre Hstop :=
  constructor;
  [ reflexivity
  | exact Hpre
  | unfold answers; simpl in *;
    repeat match goal with
           | Hc : (?c <? 0) = true |- context [?c <? 0] => rewrite Hc
           end;
    first [ exact Hi
          | apply incl_appr; exact Hi
          | apply incl_app; [apply incl_appl, incl_refl | apply incl_appr; exact Hi] ]
  | intros; lia
  | intros; first [lia | split; [reflexivity | apply Hstop; reflexivity]] ].

Ltac refill_step :=
  match goal with
  | |- context [next_packet ?t ?l] =>
      let E := fresh "E" in
      let Hi := fresh "Hi" in
      let Hpre := fresh "Hpre" in
      let Hstop := fresh "Hstop" in
      let H := fresh "H" in
      let rest := fresh "rest" in
      let r := fresh "r" in
      destruct (next_packet t l) as [rest r] eqn:E;
      apply next_packet_outs in E;
      destruct E as (Hi & Hpre & Hstop);
      destruct r;
      intros H; inversion H; subst; clear H;
      low_step_tac Hi Hpre Hstop
  end.

Lemma low_decode_audio_step m m' n out :
  low_decode_audio m = (m', n, out) -> low_step m m' n out.
Proof.
  destruct m as [[tsz tst pk dw wn er] [lv trk buf bsz sur ln bp ss]].
  unfold low_decode_audio. simpl.
  destruct (pk && (0 <? tsz)).
  - destruct tst as [|[|c o] more].
    + refill_step.
    + refill_step.
    + simpl. destruct (c <? 0) eqn:Ec.
      * refill_step.
      * intros H; inversion H; subst; clear H.
        constructor; unfold answers; simpl; rewrite ?Ec.
        -- reflexivity.
        -- exists []. reflexivity.
        -- simpl. apply incl_tl, incl_refl.
        -- intros _. split; [left; reflexivity | reflexivity].
        -- intros Hn. pose proof (zlen_nonneg out). lia.
  - refill_step.
Qed.

Lemma stopped_after l l1 l2 :
  (exists pre, l = pre ++ l1) -> stopped l1 l2 -> stopped l l2.
Proof.
  intros (pre0 & ->) (pre & [(-> & ->) | ->]).
  - exists (pre0 ++ pre). left. auto.
  - exists (pre0 ++ pre). right. now rewrite app_assoc.
Qed.

Lemma decode_loop_provenance fuel :
  forall m m' r,
    decode_loop fuel m = Some (m', r) ->
    track (hnd m') = track (hnd m)
    /\ (exists pre, lavf (hnd m) = pre ++ lavf (hnd m'))
    /\ incl (answers m') (answers m)
    /\ match r with
       | Some u => In u (answers m) /\ 0 < zlen u
       | None => pkt (st m') = false /\ stopped (lavf (hnd m)) (lavf (hnd m'))
       end.
Proof.
  induction fuel as [|f IH]; intros m m' r H; simpl in H; [discriminate|].
  destruct (low_decode_audio m) as [[m1 n] out] eqn:E.
  apply low_decode_audio_step in E. destruct E as [Ht Hs Ha Hu Hn].
  destruct (n =? 0) eqn:E0.
  - destruct (IH _ _ _ H) as (Ht' & (pre' & Hs') & Ha' & Hr).
    destruct Hs as (pre & Hs).
    split; [congruence|].
    split; [exists (pre ++ pre'); rewrite Hs, Hs'; now rewrite app_assoc|].
    split; [eapply incl_tran; eassumption|].
    destruct r as [u|].
    + destruct Hr as (Hin & Hz). split; [apply Ha; assumption | assumption].
    + destruct Hr as (Hp & Hst). split; [assumption|].
      eapply stopped_after; [exists pre; exact Hs | exact Hst].
  - apply Z.eqb_neq in E0. destruct (n <? 0) eqn:E1.
    + apply Z.ltb_lt in E1. inversion H; subst m' r.
      split; [assumption|]. split; [assumption|]. split; [assumption|].
      apply Hn. assumption.
    + apply Z.ltb_ge in E1. inversion H; subst m' r.
      split; [assumption|]. split; [assumption|]. split; [assumption|].
      destruct (Hu ltac:(lia)) as (Hin & Hz). split; [assumption | lia].
Qed.

(** X9.  [decode_next_frame] never makes up data and never hands out an
    empty unit: what it returns is one of the decoder's successful
    answers for the current packet or for a later packet of the selected
    track, and it has at least one byte. *)
Theorem decode_next_frame_unit m m' u :
  decode_next_frame m = (m', Some u) ->
  In u (answers m) /\ 0 < zlen u /\ incl (answers m') (answers m).
Proof.
  unfold decode_next_frame.
  destruct (decode_loop (S (work m)) m) as [[m1 r]|] eqn:E;
    [|discriminate].
  intros H. inversion H; subst m1 r.
  apply decode_loop_provenance in E. destruct E as (_ & _ & Ha & Hin & Hz).
  auto.
Qed.

(** X10.  [decode_next_frame] returns [NULL] only when the demuxer is at
    the end of the file or has just reported a read error; the static
    packet pointer is then [NULL]. *)
Theorem decode_next_frame_null m m' :
  decode_next_frame m = (m', None) ->
  pkt (st m') = false /\ stopped (lavf (hnd m)) (lavf (hnd m')).
Proof.
  unfold decode_next_frame.
  destruct (decode_loop (S (work m)) m) as [[m1 r]|] eqn:E.
  - intros H. inversion H; subst m1 r.
    apply decode_loop_provenance in E. tauto.
  - exfalso. exact (decode_next_frame_total m E).
Qed.

(** *** The properties at concrete inputs *)

(** X8 on three packets, the middle one of track 0. *)
Lemma next_packet_selects_witness :
  exists rest p,
    next_packet 0 two_tracks = (rest, Some p)
    /\ exists skipped,
         Forall (other_track 0) skipped
         /\ stream_index p = 0 /\ two_tracks = skipped ++ Frame p :: rest.
Proof.
  eexists _, _.
  split; [vm_compute; reflexivity|].
  eapply (next_packet_selects 0 two_tracks _ (Some _)).
  vm_compute; reflexivity.
Defined.

(** X9 after a broken packet: the unit delivered is the answer of the
    good packet. *)
Lemma decode_next_frame_unit_witness :
  exists m' u,
    decode_next_frame (on_events broken_then_good) = (m', Some u)
    /\ (In u (answers (on_events broken_then_good))
        /\ 0 < zlen u
        /\ incl (answers m') (answers (on_events broken_then_good))).
Proof.
  eexists _, _.
  split; [vm_compute; reflexivity|].
  eapply (decode_next_frame_unit (on_events broken_then_good)).
  vm_compute; reflexivity.
Defined.

(** X10 on a read error that follows a broken packet: the good packet
    behind the error is not reached by this call. *)
Lemma decode_next_frame_null_witness :
  exists m',
    decode_next_frame (on_events broken_then_error) = (m', None)
    /\ (pkt (st m') = false
        /\ stopped (lavf (hnd (on_events broken_then_error)))
                   (lavf (hnd m'))).
Proof.
  eexists.
  split; [vm_compute; reflexivity|].
  eapply (decode_next_frame_null (on_events broken_then_error)).
  vm_compute; reflexivity.
Defined.

End LavfMoreD.

Module LavfMoreF.

Import Lavf Pkt LavfSpec LavfMoreSpec LavfFacts LavfMore LavfBrokenSpec Demo DemoMore.

(** *** Broken frames *)

(** The result of the decode loop does not depend on the fuel. *)
Lemma decode_loop_fuel f1 :
  forall f2 m r1 r2,
    decode_loop f1 m = Some r1 -> decode_loop f2 m = Some r2 -> r1 = r2.
Proof.
  induction f1 as [|f1 IH]; intros f2 m r1 r2 H1 H2; [discriminate|].
  destruct f2 as [|f2]; [discriminate|].
  simpl in H1, H2.
  destruct (low_decode_audio m) as [[m1 n] out].
  destruct (n =? 0).
  - eapply IH; eassumption.
  - congruence.
Qed.

Lemma decode_next_frame_fuel f m :
  (work m < f)%nat -> decode_loop f m = Some (decode_next_frame m).
Proof.
  intros Hf.
  destruct (decode_loop_enough f m Hf) as (m1 & r1 & E1 & _).
  destruct (decode_loop_enough (S (work m)) m ltac:(lia)) as (m2 & r2 & E2 & _).
  unfold decode_next_frame. rewrite E2, E1.
  f_equal. eapply decode_loop_fuel; eassumption.
Qed.

(** A call of [low_decode_audio] that returns [0] is invisible to the
    caller of [decode_next_frame]. *)
Lemma decode_next_frame_step m m1 out :
  low_decode_audio m = (m1, 0, out) ->
  decode_next_frame m = decode_next_frame m1.
Proof.
  intros E.
  pose proof (low_decode_audio_spec _ _ _ _ E) as (_ & Hn).
  assert (Hw : (work m1 < work m)%nat) by (destruct Hn as [[_ ?]|[?|[? _]]]; lia).
  pose proof (decode_next_frame_fuel (S (work m)) m ltac:(lia)) as H.
  simpl in H. rewrite E in H. simpl in H.
  rewrite (decode_next_frame_fuel (work m) m1 Hw) in H.
  congruence.
Qed.

Lemma low_decode_audio_broken m :
  broken_head (st m) ->
  low_decode_audio m = low_decode_audio (mkMachine (drop_packet (st m)) (hnd m)).
Proof.
  destruct m as [[tsz tst pk dw wn er] h]. unfold broken_head. simpl.
  intros (Hp & Hs & Hb). subst pk.
  unfold low_decode_audio, drop_packet. simpl.
  replace (0 <? tsz) with true by (symmetry; apply Z.ltb_lt; lia).
  destruct tst as [|[|c o] more]; simpl in *; try reflexivity.
  replace (c <? 0) with true by (symmetry; apply Z.ltb_lt; lia).
  reflexivity.
Qed.

Lemma decode_next_frame_broken m :
  broken_head (st m) ->
  decode_next_frame m
  = decode_next_frame (mkMachine (drop_packet (st m)) (hnd m)).
Proof.
  intros Hb. pose proof (low_decode_audio_broken m Hb) as E.
  set (md := mkMachine (drop_packet (st m)) (hnd m)) in *.
  destruct (low_decode_audio md) as [[m1 n] out] eqn:Ed.
  destruct (Z.eq_dec n 0) as [->|Hn].
  - rewrite (decode_next_frame_step _ _ _ E).
    rewrite (decode_next_frame_step _ _ _ Ed). reflexivity.
  - pose proof (decode_next_frame_fuel (S (work m)) m ltac:(lia)) as H1.
    pose proof (decode_next_frame_fuel (S (work md)) md ltac:(lia)) as H2.
    simpl in H1, H2. rewrite E in H1. rewrite Ed in H2.
    apply Z.eqb_neq in Hn. rewrite Hn in H1, H2. congruence.
Qed.

(** X11.  A broken frame costs the rest of its packet and one tick of the
    warning counter, nothing else: [decode_next_frame] goes on exactly
    as from the state where the packet is used up. *)
Theorem broken_frame_dropped m :
  broken_head (st m) ->
  decode_next_frame m
  = decode_next_frame (mkMachine (drop_packet (st m)) (hnd m)).
Proof. apply decode_next_frame_broken. Qed.

Lemma set_lavf_same h : set_lavf h (lavf h) = h.
Proof. destruct h; reflexivity. Qed.

(** A run of packets whose first frame is broken, seen from the caller
    of [decode_next_frame]. *)
Lemma decode_next_frame_skips ps :
  forall m rest,
    pkt (st m) && (0 <? pkt_temp_size (st m)) = false ->
    Forall (broken_packet (track (hnd m))) ps ->
    lavf (hnd m) = map Frame ps ++ rest ->
    decode_next_frame m
    = decode_next_frame (mkMachine (after_broken (st m) ps)
                                   (set_lavf (hnd m) rest)).
Proof.
  induction ps as [|p ps IH]; intros m rest Hidle Hps Hl.
  - simpl in Hl. subst rest. rewrite set_lavf_same.
    destruct m; reflexivity.
  - inversion Hps as [|? ? (Ht & Hs & Hh) Hps']; subst.
    set (m1 := mkMachine (load_packet (st m) p)
                         (set_lavf (hnd m) (map Frame ps ++ rest))).
    assert (E : low_decode_audio m = (m1, 0, [])).
    { unfold low_decode_audio. rewrite Hidle, Hl. simpl.
      rewrite Ht, Z.eqb_refl. reflexivity. }
    rewrite (decode_next_frame_step _ _ _ E).
    rewrite (decode_next_frame_broken m1)
      by (unfold broken_head, m1; simpl; auto).
    rewrite (IH (mkMachine (drop_packet (st m1)) (hnd m1)) rest).
    + unfold m1. simpl. destruct (hnd m); reflexivity.
    + reflexivity.
    + unfold m1. destruct (hnd m); simpl in *. assumption.
    + unfold m1. destruct (hnd m); reflexivity.
Qed.

(** X12.  Packets whose first frame is broken are skipped whole: after
    any run of them [decode_next_frame] continues with the packet that
    follows, the statics having counted one error per packet. *)
Theorem broken_packets_skipped ps :
  forall m rest,
    pkt (st m) && (0 <? pkt_temp_size (st m)) = false ->
    Forall (broken_packet (track (hnd m))) ps ->
    lavf (hnd m) = map Frame ps ++ rest ->
    decode_next_frame m
    = decode_next_frame (mkMachine (after_broken (st m) ps)
                                   (set_lavf (hnd m) rest)).
Proof. apply decode_next_frame_skips. Qed.

(** The two counters after a run of broken packets depend on the number
    of packets only. *)
Lemma after_broken_counters ps :
  forall s,
    (desync_warn (after_broken s ps), warnings (after_broken s ps))
    = Nat.iter (length ps) tick (desync_warn s, warnings s).
Proof.
  induction ps as [|p ps IH] using rev_ind; intros s; [reflexivity|].
  unfold after_broken in *. rewrite fold_left_app, length_app. simpl.
  rewrite Nat.add_comm. simpl. rewrite <- IH. reflexivity.
Qed.

Lemma tick_shift k d w :
  Nat.iter k tick (d, w)
  = (fst (Nat.iter k tick (d, 0%nat)),
     (snd (Nat.iter k tick (d, 0%nat)) + w)%nat).
Proof.
  induction k as [|k IH]; [reflexivity|].
  simpl. rewrite IH. unfold tick at 1 3. simpl.
  destruct (fst (Nat.iter k tick (d, 0%nat)) =? 0); reflexivity.
Qed.

Lemma tick_cycle d :
  0 <= d < 256 -> Nat.iter 256 tick (d, 0%nat) = (d, 1%nat).
Proof.
  intros Hd.
  assert (H : forallb (fun i =>
                let r := Nat.iter 256 tick (Z.of_nat i, 0%nat) in
                (fst r =? Z.of_nat i) && Nat.eqb (snd r) 1)
              (seq 0 256) = true) by (vm_compute; reflexivity).
  rewrite forallb_forall in H.
  specialize (H (Z.to_nat d)).
  rewrite Z2Nat.id in H by lia.
  assert (Hin : In (Z.to_nat d) (seq 0 256)) by (apply in_seq; lia).
  apply H in Hin. apply andb_prop in Hin. destruct Hin as [H1 H2].
  apply Z.eqb_eq in H1. apply Nat.eqb_eq in H2.
  destruct (Nat.iter 256 tick (d, 0%nat)); simpl in *. congruence.
Qed.

Lemma tick_cycles j d w :
  0 <= d < 256 -> Nat.iter (256 * j) tick (d, w) = (d, (j + w)%nat).
Proof.
  intros Hd. revert w. induction j as [|j IH]; intros w.
  - rewrite Nat.mul_0_r. reflexivity.
  - replace (256 * S j)%nat with (256 + 256 * j)%nat by lia.
    rewrite Nat.iter_add, IH, tick_shift, tick_cycle by assumption.
    simpl. f_equal; lia.
Qed.

(** After a run of broken packets the next call reads a new packet. *)
Lemma after_broken_idle ps :
  forall s,
    pkt s && (0 <? pkt_temp_size s) = false ->
    pkt (after_broken s ps) && (0 <? pkt_temp_size (after_broken s ps)) = false.
Proof.
  induction ps as [|p ps IH] using rev_ind; intros s Hs; [exact Hs|].
  unfold after_broken. rewrite fold_left_app. reflexivity.
Qed.

Lemma after_broken_errored ps :
  forall s, errored (after_broken s ps) = errored s.
Proof.
  induction ps as [|p ps IH]; intros s; [reflexivity|].
  unfold after_broken in *. simpl. rewrite IH. reflexivity.
Qed.

(** A packet of the selected track that decodes at once, read from a
    state that has to read a new packet. *)
Lemma decode_next_frame_good m good c out more rest :
  pkt (st m) && (0 <? pkt_temp_size (st m)) = false ->
  stream_index good = track (hnd m) -> 0 < Lavf.size good ->
  steps good = Decoded c out :: more -> 0 <= c -> 0 < zlen out ->
  lavf (hnd m) = Frame good :: rest ->
  decode_next_frame m
  = (mkMachine (mkStatics (s32 (Lavf.size good - c)) more true
                          (desync_warn (st m)) (warnings (st m))
                          (errored (st m)))
               (set_lavf (hnd m) rest),
     Some out).
Proof.
  intros Hidle Ht Hs Hst Hc Ho Hl.
  set (m1 := mkMachine (load_packet (st m) good) (set_lavf (hnd m) rest)).
  assert (E : low_decode_audio m = (m1, 0, [])).
  { unfold low_decode_audio. rewrite Hidle, Hl. simpl.
    rewrite Ht, Z.eqb_refl. reflexivity. }
  rewrite (decode_next_frame_step _ _ _ E).
  pose proof (decode_next_frame_fuel (S (work m1)) m1 ltac:(lia)) as H.
  simpl in H. unfold low_decode_audio in H. unfold m1 in H at 1 2 3 4 5 6.
  cbn [st hnd load_packet pkt pkt_temp_size pkt_temp_steps desync_warn
       warnings errored andb] in H.
  replace (0 <? Lavf.size good) with true in H by (symmetry; apply Z.ltb_lt; lia).
  rewrite Hst in H.
  replace (c <? 0) with false in H by (symmetry; apply Z.ltb_ge; lia).
  replace (zlen out =? 0) with false in H by (symmetry; apply Z.eqb_neq; lia).
  replace (zlen out <? 0) with false in H by (symmetry; apply Z.ltb_ge; lia).
  inversion H as [H1]. unfold m1. reflexivity.
Qed.

(** X13.  The desync warning is logged once per 256 broken frames.  When
    [256 * j] packets whose first frame is broken come before a packet
    that decodes, [decode_next_frame] delivers the output of that
    packet, exactly [j] warnings have been logged on the way and the
    [uint8_t] counter is back where it was. *)
Theorem desync_warning_every_256 m ps j good c out more rest :
  pkt (st m) && (0 <? pkt_temp_size (st m)) = false ->
  0 <= desync_warn (st m) < 256 ->
  Forall (broken_packet (track (hnd m))) ps ->
  length ps = (256 * j)%nat ->
  stream_index good = track (hnd m) -> 0 < Lavf.size good ->
  steps good = Decoded c out :: more -> 0 <= c -> 0 < zlen out ->
  lavf (hnd m) = map Frame ps ++ Frame good :: rest ->
  exists m',
    decode_next_frame m = (m', Some out)
    /\ desync_warn (st m') = desync_warn (st m)
    /\ warnings (st m') = (j + warnings (st m))%nat
    /\ errored (st m') = errored (st m)
    /\ lavf (hnd m') = rest.
Proof.
  intros Hidle Hd Hps Hlen Ht Hs Hst Hc Ho Hl.
  rewrite (decode_next_frame_skips ps m (Frame good :: rest) Hidle Hps Hl).
  pose proof (after_broken_counters ps (st m)) as Hk.
  rewrite Hlen, tick_cycles in Hk by assumption.
  inversion Hk as [[Hdw Hwn]].
  set (ms := mkMachine (after_broken (st m) ps)
                       (set_lavf (hnd m) (Frame good :: rest))).
  assert (Hidle' : pkt (st ms) && (0 <? pkt_temp_size (st ms)) = false)
    by (apply after_broken_idle; assumption).
  assert (Ht' : stream_index good = track (hnd ms))
    by (unfold ms; destruct (hnd m); assumption).
  assert (Hl' : lavf (hnd ms) = Frame good :: rest)
    by (unfold ms; destruct (hnd m); reflexivity).
  rewrite (decode_next_frame_good ms good c out more rest Hidle' Ht' Hs Hst
             Hc Ho Hl').
  eexists. split; [reflexivity|]. unfold ms. simpl.
  rewrite after_broken_errored.
  repeat split; assumption.
Qed.

(** *** The properties at concrete inputs *)

(** X11 once the broken packet of [broken_then_good] has been read. *)
Lemma broken_frame_dropped_witness :
  exists m,
    fst (fst (low_decode_audio (on_events broken_then_good))) = m
    /\ decode_next_frame m
       = decode_next_frame (mkMachine (drop_packet (st m)) (hnd m)).
Proof.
  eexists.
  split; [vm_compute; reflexivity|].
  eapply broken_frame_dropped.
  vm_compute. repeat split; reflexivity.
Defined.

(** X12 on two broken packets before a good one. *)
Lemma broken_packets_skipped_witness :
  let m := on_events (Frame broken_packet_0 :: broken_then_good) in
  let rest := [Frame (mkAVPacket 0 4 [Decoded 4 [1; 2]])] in
  decode_next_frame m
  = decode_next_frame
      (mkMachine (after_broken (st m) [broken_packet_0; broken_packet_0])
                 (set_lavf (hnd m) rest)).
Proof.
  apply (broken_packets_skipped [broken_packet_0; broken_packet_0]
           (on_events (Frame broken_packet_0 :: broken_then_good))
           [Frame (mkAVPacket 0 4 [Decoded 4 [1; 2]])]).
  - reflexivity.
  - repeat constructor.
  - reflexivity.
Defined.

(** X13 on a fresh handle: 256 broken packets, then a good one. *)
Lemma desync_warning_every_256_witness :
  let good := mkAVPacket 0 4 [Decoded 4 [1; 2]] in
  let m := on_events (map Frame (repeat broken_packet_0 256) ++ [Frame good]) in
  exists m',
    decode_next_frame m = (m', Some [1; 2])
    /\ desync_warn (st m') = desync_warn (st m)
    /\ warnings (st m') = (1 + warnings (st m))%nat
    /\ errored (st m') = errored (st m)
    /\ lavf (hnd m') = [].
Proof.
  apply (desync_warning_every_256
           (on_events (map Frame (repeat broken_packet_0 256)
                       ++ [Frame (mkAVPacket 0 4 [Decoded 4 [1; 2]])]))
           (repeat broken_packet_0 256) 1
           (mkAVPacket 0 4 [Decoded 4 [1; 2]]) 4 [1; 2] [] []).
  - reflexivity.
  - vm_compute. split; [discriminate | reflexivity].
  - apply Forall_forall. intros p Hp. apply repeat_spec in Hp. subst p.
    vm_compute. repeat split; reflexivity.
  - vm_compute; reflexivity.
  - reflexivity.
  - reflexivity.
  - reflexivity.
  - lia.
  - reflexivity.
  - reflexivity.
Defined.

End LavfMoreF.

Module LavfMoreE.

Import Lavf Pkt LavfSpec LavfMoreSpec LavfFacts LavfMore Demo DemoMore.

(** *** Opening a source *)

Lemma first_audio_spec streams :
  forall i,
    match first_audio streams i with
    | Some t =>
        i <= t
        /\ (exists s, nth_error streams (Z.to_nat (t - i)) = Some s
                      /\ is_audio s = true)
        /\ forall j s, 0 <= j < t - i ->
             nth_error streams (Z.to_nat j) = Some s -> is_audio s = false
    | None => Forall (fun s => is_audio s = false) streams
    end.
Proof.
  induction streams as [|s0 rest IH]; intros i; simpl; [constructor|].
  destruct (is_audio s0) eqn:Ea.
  - split; [lia|]. split.
    + exists s0. rewrite Z.sub_diag. simpl. auto.
    + intros j s Hj. lia.
  - specialize (IH (i + 1)).
    destruct (first_audio rest (i + 1)) as [t|].
    + destruct IH as (Hle & (s & Hn & Hs) & Hbefore).
      split; [lia|]. split.
      * exists s. split; [|assumption].
        replace (Z.to_nat (t - i)) with (S (Z.to_nat (t - (i + 1)))) by lia.
        simpl. assumption.
      * intros j s1 Hj Hn1.
        destruct (Z.eq_dec j 0) as [-> | Hnz].
        -- simpl in Hn1. inversion Hn1; subst. assumption.
        -- replace (Z.to_nat j) with (S (Z.to_nat (j - 1))) in Hn1 by lia.
           simpl in Hn1. apply (Hbefore (j - 1) s1); [lia | assumption].
    + constructor; assumption.
Qed.

(** X14.  The track [init] selects is an audio stream of the file: the
    requested one when a track is requested, otherwise the first audio
    stream (every stream before it is not audio).  No track is selected
    exactly when the requested stream is missing or not audio, or when
    the file has no audio stream. *)
Theorem select_track_audio streams trk :
  match select_track streams trk with
  | Some tid =>
      0 <= tid
      /\ (exists s, nth_error streams (Z.to_nat tid) = Some s
                    /\ is_audio s = true)
      /\ (0 <= trk -> tid = trk)
      /\ (trk < 0 ->
          forall j s, 0 <= j < tid ->
            nth_error streams (Z.to_nat j) = Some s -> is_audio s = false)
  | None =>
      (0 <= trk ->
       forall s, nth_error streams (Z.to_nat trk) = Some s ->
                 is_audio s = false)
      /\ (trk < 0 -> Forall (fun s => is_audio s = false) streams)
  end.
Proof.
  unfold select_track. destruct (0 <=? trk) eqn:Et.
  - apply Z.leb_le in Et.
    destruct (nth_error streams (Z.to_nat trk)) as [s|] eqn:En.
    + destruct (is_audio s) eqn:Ea.
      * split; [assumption|]. split; [exists s; auto|].
        split; [reflexivity | lia].
      * split; [|lia]. intros _ s' H. inversion H; subst. assumption.
    + split; [|lia]. intros _ s' H. discriminate.
  - apply Z.leb_gt in Et. pose proof (first_audio_spec streams 0) as H.
    destruct (first_audio streams 0) as [t|].
    + destruct H as (Hle & Hs & Hb). rewrite Z.sub_0_r in Hs, Hb.
      split; [assumption|]. split; [assumption|].
      split; [lia|]. intros _. assumption.
    + split; [lia|]. intros _. assumption.
Qed.

Lemma s32_range x : - 2 ^ 31 <= s32 x < 2 ^ 31.
Proof.
  unfold s32. pose proof (Z.mod_pos_bound (x + 2 ^ 31) (2 ^ 32)). lia.
Qed.

Lemma stream_of_retarget n e b l p :
  forall m, stream_of n (retarget m e b l p) = stream_of n m.
Proof.
  induction n as [|n IH]; intros m; simpl; [reflexivity|].
  rewrite decode_next_frame_retarget.
  destruct (decode_next_frame m) as [m' [u|]]; [|reflexivity].
  now rewrite IH.
Qed.

Lemma decoded_stream_retarget m e b l p :
  decoded_stream (retarget m e b l p) = decoded_stream m.
Proof. unfold decoded_stream. rewrite work_retarget. apply stream_of_retarget. Qed.

(** What a successful [init] has done: it has primed a fresh handle with
    one call of [buffer_next_frame]. *)
Lemma init_inv s streams events trk s' h :
  init s streams events trk = (s', Ret (Some h)) ->
  exists buf m0,
    zlen buf = DEFAULT_BUFSIZE
    /\ m0 = mkMachine s (mkLavf events (track h) buf DEFAULT_BUFSIZE
                                (surplus h) 0 0 (samplesize h))
    /\ buffer_next_frame m0 = (mkMachine s' h, true)
    /\ select_track streams trk = Some (track h)
    /\ surplus h * 2 < DEFAULT_BUFSIZE.
Proof.
  unfold init.
  assert (Hbig : DEFAULT_BUFSIZE = 384000) by reflexivity.
  remember DEFAULT_BUFSIZE as cap eqn:Hcap. clear Hcap.
  remember (repeat 0 (Z.to_nat cap)) as buf eqn:Hbuf.
  assert (Hzb : zlen buf = cap).
  { rewrite Hbuf. unfold zlen. rewrite repeat_length. lia. }
  clear Hbuf.
  intros H.
  destruct (select_track streams trk) as [tid|]; [|discriminate].
  destruct (nth_error streams (Z.to_nat tid)) as [ctx|]; [|discriminate].
  match type of H with (if negb ?c then _ else _) = _ =>
    destruct c eqn:Ec end; [|discriminate].
  cbv beta iota zeta delta [negb] in H.
  match type of H with
  | context [buffer_next_frame ?m] =>
      remember m as m0 eqn:Hm0;
      destruct (buffer_next_frame m0) as [m1 ok] eqn:Eb
  end.
  destruct ok; [|discriminate]. inversion H; subst s' h. clear H.
  destruct (buffer_next_frame_fixed _ _ _ Eb) as (F1 & F2 & _).
  assert (Ft : track (hnd m1) = track (hnd m0)).
  { unfold buffer_next_frame in Eb.
    destruct (decode_next_frame m0) as [m2 [u|]] eqn:Ed; [|discriminate].
    apply decode_next_frame_spec in Ed. destruct Ed as ([] & _).
    inversion Eb; subst m1.
    destruct (bufsize (hnd m2) <? s64 (len (hnd m2) + zlen u)); simpl;
      assumption. }
  rewrite Hm0 in F1, F2, Ft.
  cbn [hnd st samplesize surplus bufsize len bytepos buffer lavf track]
    in F1, F2, Ft.
  exists buf, m0.
  split; [assumption|].
  split; [rewrite Hm0, F1, F2, Ft; reflexivity|].
  split; [destruct m1; exact Eb|].
  split; [rewrite Ft; reflexivity|].
  rewrite F2. apply Z.ltb_lt in Ec.
  rewrite s64_small in Ec; [assumption|].
  match goal with
  | |- _ <= Z.quot (s32 ?x) 2 * 2 < _ =>
      pose proof (s32_range x) as Hy;
      set (y := s32 x) in *;
      pose proof (Z.quot_rem' y 2) as Hq;
      pose proof (Z.rem_bound_abs y 2 ltac:(lia)) as Hrm
  end.
  lia.
Qed.

(** The format a successful [init] has given the handle. *)
Lemma init_format s streams events trk s' h :
  init s streams events trk = (s', Ret (Some h)) ->
  exists ctx,
    select_track streams trk = Some (track h)
    /\ nth_error streams (Z.to_nat (track h)) = Some ctx
    /\ samplesize h = s32 (Z.quot (bits_per_sample ctx) 8 * channels ctx)
    /\ surplus h
       = Z.quot (s32 (s32 (frame_size ctx * samplesize h) * 3)) 2.
Proof.
  intros H.
  destruct (init_inv _ _ _ _ _ _ H) as (buf0 & m00 & _ & _ & _ & Hsel & _).
  unfold init in H. rewrite Hsel in H.
  remember DEFAULT_BUFSIZE as cap eqn:Hcap. clear Hcap.
  remember (repeat 0 (Z.to_nat cap)) as buf eqn:Hbuf. clear Hbuf.
  destruct (nth_error streams (Z.to_nat (track h))) as [ctx|]; [|discriminate].
  match type of H with (if negb ?c then _ else _) = _ =>
    destruct c eqn:Ec end; [|discriminate].
  cbv beta iota zeta delta [negb] in H.
  match type of H with
  | context [buffer_next_frame ?m] =>
      remember m as m0 eqn:Hm0;
      destruct (buffer_next_frame m0) as [m1 ok] eqn:Eb
  end.
  destruct ok; [|discriminate]. inversion H; subst s' h. clear H.
  destruct (buffer_next_frame_fixed _ _ _ Eb) as (F1 & F2 & _).
  rewrite Hm0 in F1, F2.
  cbn [hnd st samplesize surplus bufsize len bytepos buffer lavf track]
    in F1, F2.
  exists ctx. split; [assumption|]. split; [reflexivity|].
  split; [exact F1|]. rewrite F2, F1. reflexivity.
Qed.

(** The same from bounds on the handle itself. *)
Lemma init_opens_from s streams events trk s' h :
  init s streams events trk = (s', Ret (Some h)) ->
  errored s = false ->
  Forall (step_ok DEFAULT_BUFSIZE) (pkt_temp_steps s) ->
  Forall (event_ok DEFAULT_BUFSIZE) events ->
  steps_bytes (pkt_temp_steps s) + events_bytes events < 2 ^ 61 ->
  0 < samplesize h -> 0 <= surplus h ->
  samplesize h <= DEFAULT_BUFSIZE - 2 * surplus h ->
  let m := mkMachine s' h in
  let T := source_stream s events h in
  wf m /\ coherent T m
  /\ bufsize h = DEFAULT_BUFSIZE /\ bytepos h = 0 /\ 0 < len h
  /\ window m = slice T 0 (len h)
  /\ errored s' = false.
Proof.
  intros Hi He Hs Hev Hp Hss Hsur Hroom m T.
  destruct (init_inv _ _ _ _ _ _ Hi) as (buf & m0 & Hzb & Hm0 & Eb & _ & _).
  assert (Hbig : DEFAULT_BUFSIZE = 384000) by reflexivity.
  assert (Hwf0 : wf m0).
  { rewrite Hm0. constructor;
      cbn [hnd st samplesize surplus bufsize len bytepos buffer lavf];
      try assumption; try lia.
    unfold pending.
    cbn [hnd st samplesize surplus bufsize len bytepos buffer lavf]. lia. }
  assert (He0 : errored (st m0) = false) by (rewrite Hm0; exact He).
  pose proof (step_reach _ _ Hwf0 He0 Eb) as Hr.
  destruct (buffer_next_frame_ok _ _ Hwf0 Eb) as (m1 & u & _ & _ & Hstep).
  destruct Hstep as [[U1 U2] _ (_ & F2 & _ & _ & F5) Hwin _ _ Hwf].
  assert (Hb0 : bufsize (hnd m0) = DEFAULT_BUFSIZE) by (rewrite Hm0; reflexivity).
  assert (Hl0 : len (hnd m0) = 0) by (rewrite Hm0; reflexivity).
  assert (Hp0 : bytepos (hnd m0) = 0) by (rewrite Hm0; reflexivity).
  rewrite Hb0, Hl0, Hp0 in Hwin. rewrite Hb0 in U2, F2.
  replace (DEFAULT_BUFSIZE <? 0 + zlen u) with false in Hwin
    by (symmetry; apply Z.ltb_ge; lia).
  destruct Hwin as (Hbp & Hln).
  cbn [hnd st] in F2, Hbp, Hln, F5.
  assert (HT : decoded_stream m0 = T).
  { unfold T, source_stream. rewrite F2.
    match goal with
    | |- _ = decoded_stream ?x =>
        rewrite <- (decoded_stream_retarget x (errored s) buf 0 0)
    end.
    f_equal. rewrite Hm0. unfold retarget, set_cache. simpl.
    destruct s; reflexivity. }
  assert (Hco : coherent T m).
  { apply (reach_coherent _ _ Hr). rewrite <- HT.
    apply fresh_coherent; assumption. }
  split; [exact Hwf|]. split; [exact Hco|].
  split; [assumption|]. split; [assumption|]. split; [lia|].
  split.
  - unfold window. rewrite (cache_read T m 0 (len (hnd m)) Hwf Hco).
    + unfold m. cbn [hnd]. rewrite Hbp. reflexivity.
    + lia.
    + unfold m. cbn [hnd]. lia.
    + lia.
  - rewrite F5. rewrite Hm0. exact He.
Qed.

(** What [format_fits] gives for the handle of a successful [init]. *)
Lemma init_room s streams events trk s' h ctx :
  init s streams events trk = (s', Ret (Some h)) ->
  nth_error streams (Z.to_nat (track h)) = Some ctx ->
  format_fits ctx ->
  samplesize h = Z.quot (bits_per_sample ctx) 8 * channels ctx
  /\ surplus h = Z.quot (frame_size ctx * samplesize h * 3) 2
  /\ 0 < samplesize h /\ 0 <= surplus h
  /\ samplesize h <= DEFAULT_BUFSIZE - 2 * surplus h.
Proof.
  intros Hi Hn (Hq & Hfs & Hfit).
  destruct (init_format _ _ _ _ _ _ Hi) as (ctx' & _ & Hn' & Hss & Hsur).
  rewrite Hn in Hn'. inversion Hn'; subst ctx'. clear Hn'.
  assert (Hbig : DEFAULT_BUFSIZE = 384000) by reflexivity.
  rewrite Hbig in *.
  set (q := Z.quot (bits_per_sample ctx) 8 * channels ctx) in *.
  cbv zeta in Hfit.
  assert (Hx : 0 <= frame_size ctx * q) by (apply Z.mul_nonneg_nonneg; lia).
  set (x := frame_size ctx * q) in *.
  pose proof (Z.quot_rem' (x * 3) 2) as Hqr.
  pose proof (Z.rem_bound_pos (x * 3) 2 ltac:(lia) ltac:(lia)) as Hrb.
  assert (Hqs : samplesize h = q) by (rewrite Hss; apply s32_small; lia).
  rewrite Hqs in *. fold x in Hsur.
  rewrite (s32_small x) in Hsur by lia.
  rewrite (s32_small (x * 3)) in Hsur by lia.
  repeat split; try lia; try assumption.
Qed.


(** *** The properties at concrete inputs *)


End LavfMoreE.

(** ** The encoder adapter: further properties *)

Module LameMore.

Import Pkt Lame LameSpec.

Lemma s64_idem_add x y : s64 (s64 x + y) = s64 (x + y).
Proof.
  unfold s64.
  replace ((x + 2 ^ 63) mod 2 ^ 64 - 2 ^ 63 + y + 2 ^ 63)
    with ((x + 2 ^ 63) mod 2 ^ 64 + y) by lia.
  rewrite Zplus_mod_idemp_l. do 2 f_equal. lia.
Qed.

Section AdapterMore.

Variable chain : Type.
Variable af_get_samples : chain -> Z -> Z -> chain * option audio_packet_t.
Variable lame_t : Type.
Variable lame_encode_buffer_float :
  lame_t -> audio_packet_t -> Z -> lame_t * Z * list Z.

Local Abbreviation enc := (enc_lame_t chain lame_t).
Local Abbreviation gnp :=
  (get_next_packet af_get_samples lame_encode_buffer_float).
Local Abbreviation silent :=
  (silent_pulls af_get_samples lame_encode_buffer_float).
Local Abbreviation final :=
  (last_round af_get_samples lame_encode_buffer_float).

(** Rounds that are encoded to nothing leave the adapter running and do
    not touch its geometry. *)
Lemma silent_keeps (h : enc) n hn :
  silent h n hn ->
  finishing hn = finishing h /\ framelen hn = framelen h
  /\ bufsize hn = bufsize h /\ packet_count hn = packet_count h.
Proof.
  induction 1 as [h | h c p l bytes n h1 Hm Ea Ee Hsil IH]; [auto|].
  simpl in IH. exact IH.
Qed.

Lemma gnp_rounds fuel (h : enc) h' r :
  finishing h = 0 -> gnp fuel h = (h', Ret r) ->
  exists n hn, silent h n hn /\ final hn h' r.
Proof.
  intros Hfin H. unfold get_next_packet in H. rewrite Hfin in H. simpl in H.
  apply LameClaims.loop_sound in H; [|repeat split; reflexivity].
  destruct H as (n & hn & _ & Hs & Hf). eauto.
Qed.

(** X16.  A [NULL] from [get_next_packet] in the running state is one of
    two things.  Either the held packet was flagged end-of-stream: the
    adapter is now finishing, and every later call returns [NULL] and
    changes nothing.  Or the pull failed: the adapter is still running,
    holds no packet, and [last_sample] stays where the last successful
    pull left it. *)
Theorem get_next_packet_null fuel (h : enc) h' :
  finishing h = 0 -> gnp fuel h = (h', Ret None) ->
  (finishing h' = 1
   /\ (exists q, in_ h' = HFreed q /\ has_eof q = true)
   /\ forall fuel', gnp fuel' h' = (h', Ret None))
  \/ (finishing h' = 0 /\ in_ h' = HNull
      /\ exists n hn, silent h n hn /\ last_sample h' = last_sample hn).
Proof.
  intros Hfin H. destruct (gnp_rounds _ _ _ _ Hfin H) as (n & hn & Hs & Hf).
  destruct (silent_keeps _ _ _ Hs) as (Hk & _).
  inversion Hf; subst.
  - left. split; [reflexivity|]. split; [eexists; split; [reflexivity|assumption]|].
    intros fuel'. reflexivity.
  - right. simpl. split; [congruence|]. split; [reflexivity|].
    exists n, hn. auto.
Qed.

(** X17.  A packet that [get_next_packet] returns is stamped with the
    first sample of the last window pulled: the held packet is that
    window, [last_sample] is the stamp plus its sample count, and the
    adapter is still running. *)
Theorem get_next_packet_timestamp fuel (h : enc) h' out :
  finishing h = 0 -> gnp fuel h = (h', Ret (Some out)) ->
  exists p,
    in_ h' = HLive p
    /\ last_sample h' = s64 (dts out + samplecount p)
    /\ finishing h' = 0
    /\ framelen h' = framelen h /\ bufsize h' = bufsize h.
Proof.
  intros Hfin H. destruct (gnp_rounds _ _ _ _ Hfin H) as (n & hn & Hs & Hf).
  destruct (silent_keeps _ _ _ Hs) as (K1 & K2 & K3 & _).
  inversion Hf; subst. exists p. simpl.
  repeat split; congruence.
Qed.

(** X18.  Skips add up: skipping [a] and then [b] samples is skipping
    [a + b], whatever the values, wrap-around included. *)
Theorem skip_samples_add (h : enc) a b :
  skip_samples (skip_samples h a) b = skip_samples h (a + b).
Proof.
  unfold skip_samples. simpl. f_equal.
  rewrite !s64_u64_sum. rewrite s64_idem_add. f_equal. lia.
Qed.

End AdapterMore.

(** *** The properties at concrete adapters *)

Import Demo DemoMore.

(** X16 when the first packet pulled carries the end-of-stream flag: it
    is encoded to nothing and the next round stops the adapter. *)
Lemma get_next_packet_null_witness :
  exists h',
    get_next_packet ending_upstream demo_encode 3 demo_adapter
    = (h', Ret None)
    /\ finishing h' = 1
    /\ ((finishing h' = 1
         /\ (exists q, in_ h' = HFreed q /\ has_eof q = true)
         /\ forall fuel',
              get_next_packet ending_upstream demo_encode fuel' h'
              = (h', Ret None))
        \/ (finishing h' = 0 /\ in_ h' = HNull
            /\ exists n hn,
                 silent_pulls ending_upstream demo_encode demo_adapter n hn
                 /\ last_sample h' = last_sample hn)).
Proof.
  eexists.
  split; [vm_compute; reflexivity|].
  split; [vm_compute; reflexivity|].
  eapply (get_next_packet_null Z ending_upstream Z demo_encode 3
            demo_adapter).
  - reflexivity.
  - vm_compute; reflexivity.
Defined.

(** X17 from a fresh adapter: the packet of the second pull is stamped
    1152 and the position ends at 2304. *)
Lemma get_next_packet_timestamp_witness :
  exists h' out,
    get_next_packet demo_upstream demo_encode 3 demo_adapter
    = (h', Ret (Some out))
    /\ dts out = 1152
    /\ exists p,
         in_ h' = HLive p
         /\ last_sample h' = s64 (dts out + samplecount p)
         /\ finishing h' = 0
         /\ framelen h' = framelen demo_adapter
         /\ bufsize h' = bufsize demo_adapter.
Proof.
  eexists _, _.
  split; [vm_compute; reflexivity|].
  split; [vm_compute; reflexivity|].
  eapply (get_next_packet_timestamp Z demo_upstream Z demo_encode 3
            demo_adapter).
  - reflexivity.
  - vm_compute; reflexivity.
Defined.

End LameMore.

Module LameInitMore.

Import Pkt Lame LameSpec LameInit.

Section InitFacts.

Variable num : Type.
Variable six : num.
Variable to_int : num -> Z.
Variable chain : Type.
Variable lame_t : Type.
Variable lame_init_params : lame_settings num -> lame_t.
Variable lame_get_framesize : lame_t -> Z.
Variable lame_get_out_samplerate : lame_t -> Z.
Variable lame_encode_flush : lame_t -> Z -> lame_t * Z * list Z.

(** X19.  The encoder refuses to open in exactly two cases: more than two
    channels upstream, or both a bitrate and a VBR quality in the
    options. *)
Theorem init_rejects (c : chain) info cbr vbr q :
  init six to_int lame_init_params lame_get_framesize
       lame_get_out_samplerate (Some c) info cbr vbr q = Ret None
  <-> 2 < channels info \/ (cbr <> None /\ vbr <> None).
Proof.
  unfold init. destruct (2 <? channels info) eqn:Ec.
  - apply Z.ltb_lt in Ec. split; auto.
  - apply Z.ltb_ge in Ec.
    destruct cbr as [x|], vbr as [y|]; split; intros H;
      try discriminate; try reflexivity;
      try (right; split; discriminate);
      destruct H as [H | [H1 H2]]; try lia; congruence.
Qed.

(** X20.  An adapter that opens is running and empty-handed: nothing has
    been pulled, no packet is held (so [finish] is undefined until a
    pull has succeeded).  A bitrate selects constant bitrate at its
    integer part; otherwise the encoder runs in VBR at the given quality
    or at 6.  The output block has room for
    [125 * framelen / 100 + 7200] bytes, the time base is one over the
    upstream sample rate, and the sample rate reported is LAME's output
    rate. *)
Theorem init_running (c : chain) info cbr vbr q h info' :
  init six to_int lame_init_params lame_get_framesize
       lame_get_out_samplerate (Some c) info cbr vbr q
  = Ret (Some (h, info')) ->
  0 <= lame_get_framesize (lame h) < 2 ^ 24 ->
  finishing h = 0 /\ last_sample h = 0 /\ in_ h = HNull
  /\ filter_chain h = c
  /\ finish lame_encode_flush h = (h, Undefined)
  /\ framelen h = lame_get_framesize (lame h)
  /\ bufsize h = Z.quot (125 * framelen h) 100 + 7200
  /\ 7200 <= bufsize h
  /\ timebase info' = (1, samplerate info)
  /\ samplerate info' = lame_get_out_samplerate (lame h)
  /\ channels info' = channels info /\ channels info' <= 2
  /\ exists s,
       lame h = lame_init_params s
       /\ scale s = 32768 /\ in_samplerate s = samplerate info
       /\ num_channels s = channels info /\ quality s = otoi q 0
       /\ match cbr with
          | Some x => VBR s = vbr_off /\ brate s = Some (to_int x)
                      /\ VBR_quality s = None
          | None => VBR s = vbr_default /\ brate s = None
                    /\ VBR_quality s = Some (otof vbr six)
          end.
Proof.
  unfold init. destruct (2 <? channels info) eqn:Ec; [discriminate|].
  apply Z.ltb_ge in Ec.
  intros H Hfl.
  assert (Hq : forall fl, 0 <= fl < 2 ^ 24 ->
            u64 (s32 (Z.quot (s32 (125 * fl)) 100 + 7200))
            = Z.quot (125 * fl) 100 + 7200
            /\ 7200 <= Z.quot (125 * fl) 100 + 7200).
  { intros fl Hr.
    rewrite (s32_small (125 * fl)) by lia.
    assert (0 <= Z.quot (125 * fl) 100 <= 125 * fl).
    { rewrite Z.quot_div_nonneg by lia. split.
      - apply Z.div_pos; lia.
      - apply Z.div_le_upper_bound; lia. }
    rewrite s32_small by lia. rewrite u64_small by lia. lia. }
  destruct cbr as [x|], vbr as [y|]; try discriminate;
    inversion H; subst h info'; clear H; simpl in *;
    destruct (Hq _ Hfl) as (Hb1 & Hb2);
    repeat (split; [first [reflexivity | assumption | lia]|]);
    (eexists; split; [reflexivity|]; simpl;
     repeat (split; [reflexivity|]); repeat split; reflexivity).
Qed.

End InitFacts.

(** *** The properties at a concrete encoder *)

Import Demo DemoMore.

(** X20 for the encoder opened at 128 kbps. *)
Lemma init_running_witness :
  exists h info',
    demo_open = Ret (Some (h, info'))
    /\ bufsize h = 8640
    /\ (finishing h = 0 /\ last_sample h = 0 /\ in_ h = HNull
        /\ filter_chain h = 0
        /\ finish (fun l (_ : Z) => (l, 2, [9; 9])) h = (h, Undefined)
        /\ framelen h = 1152
        /\ bufsize h = Z.quot (125 * framelen h) 100 + 7200
        /\ 7200 <= bufsize h
        /\ timebase info' = (1, 44100)
        /\ samplerate info' = in_samplerate (lame h)
        /\ channels info' = 2 /\ channels info' <= 2
        /\ exists s,
             lame h = s
             /\ scale s = 32768 /\ in_samplerate s = 44100
             /\ num_channels s = 2 /\ quality s = otoi None 0
             /\ VBR s = vbr_off /\ brate s = Some 128
             /\ VBR_quality s = None).
Proof.
  eexists _, _.
  split; [vm_compute; reflexivity|].
  split; [vm_compute; reflexivity|].
  eapply (init_running Z 6 (fun x => x) Z (lame_settings Z) (fun s => s)
            (fun _ => 1152) (fun s => in_samplerate s)
            (fun l (_ : Z) => (l, 2, [9; 9]))
            0 (mkInfo 2 44100 0 0 0 0 (0, 0) 0) (Some 128) None None).
  - vm_compute; reflexivity.
  - vm_compute. split; [discriminate | reflexivity].
Defined.

End LameInitMore.
